(** * Bulk image watermarker: a shallow embedding of [watermark-v0.1.py]

    The development follows the source top-down.

    - [Py]: the fragment of Python the program relies on: exceptions and
      their class hierarchy, binary64 floats ([int * float], [int / int],
      [int(float)]) and the binary32 floats of the C library, [str]
      methods, [os.path.join], [os.path.splitext].
    - [PIL]: the Pillow objects the program manipulates.  Images live in a
      store and are passed by reference, as Python objects are; the pixel
      kernels of the library (resampling, colour conversion, text
      rasterisation, masked paste) are an interface, [Kernels].
    - [Watermarker]: the methods of [ImageWatermarker], one definition per
      method, in a state-and-exception monad over the [world].
    - the theorems about them: [Placement], [Sharing], [Transparency],
      [Processing], [Directory], [Loading].
    - [Rounding] and [Resizing]: the float arithmetic of
      [resize_watermark] and the size it gives the watermark.
    - [Surroundings], [Dimensions], [Writes], [Records]: what a run does
      to the log, the size of what it saves, and when it saves nothing.
    - [Paths] and [Setup]: [clean_path], the constructor with
      [_create_output_dir] and [setup_logging], and [main]; the calls to
      the operating system are an interface, [System].
    - [Margins], [Logo], [Selection], [Own]: further properties of
      [calculate_position], [_load_watermark] and the selection of
      entries. *)

From Stdlib Require Import ZArith Lia Bool List String Ascii.
From Stdlib Require Import SpecFloat DecimalString.
From stdpp Require Import gmap strings list.

Local Open Scope string_scope.
Local Open Scope Z_scope.

(* ===================================================================== *)
(** * Python *)
(* ===================================================================== *)

Module Py.

(** ** Exceptions

    The classes the program can meet, all below [Exception].  [OSError] is
    the parent of the file-system errors and of Pillow's
    [UnidentifiedImageError]. *)

Inductive exn_class : Type :=
| Exception
| OSError
| FileNotFoundError
| PermissionError
| IsADirectoryError
| NotADirectoryError
| UnidentifiedImageError
| AttributeError
| ValueError
| ZeroDivisionError
| OverflowError
| IndexError
| MemoryError.

#[export] Instance exn_class_eq_dec : EqDecision exn_class.
Proof. solve_decision. Defined.

Record exn : Type := Exn { exn_cls : exn_class; exn_msg : string }.

(** The direct base class; [Exception] is the root of this fragment. *)
Definition base (c : exn_class) : exn_class :=
  match c with
  | FileNotFoundError | PermissionError | IsADirectoryError
  | NotADirectoryError | UnidentifiedImageError => OSError
  | _ => Exception
  end.

(** [issubclass c d], the test an [except d:] clause performs. *)
Definition issubclass (c d : exn_class) : bool :=
  bool_decide (c = d) || bool_decide (base c = d) || bool_decide (d = Exception).

(** [except (d1, d2, ...):] *)
Definition caught_by (ds : list exn_class) (e : exn) : bool :=
  existsb (issubclass (exn_cls e)) ds.

(** ** Results of a call: a value or a raised exception *)

Inductive outcome (A : Type) : Type :=
| Ok (a : A)
| Raise (e : exn).
Arguments Ok {A} a.
Arguments Raise {A} e.

(** ** Floats: IEEE 754 binary64, round to nearest even *)

Definition prec : Z := 53.
Definition emax : Z := 1024.
Abbreviation float := spec_float.

Definition fmul : float -> float -> float := SFmul prec emax.
Definition fdiv : float -> float -> float := SFdiv prec emax.
Definition fadd : float -> float -> float := SFadd prec emax.

(** An integer as an unrounded binary number. *)
Definition exact_int (z : Z) : float :=
  match z with
  | Z0 => S754_zero false
  | Zpos p => S754_finite false p 0
  | Zneg p => S754_finite true p 0
  end.

Definition is_finite (f : float) : bool :=
  match f with
  | S754_zero _ | S754_finite _ _ _ => true
  | _ => false
  end.

(** [float(z)]: the nearest binary64 number, or [OverflowError]. *)
Definition float_of_int (z : Z) : outcome float :=
  let f := binary_normalize prec emax z 0 false in
  if is_finite f then Ok f
  else Raise (Exn OverflowError "int too large to convert to float").

(** [int(f)]: truncation toward zero. *)
Definition trunc (f : float) : Z :=
  match f with
  | S754_finite s m e =>
      let v := match e with
               | Z0 => Zpos m
               | Zpos k => Zpos m * 2 ^ Zpos k
               | Zneg k => Zpos m / 2 ^ Zpos k
               end in
      if s then - v else v
  | _ => 0
  end.

Definition int_of_float (f : float) : outcome Z :=
  match f with
  | S754_nan => Raise (Exn ValueError "cannot convert float NaN to integer")
  | S754_infinity _ =>
      Raise (Exn OverflowError "cannot convert float infinity to integer")
  | _ => Ok (trunc f)
  end.

(** [a / b] on two [int]s: the correctly rounded quotient. *)
Definition int_truediv (a b : Z) : outcome float :=
  if b =? 0 then Raise (Exn ZeroDivisionError "division by zero")
  else
    let q := fdiv (exact_int a) (exact_int b) in
    if is_finite q then Ok q
    else Raise (Exn OverflowError "integer division result too large for a float").

(** [z * f] with [z] an [int]: [float(z) * f]. *)
Definition int_mul_float (z : Z) (f : float) : outcome float :=
  match float_of_int z with
  | Ok x => Ok (fmul x f)
  | Raise e => Raise e
  end.

(** ** C floats: IEEE 754 binary32

    Pillow's C code computes in [float].  A Python float handed to it is
    converted by the cast [(float)x], a rounding to nearest even; a C
    [int] is converted exactly as long as it has at most 24 bits. *)

Definition prec32 : Z := 24.
Definition emax32 : Z := 128.

Definition to_float32 (x : float) : float :=
  match x with
  | S754_finite s m e => binary_round prec32 emax32 s m e
  | _ => x
  end.

Definition float32_of_int (n : Z) : float :=
  binary_normalize prec32 emax32 n 0 false.

(** ** Strings *)

Definition lower_ascii (c : ascii) : ascii :=
  let n := nat_of_ascii c in
  if ((65 <=? n) && (n <=? 90))%nat then ascii_of_nat (n + 32) else c.

(** [s.lower()], on the ASCII letters. *)
Fixpoint lower (s : string) : string :=
  match s with
  | EmptyString => EmptyString
  | String c r => String (lower_ascii c) (lower r)
  end.

(** [str(z)] for an [int]. *)
Definition str_of_int (z : Z) : string := NilZero.string_of_int (Z.to_int z).

(** [s.rfind(c)]: the last index of [c], or -1. *)
Fixpoint rfind_from (c : ascii) (s : string) (i : Z) (best : Z) : Z :=
  match s with
  | EmptyString => best
  | String d r => rfind_from c r (i + 1) (if Ascii.eqb c d then i else best)
  end.

Definition rfind (c : ascii) (s : string) : Z := rfind_from c s 0 (-1).

(** [s[:i]] and [s[i:]] for [0 <= i]. *)
Definition take_str (i : Z) (s : string) : string :=
  substring 0 (Z.to_nat i) s.
Definition drop_str (i : Z) (s : string) : string :=
  substring (Z.to_nat i) (String.length s - Z.to_nat i) s.

Fixpoint existsb_str (p : ascii -> bool) (s : string) : bool :=
  match s with
  | EmptyString => false
  | String c r => p c || existsb_str p r
  end.

(** [s.startswith(t)] and [s.endswith(t)] for a one-character [t]. *)
Definition startswith (s : string) (c : ascii) : bool :=
  match s with
  | String d _ => Ascii.eqb c d
  | EmptyString => false
  end.

Fixpoint endswith (s : string) (c : ascii) : bool :=
  match s with
  | EmptyString => false
  | String d EmptyString => Ascii.eqb c d
  | String _ r => endswith r c
  end.

(** ** [os.path] (POSIX flavour) *)

Definition sep : ascii := "/"%char.
Definition extsep : ascii := "."%char.

(** [posixpath.join(a, b)]. *)
Definition os_path_join (a b : string) : string :=
  if startswith b sep then b
  else if String.eqb a "" || endswith a sep then String.append a b
  else String.append a (String sep b).

(** [genericpath._splitext]: the extension starts at the last dot of the
    last component, unless only dots precede it in that component. *)
Definition os_path_splitext (p : string) : string * string :=
  let sepIndex := rfind sep p in
  let dotIndex := rfind extsep p in
  if (sepIndex <? dotIndex)
     && existsb_str (fun c => negb (Ascii.eqb c extsep))
          (substring (Z.to_nat (sepIndex + 1))
                     (Z.to_nat (dotIndex - (sepIndex + 1))) p)
  then (take_str dotIndex p, drop_str dotIndex p)
  else (p, "").

(** Truthiness of an [Optional[str]]: [None] and [''] are false. *)
Definition truthy (r : option string) : bool :=
  match r with
  | Some s => negb (String.eqb s "")
  | None => false
  end.

End Py.

(* ===================================================================== *)
(** * The world: Pillow objects, the file system, the log *)
(* ===================================================================== *)

Module PIL.
Import Py.

(** A band is the row-major list of one channel's samples, as
    [Image.split()] returns them; an image is its mode string, its size
    and its bands. *)
Abbreviation band := (list Z).

Record image : Type := Image {
  mode : string;
  width : Z;
  height : Z;
  bands : list band
}.

Definition size (im : image) : Z * Z := (width im, height im).

Definition set_bands (bs : list band) (im : image) : image :=
  Image (mode im) (width im) (height im) bs.

(** [repr] of a size tuple, as an f-string prints it. *)
Definition repr_size (sz : Z * Z) : string :=
  String.append "("
    (String.append (str_of_int (fst sz))
       (String.append ", " (String.append (str_of_int (snd sz)) ")"))).

Inductive font : Type :=
| TrueType (name : string) (pt : Z)
| DefaultFont.

Inductive resampling : Type := NEAREST | BILINEAR | BICUBIC | LANCZOS.

(** The pixel kernels of the library.  Their arithmetic is Pillow's own
    and is left open: every statement below holds for all of them. *)
Class Kernels : Type := {
  (** [im.resize((w, h), filter)]: the resampled bands. *)
  resample : resampling -> image -> Z -> Z -> list band;
  (** [im.convert(mode)]: the converted bands, [None] when Pillow has no
      conversion between the two modes. *)
  convert_bands : string -> string -> list band -> option (list band);
  (** [ImageDraw.text(xy, text, font, fill)]: the bands after drawing. *)
  rasterize : image -> Z * Z -> string -> font -> list Z -> list band;
  (** [dest.paste(src, box, mask)]: the bands of [dest] afterwards,
      [None] when the operands do not match. *)
  paste_bands : image -> image -> Z * Z -> option image -> option (list band)
}.

(** Image objects are identified by their address. *)
Abbreviation loc := positive.

(** What [Image.open] finds at a path: a decodable picture, or something
    it fails on with the given exception (no permission, a directory, not
    an image).  A text file, such as the log file of the program, is of
    the second kind whatever its text. *)
Inductive file : Type :=
| Picture (im : image)
| Unreadable (e : exn).

Inductive level : Type := INFO | WARNING | ERROR.

Record world : Type := World {
  heap : gmap loc image;
  files : gmap string file;
  (** paths that cannot be opened for writing, with the error [open]
      raises there *)
  write_errors : gmap string exn;
  (** TrueType fonts that can be found *)
  fonts : gset string;
  (** directories, with their entries in [os.listdir] order *)
  dirs : gmap string (list string);
  (** the records handed to [logging], oldest first *)
  log : list (level * string)
}.

Definition set_heap (h : gmap loc image) (w : world) : world :=
  World h (files w) (write_errors w) (fonts w) (dirs w) (log w).
Definition set_files (f : gmap string file) (w : world) : world :=
  World (heap w) f (write_errors w) (fonts w) (dirs w) (log w).
Definition set_log (l : list (level * string)) (w : world) : world :=
  World (heap w) (files w) (write_errors w) (fonts w) (dirs w) l.

(** ** The monad of Python statements: state, and exceptions that keep
    the state reached when they were raised. *)

Definition M (A : Type) : Type := world -> outcome A * world.

Definition ret {A} (a : A) : M A := fun w => (Ok a, w).
Definition raise {A} (e : exn) : M A := fun w => (Raise e, w).
Definition bind {A B} (m : M A) (k : A -> M B) : M B :=
  fun w => match m w with
           | (Ok a, w') => k a w'
           | (Raise e, w') => (Raise e, w')
           end.
Definition lift {A} (o : outcome A) : M A := fun w => (o, w).

(** [try: body except (classes) as e: handler e] *)
Definition try_except {A} (body : M A) (classes : list exn_class)
    (handler : exn -> M A) : M A :=
  fun w => match body w with
           | (Raise e, w') =>
               if caught_by classes e then handler e w' else (Raise e, w')
           | r => r
           end.

Declare Scope py_scope.
Delimit Scope py_scope with py.
Notation "x <- c1 ;; c2" := (bind c1 (fun x => c2))
  (at level 100, c1 at next level, right associativity) : py_scope.
Notation "c1 ;; c2" := (bind c1 (fun _ => c2))
  (at level 100, right associativity) : py_scope.
Local Open Scope py_scope.

(** ** [logging]

    A record goes to every handler [setup_logging] has installed, the
    console and the log file; the world keeps the sequence of records, not
    the text of the log file. *)

Definition logging (lv : level) (msg : string) : M unit :=
  fun w => (Ok tt, set_log (log w ++ [(lv, msg)]) w).

(** ** The store *)

Definition alloc (im : image) : M loc :=
  fun w => let l := fresh (dom (heap w)) in
           (Ok l, set_heap (<[l := im]> (heap w)) w).

(** Reading through a reference.  A reference always designates a live
    object in Python; the error branch is for stores that are not
    well formed. *)
Definition deref (l : loc) : M image :=
  fun w => match heap w !! l with
           | Some im => (Ok im, w)
           | None => (Raise (Exn Exception "dangling reference"), w)
           end.

Definition store (l : loc) (im : image) : M unit :=
  fun w => (Ok tt, set_heap (<[l := im]> (heap w)) w).

Section Library.
Context `{Kernels}.

(** ** [PIL.Image] *)

(** *** Paths that lead nowhere

    The exception of [open(path)] where the world holds nothing at
    [path], the way Linux resolves a path.  Python itself refuses a NUL
    character ([ValueError]); the kernel refuses a path of [PATH_MAX]
    bytes or more, and then walks the components from the left, where the
    first that cannot be entered decides: a name of more than [NAME_MAX]
    bytes ([OSError]), a regular file ([NotADirectoryError]), a name that
    does not exist ([FileNotFoundError]); a path that ends at a directory
    cannot be read ([IsADirectoryError]).  Paths are taken as they are
    written: [.] and [..] are names like any other. *)

Definition NAME_MAX : nat := 255.
Definition PATH_MAX : nat := 4096.

(** [p] lies below the directory [d]. *)
Definition below (d p : string) : bool :=
  String.prefix (String.append d (String sep "")) p.

(** A regular file: a picture, or a file that is no image. *)
Definition is_regular (w : world) (p : string) : bool :=
  match files w !! p with
  | Some (Picture _) => true
  | Some (Unreadable e) => bool_decide (exn_cls e = UnidentifiedImageError)
  | None => false
  end.

(** A directory: one with a listing, one that [open] refuses as a
    directory, or one that something of the world lies below. *)
Definition is_directory (w : world) (p : string) : bool :=
  match dirs w !! p, files w !! p with
  | Some _, _ => true
  | None, Some (Unreadable e) => bool_decide (exn_cls e = IsADirectoryError)
  | None, Some (Picture _) => false
  | None, None =>
      existsb (fun kv => below p (fst kv)) (map_to_list (files w))
      || existsb (fun kv => below p (fst kv)) (map_to_list (dirs w))
  end.

(** The walk: [seen] has been entered, [name] is the component being
    read, [rest] is still to read. *)
Fixpoint walk (w : world) (seen name rest : string) : exn_class :=
  match rest with
  | EmptyString =>
      if (NAME_MAX <? String.length name)%nat then OSError
      else if String.eqb name ""
      then (if String.eqb seen "" then FileNotFoundError
            else IsADirectoryError)
      else if is_directory w (String.append seen name) then IsADirectoryError
      else FileNotFoundError
  | String c rest' =>
      if Ascii.eqb c sep then
        if String.eqb name ""
        then walk w (String.append seen (String sep "")) "" rest'
        else
          let p := String.append seen name in
          if (NAME_MAX <? String.length name)%nat then OSError
          else if is_regular w p then NotADirectoryError
          else if is_directory w p
          then walk w (String.append p (String sep "")) "" rest'
          else FileNotFoundError
      else walk w seen (String.append name (String c "")) rest'
  end.

Definition NUL : ascii := "000"%char.

Definition missing_class (w : world) (path : string) : exn_class :=
  if existsb_str (Ascii.eqb NUL) path then ValueError
  else if (PATH_MAX <=? String.length path)%nat then OSError
  else walk w "" "" path.

Definition strerror (c : exn_class) : string :=
  match c with
  | ValueError => "embedded null byte"
  | NotADirectoryError => "Not a directory: "
  | IsADirectoryError => "Is a directory: "
  | FileNotFoundError => "No such file or directory: "
  | _ => "File name too long: "
  end.

Definition missing (w : world) (path : string) : exn :=
  let c := missing_class w path in
  Exn c (if bool_decide (c = ValueError) then strerror c
         else String.append (strerror c) path).

(** [Image.open(path)]: what the world holds at the path decides. *)
Definition Image_open (path : string) : M loc :=
  fun w => match files w !! path with
           | None => (Raise (missing w path), w)
           | Some (Unreadable e) => (Raise e, w)
           | Some (Picture im) => alloc im w
           end.

(** [Image.new(mode, size, color)] *)
Definition Image_new (md : string) (sz : Z * Z) (color : list Z) : M loc :=
  if (fst sz <? 0) || (snd sz <? 0)
  then raise (Exn ValueError "Width and height must be >= 0")
  else alloc (Image md (fst sz) (snd sz)
                (map (fun c => replicate (Z.to_nat (fst sz * snd sz)) c) color)).

(** [im.convert(mode)]: a converted copy. *)
Definition convert (l : loc) (md : string) : M loc :=
  im <- deref l ;;
  match convert_bands (mode im) md (bands im) with
  | Some bs => alloc (Image md (width im) (height im) bs)
  | None => raise (Exn ValueError "conversion not supported")
  end.

(** A size the C code can hold: a C [int]. *)
Definition c_int (z : Z) : bool := (- 2 ^ 31 <=? z) && (z <? 2 ^ 31).

(** [im.resize(size, filter)]: always a new object.  A request for the
    size the image has (which is never negative) is answered by a copy;
    any other goes to the C code, which takes the two numbers as C [int]s
    and wants them positive.  The store of the model is unbounded, so the
    [MemoryError] of an image too large for the machine is not part of
    it. *)
Definition resize (l : loc) (sz : Z * Z) (filter : resampling) : M loc :=
  im <- deref l ;;
  if bool_decide (size im = sz) && (0 <=? fst sz) && (0 <=? snd sz)
  then alloc im
  else if negb (c_int (fst sz) && c_int (snd sz))
  then raise (Exn OverflowError "Python int too large to convert to C int")
  else if (fst sz <? 1) || (snd sz <? 1)
  then raise (Exn ValueError "height and width must be > 0")
  else alloc (Image (mode im) (fst sz) (snd sz)
                (resample filter im (fst sz) (snd sz))).

(** [im.split()[i]]: band [i] as a new image of mode [L]. *)
Definition split_at (l : loc) (i : nat) : M loc :=
  im <- deref l ;;
  match bands im !! i with
  | Some b => alloc (Image "L" (width im) (height im) [b])
  | None => raise (Exn IndexError "tuple index out of range")
  end.

(** The index of the alpha band, for the modes that have one. *)
Definition alpha_index (md : string) : option nat :=
  if String.eqb md "RGBA" then Some 3%nat
  else if String.eqb md "LA" || String.eqb md "PA" then Some 1%nat
  else None.

(** [im.putalpha(alpha)] with [alpha] an image: overwrites the alpha band
    of [im] in place.  (Pillow first promotes an image without alpha band;
    the program only calls it on RGBA images, and that path is not
    modelled.) *)
Definition putalpha (l alpha : loc) : M unit :=
  im <- deref l ;;
  a <- deref alpha ;;
  match alpha_index (mode im), bands a with
  | Some i, [b] =>
      if bool_decide (size a = size im)
      then store l (set_bands (<[i := b]> (bands im)) im)
      else raise (Exn ValueError "images do not match")
  | _, _ => raise (Exn ValueError "illegal image mode")
  end.

(** [dest.paste(src, box, mask=mask)]: overwrites [dest] in place; [src]
    and [mask] are only read. *)
Definition paste (dest src : loc) (box : Z * Z) (mask : option loc) : M unit :=
  d <- deref dest ;;
  s <- deref src ;;
  m <- match mask with
       | Some ml => (mi <- deref ml ;; ret (Some mi))
       | None => ret None
       end ;;
  match paste_bands d s box m with
  | Some bs => store dest (set_bands bs d)
  | None => raise (Exn ValueError "images do not match")
  end.

(** [im.save(path, quality=95)]: the target is opened for writing and the
    picture encoded into it.  The failures of the model are those of
    opening the target, which leave it as it was; the directory listings
    are those of the start of the run and are not brought up to date. *)
Definition save (l : loc) (path : string) : M unit :=
  im <- deref l ;;
  fun w => match write_errors w !! path with
           | Some e => (Raise e, w)
           | None => (Ok tt, set_files (<[path := Picture im]> (files w)) w)
           end.

(** ** [PIL.ImageEnhance]

    [Brightness(im).enhance(factor)] is [Image.blend(black, im, factor)]
    with [black] an image of zeros.  [ImagingBlend] receives the factor as
    a C [float], [alpha]; it returns a copy of the first image for
    [alpha == 0.0] and of the second for [alpha == 1.0], and otherwise
    computes each sample as [in1 + alpha * (in2 - in1)] in [float],
    converted to an 8-bit integer: directly when [0 <= alpha <= 1], after
    clipping to 0..255 otherwise. *)

Definition zero32 : float := S754_zero false.
Definition one32 : float := float32_of_int 1.

(** [temp <= 0.0 ? 0 : temp >= 255.0 ? 255 : (UINT8)temp] *)
Definition clip8 (temp : float) : Z :=
  if SFleb temp zero32 then 0
  else if SFleb (float32_of_int 255) temp then 255
  else trunc temp.

Definition blend_sample (factor : float) (in1 in2 : Z) : Z :=
  let alpha := to_float32 factor in
  let temp := SFadd prec32 emax32 (float32_of_int in1)
                (SFmul prec32 emax32 alpha (float32_of_int (in2 - in1))) in
  if SFeqb alpha zero32 then in1
  else if SFeqb alpha one32 then in2
  else if SFleb zero32 alpha && SFleb alpha one32
  then trunc temp else clip8 temp.

Definition Brightness_enhance (l : loc) (factor : float) : M loc :=
  im <- deref l ;;
  alloc (set_bands (map (map (blend_sample factor 0)) (bands im)) im).

(** ** [PIL.ImageFont] and [PIL.ImageDraw] *)

Definition ImageFont_truetype (name : string) (pt : Z) : M font :=
  fun w => if bool_decide (name ∈ fonts w)
           then (Ok (TrueType name pt), w)
           else (Raise (Exn OSError "cannot open resource"), w).

Definition ImageFont_load_default : M font := ret DefaultFont.

(** [ImageDraw.Draw(im).text(xy, text, font=font, fill=fill)]: draws on
    [im] in place. *)
Definition draw_text (l : loc) (xy : Z * Z) (text : string) (f : font)
    (fill : list Z) : M unit :=
  im <- deref l ;;
  store l (set_bands (rasterize im xy text f fill) im).

(** ** [os.listdir] *)

Definition os_listdir (d : string) : M (list string) :=
  fun w => match dirs w !! d with
           | Some names => (Ok names, w)
           | None =>
               (Raise (Exn FileNotFoundError
                         (String.append "No such file or directory: " d)), w)
           end.

End Library.
End PIL.

(* ===================================================================== *)
(** * [ImageWatermarker] *)
(* ===================================================================== *)

Module Watermarker.
Import Py PIL.
Local Open Scope py_scope.

(** The attributes [__init__] sets.  [watermark_img] is a reference: every
    call of [process_image] receives the same template object. *)
Record ImageWatermarker : Type := {
  input_dir : string;
  output_dir : string;
  logo_path : option string;
  watermark_text : string;
  watermark_img : loc
}.

Section Methods.
Context `{Kernels}.

Definition _load_watermark (logo_path : option string)
    (watermark_text : string) : M loc :=
  opened <- try_except
    (if truthy logo_path then
       watermark <- Image_open (default "" logo_path) ;;
       wm <- deref watermark ;;
       logging INFO
         (String.append "Watermark loaded: "
            (String.append (repr_size (size wm))
               (String.append ", " (mode wm)))) ;;
       ret (Some watermark)
     else ret None)
    [FileNotFoundError; AttributeError]
    (fun _ =>
       logging WARNING "Logo not found. Using text watermark instead." ;;
       ret None) ;;
  match opened with
  | Some watermark => ret watermark
  | None =>
      (* Create text-based watermark *)
      watermark <- Image_new "RGBA" (150, 50) [255; 255; 255; 0] ;;
      font <- try_except (ImageFont_truetype "arial.ttf" 24) [OSError]
                (fun _ => ImageFont_load_default) ;;
      draw_text watermark (10, 10) watermark_text font [0; 0; 0; 128] ;;
      ret watermark
  end.

Definition resize_watermark (watermark base_image : loc) (scale : float)
  : M loc :=
  base <- deref base_image ;;
  wm <- deref watermark ;;
  scaled <- lift (int_mul_float (width base) scale) ;;
  new_width <- lift (int_of_float scaled) ;;
  ratio <- lift (int_truediv new_width (width wm)) ;;
  proportional <- lift (int_mul_float (height wm) ratio) ;;
  new_height <- lift (int_of_float proportional) ;;
  resize watermark (new_width, new_height) LANCZOS.

(** The [positions] dict of [calculate_position]. *)
Definition positions (image watermark : image) (padding : Z)
  : gmap string (Z * Z) :=
  <["center" :=
      ((width image - width watermark) `div` 2,
       (height image - height watermark) `div` 2)]>
  (<["bottom-right" :=
      (width image - width watermark - padding,
       height image - height watermark - padding)]>
  (<["bottom-left" :=
      (padding, height image - height watermark - padding)]>
  (<["top-right" := (width image - width watermark - padding, padding)]>
  (<["top-left" := (padding, padding)]> ∅)))).

(** [positions.get(position, positions['top-right'])].  The method only
    reads the two sizes, so it is stated on the images read. *)
Definition calculate_position (image watermark : image)
    (position : string) (padding : Z) : Z * Z :=
  let positions := positions image watermark padding in
  default (positions !!! "top-right") (positions !! position).

Definition add_watermark (image watermark : loc) (position : Z * Z)
    (transparency : Z) : M loc :=
  wm <- deref watermark ;;
  watermark <- (if negb (String.eqb (mode wm) "RGBA")
                then convert watermark "RGBA" else ret watermark) ;;
  (* Adjust transparency *)
  alpha <- split_at watermark 3 ;;
  factor <- lift (int_truediv transparency 255) ;;
  alpha <- Brightness_enhance alpha factor ;;
  putalpha watermark alpha ;;
  (* Create transparent overlay *)
  im <- deref image ;;
  transparent <- Image_new "RGBA" (size im) [0; 0; 0; 0] ;;
  paste transparent image (0, 0) None ;;
  paste transparent watermark position (Some watermark) ;;
  convert transparent "RGB".

Definition process_image (self : ImageWatermarker) (filename : string)
    (scale : float) (position : string) (transparency : Z)
  : M (option string) :=
  let img_path := os_path_join (input_dir self) filename in
  try_except
    (img <- Image_open img_path ;;
     im <- deref img ;;
     logging INFO
       (String.append "Processing "
          (String.append filename
             (String.append ": "
                (String.append (repr_size (size im))
                   (String.append ", " (mode im)))))) ;;
     img <- (if negb (String.eqb (mode im) "RGB")
             then convert img "RGB" else ret img) ;;
     scaled_watermark <- resize_watermark (watermark_img self) img scale ;;
     base <- deref img ;;
     wm <- deref scaled_watermark ;;
     let watermark_position := calculate_position base wm position 10 in
     watermarked_img <-
       add_watermark img scaled_watermark watermark_position transparency ;;
     let output_path := os_path_join (output_dir self) filename in
     save watermarked_img output_path ;;
     logging INFO (String.append "Successfully processed: " filename) ;;
     ret (Some output_path))
    [Exception]
    (fun e =>
       logging ERROR
         (String.append "Error processing "
            (String.append filename (String.append ": " (exn_msg e)))) ;;
       ret None).

Definition supported_formats : gset string :=
  {[ ".png"; ".jpg"; ".jpeg"; ".bmp"; ".webp" ]}.

(** [os.path.splitext(filename)[1].lower() in supported_formats] *)
Definition supported (filename : string) : bool :=
  bool_decide (lower (snd (os_path_splitext filename)) ∈ supported_formats).

(** The body of the [for] loop, from the entries still to visit and the
    two counters. *)
Fixpoint process_entries (self : ImageWatermarker) (scale : float)
    (position : string) (transparency : Z) (entries : list string)
    (successful failed : Z) : M (Z * Z) :=
  match entries with
  | [] => ret (successful, failed)
  | filename :: rest =>
      if supported filename then
        result <- process_image self filename scale position transparency ;;
        if truthy result
        then process_entries self scale position transparency rest
               (successful + 1) failed
        else process_entries self scale position transparency rest
               successful (failed + 1)
      else process_entries self scale position transparency rest
             successful failed
  end.

Definition process_directory (self : ImageWatermarker) (scale : float)
    (position : string) (transparency : Z) : M (Z * Z) :=
  entries <- os_listdir (input_dir self) ;;
  process_entries self scale position transparency entries 0 0.

End Methods.
End Watermarker.

(* ===================================================================== *)
(** * A small instance of the kernels

    Nearest-neighbour resampling, the L/RGB/RGBA conversions, a
    rasteriser that marks one sample per character, and a masked paste.
    It serves to run the methods on concrete worlds. *)
(* ===================================================================== *)

Module Toy.
Import Py PIL.

Definition sample (im : image) (b : band) (x y : Z) : Z :=
  nth (Z.to_nat (y * width im + x)) b 0.

(** The coordinates of a [w] by [h] raster, row by row. *)
Definition grid (w h : Z) : list (Z * Z) :=
  flat_map (fun y => map (fun x => (Z.of_nat x, Z.of_nat y))
                       (seq 0 (Z.to_nat w)))
           (seq 0 (Z.to_nat h)).

Definition nearest (_ : resampling) (im : image) (w h : Z) : list band :=
  map (fun b => map (fun xy => sample im b (fst xy * width im `div` w)
                                             (snd xy * height im `div` h))
                    (grid w h))
      (bands im).

Definition recolour (src dst : string) (bs : list band) : option (list band) :=
  if String.eqb src dst then Some bs
  else if String.eqb dst "RGBA" then
    match bs with
    | [l] => Some [l; l; l; map (fun _ => 255) l]
    | [r; g; b] => Some [r; g; b; map (fun _ => 255) r]
    | _ => None
    end
  else if String.eqb dst "RGB" then
    match bs with
    | [l] => Some [l; l; l]
    | [r; g; b; _] => Some [r; g; b]
    | _ => None
    end
  else None.

Definition dots (im : image) (xy : Z * Z) (text : string) (_ : font)
    (fill : list Z) : list band :=
  zip_with
    (fun b c =>
       fold_left
         (fun b' i => <[Z.to_nat (snd xy * width im + fst xy) + i := c]> b')%nat
         (seq 0 (String.length text)) b)
    (bands im) fill.

Definition overlay (d s : image) (box : Z * Z) (mask : option image)
  : option (list band) :=
  match recolour (mode s) (mode d) (bands s) with
  | None => None
  | Some sb =>
      Some (zip_with
              (fun db b =>
                 zip_with
                   (fun xy v =>
                      let x := fst xy - fst box in
                      let y := snd xy - snd box in
                      if (0 <=? x) && (x <? width s) && (0 <=? y) && (y <? height s)
                      then
                        let a := match mask with
                                 | Some m => sample m (List.last (bands m) []) x y
                                 | None => 255
                                 end in
                        (sample s b x y * a + v * (255 - a)) `div` 255
                      else v)
                   (grid (width d) (height d)) db)
              (bands d) sb)
  end.

#[export] Instance kernels : Kernels := {
  resample := nearest;
  convert_bands := recolour;
  rasterize := dots;
  paste_bands := overlay
}.

End Toy.

(* ===================================================================== *)
(** * Small worlds to run the methods in *)
(* ===================================================================== *)

Module Demo.
Import Py PIL Watermarker Toy.

(** A 2 x 1 RGBA logo with one opaque and one half-transparent pixel, and
    a 4 x 3 photograph, once in mode RGB and once in mode L. *)
Definition logo : image :=
  Image "RGBA" 2 1 [[10; 20]; [30; 40]; [50; 60]; [255; 100]].
Definition photo : image :=
  Image "RGB" 4 3 [replicate 12 200; replicate 12 150; replicate 12 100].
Definition grey : image := Image "L" 4 3 [replicate 12 90].

(** Two objects in the store: the logo at address 1, the photo at 2. *)
Definition studio : world :=
  World (<[2%positive := photo]> {[1%positive := logo]}) ∅ ∅ ∅ ∅ [].

(** A directory [in] with a readable picture, a text file, a picture that
    cannot be opened and a picture that cannot be written back; the logo
    template is the object at address 1. *)
Definition disk : world :=
  World {[1%positive := logo]}
    (<["in/a.png" := Picture grey]>
     (<["in/d.bmp" := Picture photo]>
     (<["in/notes.txt" := Unreadable (Exn UnidentifiedImageError
                                        "cannot identify image file")]>
     (<["in/c.JPG" := Unreadable (Exn UnidentifiedImageError
                                    "cannot identify image file")]> ∅))))
    {["out/d.bmp" := Exn PermissionError "Permission denied"]}
    ∅
    {["in" := ["a.png"; "notes.txt"; "c.JPG"; "d.bmp"]]}
    [].

Definition self : ImageWatermarker :=
  {| input_dir := "in"; output_dir := "out"; logo_path := None;
     watermark_text := "Watermark"; watermark_img := 1%positive |}.

(** The floats 0.5 and 0.1, as Python reads the literals. *)
Definition half : float := S754_finite false 4503599627370496 (-53).
Definition tenth : float := S754_finite false 7205759403792794 (-56).

End Demo.

(* ===================================================================== *)
(** * Placement: [calculate_position] *)
(* ===================================================================== *)

Module Placement.
Import Py PIL Watermarker.

(** The table of the specification, read with the integer division of
    the source language: [//] rounds toward minus infinity. *)
Definition table (quotient : Z -> Z -> Z) (image watermark : image)
    (position : string) (padding : Z) : Z * Z :=
  if String.eqb position "top-left" then (padding, padding)
  else if String.eqb position "bottom-left"
  then (padding, height image - height watermark - padding)
  else if String.eqb position "bottom-right"
  then (width image - width watermark - padding,
        height image - height watermark - padding)
  else if String.eqb position "center"
  then (quotient (width image - width watermark) 2,
        quotient (height image - height watermark) 2)
  else (width image - width watermark - padding, padding).

(** The table with floor division, and with the division truncating
    toward zero that the specification words ask for. *)
Definition table_floor := table Z.div.
Definition table_truncating := table Z.quot.

(** The watermark's bounding box, placed at [xy], lies in the image. *)
Definition inside (image watermark : image) (xy : Z * Z) : Prop :=
  0 <= fst xy /\ fst xy + width watermark <= width image /\
  0 <= snd xy /\ snd xy + height watermark <= height image.

(** The dict lookup, case by case. *)
Lemma calculate_position_unfold image watermark position padding :
  calculate_position image watermark position padding
  = table_floor image watermark position padding.
Proof.
  unfold calculate_position, positions, table_floor, table.
  destruct (String.eqb_spec position "top-left") as [->|H1]; [reflexivity|].
  destruct (String.eqb_spec position "bottom-left") as [->|H2]; [reflexivity|].
  destruct (String.eqb_spec position "bottom-right") as [->|H3]; [reflexivity|].
  destruct (String.eqb_spec position "center") as [->|H4]; [reflexivity|].
  destruct (decide (position = "top-right")) as [->|H5]; [reflexivity|].
  rewrite !lookup_insert_ne by congruence. reflexivity.
Qed.

(** C7 (as amended).  [calculate_position] returns exactly the table
    values: top-left (p, p); top-right (W - w - p, p); bottom-left
    (p, H - h - p); bottom-right (W - w - p, H - h - p); center
    ((W - w) // 2, (H - h) // 2) where [//] is floor division; and the
    top-right value for every other mode string. *)
Theorem calculate_position_table image watermark padding :
  calculate_position image watermark "top-left" padding = (padding, padding)
  /\ calculate_position image watermark "top-right" padding
     = (width image - width watermark - padding, padding)
  /\ calculate_position image watermark "bottom-left" padding
     = (padding, height image - height watermark - padding)
  /\ calculate_position image watermark "bottom-right" padding
     = (width image - width watermark - padding,
        height image - height watermark - padding)
  /\ calculate_position image watermark "center" padding
     = ((width image - width watermark) `div` 2,
        (height image - height watermark) `div` 2)
  /\ forall position,
       position ∉ ["top-left"; "top-right"; "bottom-left"; "bottom-right";
                   "center"] ->
       calculate_position image watermark position padding
       = (width image - width watermark - padding, padding).
Proof.
  repeat split; try reflexivity.
  intros position Hnot. rewrite calculate_position_unfold.
  unfold table_floor, table.
  destruct (String.eqb_spec position "top-left") as [->|H1];
    [exfalso; apply Hnot; set_solver|].
  destruct (String.eqb_spec position "bottom-left") as [->|H2];
    [exfalso; apply Hnot; set_solver|].
  destruct (String.eqb_spec position "bottom-right") as [->|H3];
    [exfalso; apply Hnot; set_solver|].
  destruct (String.eqb_spec position "center") as [->|H4];
    [exfalso; apply Hnot; set_solver|].
  reflexivity.
Qed.

Lemma calculate_position_table_witness :
  ("nowhere" ∉ ["top-left"; "top-right"; "bottom-left"; "bottom-right";
                "center"])
  /\ calculate_position (Image "RGB" 1000 800 []) (Image "RGBA" 100 33 [])
       "nowhere" 10 = (890, 10).
Proof.
  assert (Hnot : "nowhere" ∉ ["top-left"; "top-right"; "bottom-left";
                               "bottom-right"; "center"])
    by (rewrite !not_elem_of_cons; repeat split; try discriminate;
        apply not_elem_of_nil).
  split; [exact Hnot|].
  exact (proj2 (proj2 (proj2 (proj2 (proj2
           (calculate_position_table (Image "RGB" 1000 800 [])
              (Image "RGBA" 100 33 []) 10))))) "nowhere" Hnot).
Defined.

(** C7 as stated fails: with a watermark wider than the image by an odd
    number of pixels (base 10 x 10, watermark 13 x 13) the centre offset
    is -2, where truncation toward zero gives -1. *)
Lemma calculate_position_center_not_truncating :
  calculate_position (Image "RGB" 10 10 []) (Image "RGBA" 13 13 []) "center" 10
    = (-2, -2)
  /\ table_truncating (Image "RGB" 10 10 []) (Image "RGBA" 13 13 []) "center" 10
    = (-1, -1).
Proof. split; reflexivity. Qed.

(** Where the watermark fits in the image the two divisions agree. *)
Lemma table_floor_truncating image watermark position padding :
  width watermark <= width image -> height watermark <= height image ->
  table_floor image watermark position padding
  = table_truncating image watermark position padding.
Proof.
  intros Hw Hh. unfold table_floor, table_truncating, table.
  repeat destruct (String.eqb _ _); try reflexivity.
  rewrite !Z.quot_div_nonneg by lia. reflexivity.
Qed.

Lemma half_bounds a : 0 <= a -> 0 <= a `div` 2 <= a.
Proof.
  intros Ha. split; [apply Z.div_pos; lia|].
  apply Z.div_le_upper_bound; lia.
Qed.

(** C2 (as amended).  For a padding [0 <= p] with [w + 2p <= W] and
    [h + 2p <= H], the offset computed for any mode string (the five
    modes and the fallback) keeps the watermark's bounding box inside the
    image: [0 <= x], [x + w <= W], [0 <= y], [y + h <= H]. *)
Theorem calculate_position_inside image watermark position padding :
  0 <= padding ->
  width watermark + 2 * padding <= width image ->
  height watermark + 2 * padding <= height image ->
  inside image watermark (calculate_position image watermark position padding).
Proof.
  intros Hp Hw Hh. rewrite calculate_position_unfold.
  unfold table_floor, table, inside.
  repeat destruct (String.eqb _ _); cbn [fst snd]; try lia.
  pose proof (half_bounds (width image - width watermark)).
  pose proof (half_bounds (height image - height watermark)).
  lia.
Qed.

Lemma calculate_position_inside_witness :
  (0 <= 10 /\ 100 + 2 * 10 <= 1000 /\ 33 + 2 * 10 <= 800)
  /\ inside (Image "RGB" 1000 800 []) (Image "RGBA" 100 33 [])
       (calculate_position (Image "RGB" 1000 800 []) (Image "RGBA" 100 33 [])
          "bottom-right" 10).
Proof.
  split; [lia|].
  apply (calculate_position_inside (Image "RGB" 1000 800 [])
           (Image "RGBA" 100 33 []) "bottom-right" 10); cbn; lia.
Defined.

(** C2 as stated fails: the two size conditions admit a negative
    padding, and then the corner offsets leave the image.  Base 100 x 100,
    watermark 10 x 10, padding -5: both conditions hold and top-left is
    (-5, -5). *)
Lemma calculate_position_negative_padding :
  10 + 2 * (-5) <= 100 /\ 10 + 2 * (-5) <= 100
  /\ calculate_position (Image "RGB" 100 100 []) (Image "RGBA" 10 10 [])
       "top-left" (-5) = (-5, -5)
  /\ ~ inside (Image "RGB" 100 100 []) (Image "RGBA" 10 10 [])
         (calculate_position (Image "RGB" 100 100 []) (Image "RGBA" 10 10 [])
            "top-left" (-5)).
Proof.
  split; [lia|]. split; [lia|]. split; [reflexivity|].
  unfold inside. rewrite calculate_position_unfold. cbn. lia.
Qed.

End Placement.

(* ===================================================================== *)
(** * Reasoning about statements *)
(* ===================================================================== *)

Module Logic.
Import Py PIL.
Local Open Scope py_scope.

(** [hoare P m Q E]: from a world satisfying [P], [m] either returns [a]
    in a world satisfying [Q a], or raises [e] in a world satisfying
    [E e]. *)
Definition hoare {A} (P : world -> Prop) (m : M A)
    (Q : A -> world -> Prop) (E : exn -> world -> Prop) : Prop :=
  forall w, P w ->
    match m w with
    | (Ok a, w') => Q a w'
    | (Raise e, w') => E e w'
    end.

Lemma hoare_ret {A} (a : A) (Q : A -> world -> Prop) E :
  hoare (Q a) (ret a) Q E.
Proof. intros w Hw. exact Hw. Qed.

Lemma hoare_raise {A} (e : exn) (Q : A -> world -> Prop) E :
  hoare (E e) (raise e) Q E.
Proof. intros w Hw. exact Hw. Qed.

Lemma hoare_lift {A} (o : outcome A) (P : world -> Prop) :
  hoare P (lift o) (fun _ => P) (fun _ => P).
Proof. intros w Hw. unfold lift. destruct o; exact Hw. Qed.

Lemma hoare_bind {A B} (m : M A) (k : A -> M B) P R Q E :
  hoare P m R E -> (forall a, hoare (R a) (k a) Q E) ->
  hoare P (bind m k) Q E.
Proof.
  intros Hm Hk w Hw. unfold bind. specialize (Hm w Hw).
  destruct (m w) as [[a|e] w1]; [apply Hk, Hm | exact Hm].
Qed.

Lemma hoare_consequence {A} (m : M A) (P P' : world -> Prop)
    (Q Q' : A -> world -> Prop) (E E' : exn -> world -> Prop) :
  hoare P' m Q' E' ->
  (forall w, P w -> P' w) ->
  (forall a w, Q' a w -> Q a w) ->
  (forall e w, E' e w -> E e w) ->
  hoare P m Q E.
Proof.
  intros Hm HP HQ HE w Hw. specialize (Hm w (HP w Hw)).
  destruct (m w) as [[a|e] w1]; auto.
Qed.

Lemma hoare_try_except {A} (body : M A) classes handler P Q E' E :
  hoare P body Q E' ->
  (forall e, caught_by classes e = true -> hoare (E' e) (handler e) Q E) ->
  (forall e w, caught_by classes e = false -> E' e w -> E e w) ->
  hoare P (try_except body classes handler) Q E.
Proof.
  intros Hb Hh Hu w Hw. unfold try_except. specialize (Hb w Hw).
  destruct (body w) as [[a|e] w1]; [exact Hb|].
  destruct (caught_by classes e) eqn:Hc; [apply (Hh e Hc), Hb|].
  apply Hu; assumption.
Qed.

(** A statement that leaves the store alone keeps every property of the
    store. *)
Lemma hoare_heap_unchanged {A} (m : M A) (I : gmap loc image -> Prop) :
  (forall w, heap (m w).2 = heap w) ->
  hoare (fun w => I (heap w)) m (fun _ w => I (heap w)) (fun _ w => I (heap w)).
Proof.
  intros Hm w Hw. specialize (Hm w).
  destruct (m w) as [[a|e] w1]; cbn in Hm; rewrite Hm; exact Hw.
Qed.

End Logic.

(* ===================================================================== *)
(** * Which image objects a call can change *)
(* ===================================================================== *)

Module Frame.
Import Py PIL Watermarker Logic.
Local Open Scope py_scope.

(** [framed X w]: every object of [X] is in the store of [w], unchanged.
    A statement that keeps [framed X] modifies no object of [X]; it may
    allocate, and modify what lies outside [X]. *)
Definition framed (X : gmap loc image) (w : world) : Prop := X ⊆ heap w.

(** Postconditions: the result is an object outside [X]; any result. *)
Definition outside (X : gmap loc image) (l : loc) (w : world) : Prop :=
  framed X w /\ l ∉ dom X.
Definition anything {A} (X : gmap loc image) (_ : A) (w : world) : Prop :=
  framed X w.

Definition keeps `{Kernels} {A} (X : gmap loc image) (m : M A) : Prop :=
  hoare (framed X) m (anything X) (anything X).
Definition makes `{Kernels} (X : gmap loc image) (m : M loc) : Prop :=
  hoare (framed X) m (outside X) (anything X).

(** A sequence of calls of [process_image] on one watermarker, each with
    its file name, scale, position and transparency. *)
Definition call : Type := string * float * string * Z.

Fixpoint run_calls `{Kernels} (self : ImageWatermarker) (calls : list call)
    (w : world) : world :=
  match calls with
  | [] => w
  | (filename, scale, position, transparency) :: rest =>
      run_calls self rest
        (process_image self filename scale position transparency w).2
  end.

Section Primitives.
Context `{Kernels}.
Variable X : gmap loc image.

Lemma framed_insert_outside l im w :
  framed X w -> l ∉ dom X -> framed X (set_heap (<[l := im]> (heap w)) w).
Proof.
  unfold framed. intros HX Hl. cbn.
  apply map_subseteq_spec. intros i x Hi.
  rewrite lookup_insert_ne.
  - eapply lookup_weaken; eassumption.
  - intros ->. apply Hl. apply elem_of_dom. eauto.
Qed.

Lemma fresh_outside w : framed X w -> fresh (dom (heap w)) ∉ dom X.
Proof.
  intros HX Hin. apply (is_fresh (dom (heap w))).
  apply subseteq_dom in HX. set_solver.
Qed.

Lemma keeps_quiet {A} (m : M A) :
  (forall w, heap (m w).2 = heap w) -> keeps X m.
Proof. intros Hm. apply (hoare_heap_unchanged m (fun h => X ⊆ h) Hm). Qed.

Lemma makes_keeps m : makes X m -> keeps X m.
Proof.
  intros Hm. eapply hoare_consequence; [exact Hm|auto..].
  intros a w [Hw _]. exact Hw.
Qed.

Lemma bind_keeps {A B} (m : M A) (k : A -> M B) Q :
  keeps X m ->
  (forall a, hoare (framed X) (k a) Q (anything X)) ->
  hoare (framed X) (bind m k) Q (anything X).
Proof. intros Hm Hk. eapply hoare_bind; [exact Hm|exact Hk]. Qed.

Lemma bind_makes {B} (m : M loc) (k : loc -> M B) Q :
  makes X m ->
  (forall l, l ∉ dom X -> hoare (framed X) (k l) Q (anything X)) ->
  hoare (framed X) (bind m k) Q (anything X).
Proof.
  intros Hm Hk. eapply hoare_bind; [exact Hm|].
  intros l w [Hw Hl]. apply (Hk l Hl w Hw).
Qed.

Lemma try_except_frames {A} (body : M A) classes handler Q :
  hoare (framed X) body Q (anything X) ->
  (forall e, hoare (framed X) (handler e) Q (anything X)) ->
  hoare (framed X) (try_except body classes handler) Q (anything X).
Proof.
  intros Hb Hh. eapply hoare_try_except; [exact Hb| |auto].
  intros e _. apply Hh.
Qed.

Lemma ret_keeps {A} (a : A) : keeps X (ret a).
Proof. apply keeps_quiet. reflexivity. Qed.

Lemma ret_makes l : l ∉ dom X -> makes X (ret l).
Proof. intros Hl w Hw. split; assumption. Qed.

Lemma raise_frames {A} e Q : hoare (framed X) (@raise A e) Q (anything X).
Proof. intros w Hw. exact Hw. Qed.

Lemma lift_keeps {A} (o : outcome A) : keeps X (lift o).
Proof. apply keeps_quiet. reflexivity. Qed.

Lemma logging_keeps lv msg : keeps X (logging lv msg).
Proof. apply keeps_quiet. reflexivity. Qed.

Lemma alloc_makes im : makes X (alloc im).
Proof.
  intros w Hw. unfold alloc. split.
  - apply framed_insert_outside; [exact Hw | apply fresh_outside, Hw].
  - apply fresh_outside, Hw.
Qed.

Lemma deref_keeps l : keeps X (deref l).
Proof.
  apply keeps_quiet. intros w. unfold deref.
  destruct (heap w !! l); reflexivity.
Qed.

(** Reading an object of [X] yields the image [X] records. *)
Lemma deref_known l :
  hoare (framed X) (deref l)
    (fun im w => framed X w /\ forall x, X !! l = Some x -> im = x)
    (anything X).
Proof.
  intros w Hw. unfold deref. destruct (heap w !! l) as [im|] eqn:Hl.
  - split; [exact Hw|]. intros x Hx.
    pose proof (lookup_weaken _ _ _ _ Hx Hw) as Hl'. congruence.
  - exact Hw.
Qed.

Lemma store_keeps l im : l ∉ dom X -> keeps X (store l im).
Proof. intros Hl w Hw. apply framed_insert_outside; assumption. Qed.

Lemma Image_open_makes path : makes X (Image_open path).
Proof.
  intros w Hw. unfold Image_open.
  destruct (files w !! path) as [[im|e]|]; [|exact Hw..].
  apply (alloc_makes im w Hw).
Qed.

Lemma Image_new_makes md sz color : makes X (Image_new md sz color).
Proof.
  unfold Image_new. destruct (_ || _); [apply raise_frames|apply alloc_makes].
Qed.

Lemma convert_makes l md : makes X (convert l md).
Proof.
  unfold convert. apply bind_keeps; [apply deref_keeps|]. intros im.
  destruct (convert_bands _ _ _); [apply alloc_makes|apply raise_frames].
Qed.

Lemma resize_makes l sz filter : makes X (resize l sz filter).
Proof.
  unfold resize. apply bind_keeps; [apply deref_keeps|]. intros im.
  destruct (_ && _); [apply alloc_makes|].
  destruct (negb _); [apply raise_frames|].
  destruct (_ || _); [apply raise_frames|apply alloc_makes].
Qed.

Lemma split_at_makes l i : makes X (split_at l i).
Proof.
  unfold split_at. apply bind_keeps; [apply deref_keeps|]. intros im.
  destruct (_ !! _); [apply alloc_makes|apply raise_frames].
Qed.

Lemma Brightness_enhance_makes l factor : makes X (Brightness_enhance l factor).
Proof.
  unfold Brightness_enhance. apply bind_keeps; [apply deref_keeps|].
  intros im. apply alloc_makes.
Qed.

Lemma putalpha_keeps l alpha : l ∉ dom X -> keeps X (putalpha l alpha).
Proof.
  intros Hl. unfold putalpha.
  apply bind_keeps; [apply deref_keeps|]. intros im.
  apply bind_keeps; [apply deref_keeps|]. intros a.
  destruct (alpha_index _); [|apply raise_frames].
  destruct (bands a) as [|b [|]]; try apply raise_frames.
  destruct (bool_decide _); [apply store_keeps, Hl|apply raise_frames].
Qed.

Lemma paste_keeps dest src box mask : dest ∉ dom X -> keeps X (paste dest src box mask).
Proof.
  intros Hl. unfold paste.
  apply bind_keeps; [apply deref_keeps|]. intros d.
  apply bind_keeps; [apply deref_keeps|]. intros s.
  apply bind_keeps.
  { destruct mask; [|apply ret_keeps].
    apply bind_keeps; [apply deref_keeps|]. intros mi. apply ret_keeps. }
  intros m. destruct (paste_bands _ _ _ _); [apply store_keeps, Hl|apply raise_frames].
Qed.

Lemma draw_text_keeps l xy text f fill : l ∉ dom X -> keeps X (draw_text l xy text f fill).
Proof.
  intros Hl. unfold draw_text.
  apply bind_keeps; [apply deref_keeps|]. intros im. apply store_keeps, Hl.
Qed.

Lemma save_keeps l path : keeps X (save l path).
Proof.
  unfold save. apply bind_keeps; [apply deref_keeps|]. intros im.
  apply keeps_quiet. intros w. destruct (write_errors w !! path); reflexivity.
Qed.

Lemma ImageFont_truetype_keeps name pt : keeps X (ImageFont_truetype name pt).
Proof.
  apply keeps_quiet. intros w. unfold ImageFont_truetype.
  destruct (bool_decide _); reflexivity.
Qed.

Lemma os_listdir_keeps d : keeps X (os_listdir d).
Proof.
  apply keeps_quiet. intros w. unfold os_listdir.
  destruct (dirs w !! d); reflexivity.
Qed.

Lemma bind_known {B} l (k : image -> M B) Q :
  (forall im, (forall x, X !! l = Some x -> im = x) ->
              hoare (framed X) (k im) Q (anything X)) ->
  hoare (framed X) (bind (deref l) k) Q (anything X).
Proof.
  intros Hk. eapply hoare_bind; [apply deref_known|].
  intros im w [Hw Hx]. apply (Hk im Hx w Hw).
Qed.

End Primitives.

(** Statements built from the primitives are handled by following their
    structure. *)
Ltac frames :=
  lazymatch goal with
  | |- keeps _ _ => unfold keeps; frames
  | |- makes _ _ => unfold makes; frames
  | |- hoare _ (bind _ _) _ _ =>
      first [ apply bind_makes; [solve [frames] | intros ? ?; frames]
            | apply bind_keeps; [solve [frames] | intros ?; frames] ]
  | |- hoare _ (try_except _ _ _) _ _ =>
      apply try_except_frames; [frames | intros ?; frames]
  | |- hoare _ (if ?b then _ else _) _ _ => destruct b; frames
  | |- hoare _ (match ?x with _ => _ end) _ _ => destruct x; frames
  | |- hoare _ (ret _) (outside _) _ => apply ret_makes; assumption
  | |- hoare _ (ret _) _ _ => apply ret_keeps
  | |- hoare _ (raise _) _ _ => apply raise_frames
  | |- hoare _ (lift _) _ _ => apply lift_keeps
  | |- hoare _ (logging _ _) _ _ => apply logging_keeps
  | |- hoare _ (alloc _) (outside _) _ => apply alloc_makes
  | |- hoare _ (alloc _) _ _ => apply makes_keeps, alloc_makes
  | |- hoare _ (deref _) _ _ => apply deref_keeps
  | |- hoare _ (store _ _) _ _ => apply store_keeps; assumption
  | |- hoare _ (Image_open _) (outside _) _ => apply Image_open_makes
  | |- hoare _ (Image_new _ _ _) (outside _) _ => apply Image_new_makes
  | |- hoare _ (convert _ _) (outside _) _ => apply convert_makes
  | |- hoare _ (resize _ _ _) (outside _) _ => apply resize_makes
  | |- hoare _ (split_at _ _) (outside _) _ => apply split_at_makes
  | |- hoare _ (Brightness_enhance _ _) (outside _) _ =>
      apply Brightness_enhance_makes
  | |- hoare _ (putalpha _ _) _ _ => apply putalpha_keeps; assumption
  | |- hoare _ (paste _ _ _ _) _ _ => apply paste_keeps; assumption
  | |- hoare _ (draw_text _ _ _ _ _) _ _ => apply draw_text_keeps; assumption
  | |- hoare _ (save _ _) _ _ => apply save_keeps
  | |- hoare _ (ImageFont_truetype _ _) _ _ => apply ImageFont_truetype_keeps
  | |- hoare _ ImageFont_load_default _ _ => apply ret_keeps
  | |- hoare _ (os_listdir _) _ _ => apply os_listdir_keeps
  | |- hoare _ _ (anything _) _ => apply makes_keeps; frames
  end.

Section Methods.
Context `{Kernels}.
Variable X : gmap loc image.

Lemma resize_watermark_makes watermark base_image scale :
  makes X (resize_watermark watermark base_image scale).
Proof. unfold resize_watermark. frames. Qed.

(** [add_watermark] changes no object of [X], provided the watermark
    argument is not an RGBA object of [X]. *)
Lemma add_watermark_makes image watermark position transparency :
  (forall wm, X !! watermark = Some wm -> mode wm <> "RGBA") ->
  makes X (add_watermark image watermark position transparency).
Proof.
  intros Hwm. unfold add_watermark, makes.
  apply bind_known. intros wm Hknown.
  apply bind_makes.
  { destruct (String.eqb_spec (mode wm) "RGBA") as [Hrgba|Hrgba]; cbn [negb].
    - apply ret_makes. intros [x Hx]%elem_of_dom.
      apply (Hwm x Hx). rewrite <- (Hknown x Hx). exact Hrgba.
    - apply convert_makes. }
  intros rgba Hrgba. frames.
Qed.

Lemma process_image_keeps self filename scale position transparency :
  keeps X (process_image self filename scale position transparency).
Proof.
  unfold process_image, keeps.
  apply try_except_frames; [|intros e; frames].
  apply bind_makes; [apply Image_open_makes|]. intros img Himg.
  apply bind_keeps; [apply deref_keeps|]. intros im.
  apply bind_keeps; [apply logging_keeps|]. intros _.
  apply bind_makes; [frames|]. intros rgb Hrgb.
  apply bind_makes; [apply resize_watermark_makes|]. intros scaled Hscaled.
  apply bind_keeps; [apply deref_keeps|]. intros base.
  apply bind_keeps; [apply deref_keeps|]. intros wm.
  apply bind_makes.
  { apply add_watermark_makes. intros x Hx. exfalso. apply Hscaled.
    apply elem_of_dom. eauto. }
  intros result Hresult. frames.
Qed.

Lemma run_calls_framed self calls w :
  framed X w -> framed X (run_calls self calls w).
Proof.
  revert w. induction calls as [|[[[filename scale] position] transparency] rest IH];
    intros w Hw; [exact Hw|].
  cbn [run_calls]. apply IH.
  pose proof (process_image_keeps self filename scale position transparency w Hw) as Hk.
  destruct (process_image _ _ _ _ _ w) as [[r|e] w1]; exact Hk.
Qed.

End Methods.
End Frame.

(* ===================================================================== *)
(** * What a successful call did *)
(* ===================================================================== *)

Module Run.
Import Py PIL Watermarker Logic.
Local Open Scope py_scope.

Section Inversion.
Context `{Kernels}.

Lemma bind_Ok {A B} (m : M A) (k : A -> M B) w b w' :
  bind m k w = (Ok b, w') ->
  exists a w1, m w = (Ok a, w1) /\ k a w1 = (Ok b, w').
Proof.
  unfold bind. destruct (m w) as [[a|e] w1]; [eauto|discriminate].
Qed.

Lemma ret_Ok {A} (a b : A) w w' : ret a w = (Ok b, w') -> b = a /\ w' = w.
Proof. unfold ret. intros [= <- <-]. auto. Qed.

Lemma lift_Ok {A} (o : outcome A) a w w' :
  lift o w = (Ok a, w') -> o = Ok a /\ w' = w.
Proof. unfold lift. intros [= -> <-]. auto. Qed.

Lemma raise_Ok {A} e (a : A) w w' : raise e w = (Ok a, w') -> False.
Proof. discriminate. Qed.

Lemma logging_Ok lv msg u w w' :
  logging lv msg w = (Ok u, w') -> w' = set_log (log w ++ [(lv, msg)]) w.
Proof. unfold logging. intros [= _ <-]. reflexivity. Qed.

Lemma alloc_Ok im l w w' :
  alloc im w = (Ok l, w') ->
  l = fresh (dom (heap w)) /\ w' = set_heap (<[l := im]> (heap w)) w.
Proof. unfold alloc. intros [= <- <-]. auto. Qed.

Lemma deref_Ok l im w w' :
  deref l w = (Ok im, w') -> heap w !! l = Some im /\ w' = w.
Proof.
  unfold deref. destruct (heap w !! l); [|discriminate].
  intros [= <- <-]. auto.
Qed.

Lemma store_Ok l im u w w' :
  store l im w = (Ok u, w') -> w' = set_heap (<[l := im]> (heap w)) w.
Proof. unfold store. intros [= _ <-]. reflexivity. Qed.

(** A newly allocated object: its address was free, and the store grew by
    exactly that object. *)
Definition allocated (im : image) (l : loc) (w w' : world) : Prop :=
  heap w !! l = None /\ w' = set_heap (<[l := im]> (heap w)) w.

Lemma alloc_allocated im l w w' :
  alloc im w = (Ok l, w') -> allocated im l w w'.
Proof.
  intros [-> ->]%alloc_Ok. split; [|reflexivity].
  apply not_elem_of_dom, is_fresh.
Qed.

Lemma allocated_lookup im l w w' :
  allocated im l w w' -> heap w' !! l = Some im.
Proof. intros [_ ->]. cbn. apply lookup_insert_eq. Qed.

Lemma allocated_other im l w w' l' x :
  allocated im l w w' -> heap w !! l' = Some x -> heap w' !! l' = Some x.
Proof.
  intros [Hl ->] Hx. cbn. rewrite lookup_insert_ne; [exact Hx|congruence].
Qed.

Lemma Image_open_Ok path l w w' :
  Image_open path w = (Ok l, w') ->
  exists im, files w !! path = Some (Picture im) /\ allocated im l w w'.
Proof.
  unfold Image_open. destruct (files w !! path) as [[im|e]|]; try discriminate.
  intros Ha. exists im. split; [reflexivity|]. apply alloc_allocated, Ha.
Qed.

Lemma Image_new_Ok md sz color l w w' :
  Image_new md sz color w = (Ok l, w') ->
  allocated (Image md sz.1 sz.2
               (map (fun c => replicate (Z.to_nat (sz.1 * sz.2)) c) color))
            l w w'.
Proof.
  unfold Image_new. destruct (_ || _); [discriminate|]. apply alloc_allocated.
Qed.

Lemma convert_Ok l md r w w' :
  convert l md w = (Ok r, w') ->
  exists im bs,
    heap w !! l = Some im /\
    convert_bands (mode im) md (bands im) = Some bs /\
    allocated (Image md (width im) (height im) bs) r w w'.
Proof.
  unfold convert. intros (im & w1 & [Him ->]%deref_Ok & Hk)%bind_Ok.
  destruct (convert_bands _ _ _) as [bs|] eqn:Hc; [|discriminate].
  exists im, bs. split; [assumption|]. split; [assumption|].
  apply alloc_allocated, Hk.
Qed.

(** The result of [resize]: a copy when the size asked for is the size
    the image has, a resampled image of a positive size otherwise. *)
Lemma resize_Ok l sz filter r w w' :
  resize l sz filter w = (Ok r, w') ->
  exists im resized,
    heap w !! l = Some im /\ allocated resized r w w' /\
    mode resized = mode im /\ size resized = sz /\
    0 <= sz.1 /\ 0 <= sz.2 /\
    (resized = im \/
     1 <= sz.1 /\ 1 <= sz.2 /\
     resized = Image (mode im) sz.1 sz.2 (resample filter im sz.1 sz.2)).
Proof.
  unfold resize. intros (im & w1 & [Him ->]%deref_Ok & Hk)%bind_Ok.
  destruct (bool_decide (size im = sz)) eqn:Hsame; cbn [andb] in Hk.
  - apply bool_decide_eq_true in Hsame.
    destruct (0 <=? sz.1) eqn:H1; cbn [andb] in Hk;
      [destruct (0 <=? sz.2) eqn:H2|]; cbn [andb] in Hk.
    + exists im, im. split; [assumption|].
      split; [apply alloc_allocated, Hk|]. split; [reflexivity|].
      split; [assumption|]. split; [lia|]. split; [lia|]. auto.
    + destruct (negb _); [discriminate|].
      destruct (sz.1 <? 1) eqn:H3; [discriminate|].
      destruct (sz.2 <? 1) eqn:H4; [discriminate|lia].
    + destruct (negb _); [discriminate|].
      destruct (sz.1 <? 1) eqn:H3; [discriminate|lia].
  - destruct (negb _); [discriminate|].
    destruct (sz.1 <? 1) eqn:H1; [discriminate|].
    destruct (sz.2 <? 1) eqn:H2; [discriminate|]. cbn in Hk.
    eexists im, _. split; [assumption|].
    split; [apply alloc_allocated, Hk|]. split; [reflexivity|].
    split; [destruct sz; reflexivity|]. split; [lia|]. split; [lia|].
    right. split; [lia|]. split; [lia|]. reflexivity.
Qed.

Lemma split_at_Ok l i r w w' :
  split_at l i w = (Ok r, w') ->
  exists im b,
    heap w !! l = Some im /\ bands im !! i = Some b /\
    allocated (Image "L" (width im) (height im) [b]) r w w'.
Proof.
  unfold split_at. intros (im & w1 & [Him ->]%deref_Ok & Hk)%bind_Ok.
  destruct (bands im !! i) as [b|] eqn:Hb; [|discriminate].
  exists im, b. split; [assumption|]. split; [assumption|].
  apply alloc_allocated, Hk.
Qed.

Lemma Brightness_enhance_Ok l factor r w w' :
  Brightness_enhance l factor w = (Ok r, w') ->
  exists im,
    heap w !! l = Some im /\
    allocated (set_bands (map (map (blend_sample factor 0)) (bands im)) im)
              r w w'.
Proof.
  unfold Brightness_enhance.
  intros (im & w1 & [Him ->]%deref_Ok & Hk)%bind_Ok.
  exists im. split; [assumption|]. apply alloc_allocated, Hk.
Qed.

Lemma putalpha_Ok l alpha u w w' :
  putalpha l alpha w = (Ok u, w') ->
  exists im a i b,
    heap w !! l = Some im /\ heap w !! alpha = Some a /\
    alpha_index (mode im) = Some i /\ bands a = [b] /\
    w' = set_heap (<[l := set_bands (<[i := b]> (bands im)) im]> (heap w)) w.
Proof.
  unfold putalpha. intros (im & w1 & [Him ->]%deref_Ok & Hk)%bind_Ok.
  apply bind_Ok in Hk as (a & w1 & [Ha ->]%deref_Ok & Hk).
  destruct (alpha_index (mode im)) as [i|] eqn:Hi; [|discriminate].
  destruct (bands a) as [|b [|]] eqn:Hb; try discriminate.
  destruct (bool_decide _); [|discriminate].
  apply store_Ok in Hk. exists im, a, i, b. auto.
Qed.

Lemma save_Ok l path u w w' :
  save l path w = (Ok u, w') ->
  exists im,
    heap w !! l = Some im /\
    w' = set_files (<[path := Picture im]> (files w)) w.
Proof.
  unfold save. intros (im & w1 & [Him ->]%deref_Ok & Hk)%bind_Ok.
  destruct (write_errors w !! path); [discriminate|].
  injection Hk as _ <-. eauto.
Qed.

Lemma try_except_Ok {A} (body : M A) classes handler a w w' :
  try_except body classes handler w = (Ok a, w') ->
  body w = (Ok a, w') \/
  exists e w1, body w = (Raise e, w1) /\ caught_by classes e = true /\
               handler e w1 = (Ok a, w').
Proof.
  unfold try_except. destruct (body w) as [[b|e] w1]; [auto|].
  destruct (caught_by classes e) eqn:Hc; [|discriminate].
  right. eauto.
Qed.

End Inversion.
End Run.

(* ===================================================================== *)
(** * Compositing: [add_watermark] *)
(* ===================================================================== *)

Module Compositing.
Import Py PIL Watermarker Logic Frame Run.
Local Open Scope py_scope.

Section Alpha.
Context `{Kernels}.

(** The RGBA object [add_watermark] works on: the watermark argument
    itself when its mode is RGBA, otherwise a converted copy at an address
    that was free. *)
Definition rgba_object (w : world) (watermark : loc) (wm : image)
    (target : loc) (rgba : image) : Prop :=
  if String.eqb (mode wm) "RGBA"
  then target = watermark /\ rgba = wm
  else heap w !! target = None /\
       exists bs, convert_bands (mode wm) "RGBA" (bands wm) = Some bs /\
                  rgba = Image "RGBA" (width wm) (height wm) bs.

(** The image left in the RGBA object: its alpha band, band 3, is the
    old alpha band with every sample scaled by [factor]. *)
Definition attenuated (factor : float) (alpha : band) (rgba : image) : image :=
  set_bands (<[3%nat := map (blend_sample factor 0) alpha]> (bands rgba)) rgba.

Lemma hoare_run {A} (P : world -> Prop) (m : M A) Q E w a w' :
  hoare P m Q E -> P w -> m w = (Ok a, w') -> Q a w'.
Proof. intros Hm HP Hrun. specialize (Hm w HP). rewrite Hrun in Hm. exact Hm. Qed.

Lemma add_watermark_alpha image watermark position transparency w r w' wm :
  heap w !! watermark = Some wm ->
  add_watermark image watermark position transparency w = (Ok r, w') ->
  exists target rgba alpha factor,
    rgba_object w watermark wm target rgba /\
    bands rgba !! 3%nat = Some alpha /\
    int_truediv transparency 255 = Ok factor /\
    heap w' !! target = Some (attenuated factor alpha rgba).
Proof.
  intros Hwm Hrun. unfold add_watermark in Hrun.
  apply bind_Ok in Hrun as (wm' & w1 & [Hwm' ->]%deref_Ok & Hrun).
  rewrite Hwm in Hwm'. injection Hwm' as <-.
  apply bind_Ok in Hrun as (target & w2 & Htarget & Hrun).
  assert (exists rgba, rgba_object w watermark wm target rgba /\
                       heap w2 !! target = Some rgba /\ mode rgba = "RGBA")
    as (rgba & Hobj & Hrgba & Hmode).
  { unfold rgba_object.
    destruct (String.eqb_spec (mode wm) "RGBA") as [Heq|Hne]; cbn [negb] in Htarget.
    - apply ret_Ok in Htarget as [-> ->]. exists wm. auto.
    - apply convert_Ok in Htarget as (im & bs & Him & Hbs & Halloc).
      rewrite Hwm in Him. injection Him as <-.
      exists (Image "RGBA" (width wm) (height wm) bs).
      split; [|split; [eapply allocated_lookup; eassumption|reflexivity]].
      split; [apply Halloc|]. eauto. }
  apply bind_Ok in Hrun as (a1 & w3 & Hsplit & Hrun).
  apply split_at_Ok in Hsplit as (im & alpha & Him & Halpha & Ha1).
  rewrite Hrgba in Him. injection Him as <-.
  apply bind_Ok in Hrun as (factor & w3' & [Hfactor ->]%lift_Ok & Hrun).
  apply bind_Ok in Hrun as (a2 & w4 & Henh & Hrun).
  apply Brightness_enhance_Ok in Henh as (im & Him & Ha2).
  rewrite (allocated_lookup _ _ _ _ Ha1) in Him. injection Him as <-.
  apply bind_Ok in Hrun as (u & w5 & Hput & Hrun).
  apply putalpha_Ok in Hput as (im & a & i & b & Him & Ha & Hi & Hb & ->).
  rewrite (allocated_other _ _ _ _ _ _ Ha2
             (allocated_other _ _ _ _ _ _ Ha1 Hrgba)) in Him.
  injection Him as <-.
  rewrite (allocated_lookup _ _ _ _ Ha2) in Ha. injection Ha as <-.
  unfold alpha_index in Hi. rewrite Hmode in Hi. cbn in Hi. injection Hi as <-.
  cbn in Hb. injection Hb as <-.
  exists target, rgba, alpha, factor.
  split; [exact Hobj|]. split; [exact Halpha|]. split; [exact Hfactor|].
  set (after := attenuated factor alpha rgba).
  match type of Hrun with
  | ?m ?w0 = _ =>
      assert (Hkeeps : keeps {[target := after]} m) by frames;
      pose proof (hoare_run _ _ _ _ _ _ _ Hkeeps
                    (proj2 (map_singleton_subseteq_l _ _ _)
                       (lookup_insert_eq _ _ _)) Hrun) as Hframed
  end.
  apply map_singleton_subseteq_l in Hframed. exact Hframed.
Qed.

(** The composite that [add_watermark] returns is a new RGB image. *)
Lemma add_watermark_result image watermark position transparency w r w' :
  add_watermark image watermark position transparency w = (Ok r, w') ->
  exists im, heap w' !! r = Some im /\ mode im = "RGB".
Proof.
  intros Hrun. unfold add_watermark in Hrun.
  do 10 (apply bind_Ok in Hrun as (? & ? & _ & Hrun)).
  apply convert_Ok in Hrun as (im & bs & _ & _ & Halloc).
  eexists. split; [eapply allocated_lookup; eassumption|reflexivity].
Qed.

End Alpha.
End Compositing.

Module Transparency.
Import Py PIL Watermarker Logic Frame Run Compositing.
Local Open Scope py_scope.

(** The alpha band of an RGBA image. *)
Definition alpha_band (im : image) : option band := bands im !! 3%nat.

(** The alpha sample [a] scaled by [transparency / 255]: the product
    [a * transparency / 255], cut down to an integer. *)
Definition scaled (transparency a : Z) : Z := (a * transparency) `div` 255.

(** What that scaling does to one 8-bit alpha sample [a]: the result
    stays in [0, a], does not exceed [transparency], is below
    [transparency] when [a] was not fully opaque, and is [a] itself at
    full transparency value 255. *)
Definition attenuation (transparency : Z) (a a' : Z) : Prop :=
  0 <= a' <= a /\ a' <= transparency /\
  (a < 255 -> 0 < transparency -> a' < transparency) /\
  (transparency = 255 -> a' = a).

Lemma scaled_attenuation transparency a :
  0 <= transparency <= 255 -> 0 <= a <= 255 ->
  attenuation transparency a (scaled transparency a).
Proof.
  intros Ht Ha. unfold attenuation, scaled.
  split; [split|split; [|split]].
  - apply Z.div_pos; nia.
  - apply Z.div_le_upper_bound; nia.
  - apply Z.div_le_upper_bound; nia.
  - intros Hlt Hpos. apply Z.div_lt_upper_bound; nia.
  - intros ->. apply Z.div_mul. lia.
Qed.

(** The sample [ImagingBlend] computes is that number exactly: the two
    roundings, of [transparency / 255] to a double and to a [float], and
    the rounding of the product never carry it across an integer. *)
Definition scales (transparency a : Z) : bool :=
  match int_truediv transparency 255 with
  | Ok factor => blend_sample factor 0 a =? scaled transparency a
  | Raise _ => false
  end.

(** All 256 x 256 cases, by evaluation. *)
Lemma scales_all :
  forallb (fun t => forallb (scales t) (seqZ 0 256)) (seqZ 0 256) = true.
Proof. vm_compute. reflexivity. Qed.

Lemma blend_sample_scales transparency a :
  0 <= transparency <= 255 -> 0 <= a <= 255 ->
  exists factor,
    int_truediv transparency 255 = Ok factor /\
    blend_sample factor 0 a = scaled transparency a.
Proof.
  intros Ht Ha.
  pose proof scales_all as Hall.
  rewrite forallb_forall in Hall.
  specialize (Hall transparency).
  rewrite <- list_elem_of_In, elem_of_seqZ in Hall.
  specialize (Hall ltac:(lia)).
  rewrite forallb_forall in Hall. specialize (Hall a).
  rewrite <- list_elem_of_In, elem_of_seqZ in Hall.
  specialize (Hall ltac:(lia)).
  unfold scales in Hall.
  destruct (int_truediv transparency 255) as [factor|]; [|discriminate].
  exists factor. split; [reflexivity|]. lia.
Qed.

Lemma blend_sample_attenuation transparency a :
  0 <= transparency <= 255 -> 0 <= a <= 255 ->
  exists factor,
    int_truediv transparency 255 = Ok factor /\
    attenuation transparency a (blend_sample factor 0 a).
Proof.
  intros Ht Ha.
  destruct (blend_sample_scales transparency a Ht Ha) as (factor & Hf & Hs).
  exists factor. split; [exact Hf|]. rewrite Hs.
  apply scaled_attenuation; assumption.
Qed.

Section Claims.
Context `{Kernels}.

(** C3.  For a transparency value [t] in 0..255, a successful
    [add_watermark] works on an RGBA object: the watermark argument itself
    if its mode is RGBA, else a converted copy.  Afterwards that object
    is as before except for its alpha band, band 3, in which each sample
    [a] is replaced by [blend_sample (t / 255) 0 a], the sample the
    brightness enhancement computes.  For an 8-bit sample that is
    [a * t / 255] cut down to an integer, the scaling of [a] by [t / 255]:
    it is not a flat overwrite by [t], the new value lies in [0, a], and
    is below [t] whenever [a < 255] and [0 < t]. *)
Theorem add_watermark_scales_alpha image watermark position transparency
    w r w' wm :
  0 <= transparency <= 255 ->
  heap w !! watermark = Some wm ->
  add_watermark image watermark position transparency w = (Ok r, w') ->
  exists target rgba alpha factor after,
    rgba_object w watermark wm target rgba /\
    int_truediv transparency 255 = Ok factor /\
    alpha_band rgba = Some alpha /\
    heap w' !! target = Some after /\
    after = attenuated factor alpha rgba /\
    alpha_band after = Some (map (blend_sample factor 0) alpha) /\
    (Forall (fun a => 0 <= a <= 255) alpha ->
     alpha_band after = Some (map (scaled transparency) alpha)) /\
    forall a, 0 <= a <= 255 ->
      blend_sample factor 0 a = scaled transparency a /\
      attenuation transparency a (blend_sample factor 0 a).
Proof.
  intros Ht Hwm Hrun.
  destruct (add_watermark_alpha _ _ _ _ _ _ _ _ Hwm Hrun)
    as (target & rgba & alpha & factor & Hobj & Halpha & Hfactor & Hafter).
  assert (Hsample : forall a, 0 <= a <= 255 ->
            blend_sample factor 0 a = scaled transparency a).
  { intros a Ha.
    destruct (blend_sample_scales transparency a Ht Ha) as (factor' & Hf' & Hs).
    rewrite Hfactor in Hf'. injection Hf' as <-. exact Hs. }
  assert (Hband : alpha_band (attenuated factor alpha rgba)
                  = Some (map (blend_sample factor 0) alpha)).
  { unfold alpha_band, attenuated. cbn.
    apply list_lookup_insert_eq. eapply lookup_lt_Some, Halpha. }
  exists target, rgba, alpha, factor, (attenuated factor alpha rgba).
  repeat (split; [assumption|]). split; [reflexivity|].
  split; [exact Hband|]. split.
  - intros Hbytes. rewrite Hband. f_equal.
    apply map_ext_in. intros a Ha. apply Hsample.
    rewrite Forall_forall in Hbytes. apply Hbytes.
    apply list_elem_of_In, Ha.
  - intros a Ha. split; [apply Hsample, Ha|].
    rewrite (Hsample a Ha). apply scaled_attenuation; assumption.
Qed.

End Claims.

Import Toy Demo.

Lemma add_watermark_scales_alpha_witness :
  exists target rgba alpha factor after,
    rgba_object studio 1%positive logo target rgba /\
    int_truediv 128 255 = Ok factor /\
    alpha_band rgba = Some alpha /\
    heap (add_watermark 2%positive 1%positive (0, 0) 128 studio).2 !! target
      = Some after /\
    after = attenuated factor alpha rgba /\
    alpha_band after = Some (map (blend_sample factor 0) alpha) /\
    (Forall (fun a => 0 <= a <= 255) alpha ->
     alpha_band after = Some (map (scaled 128) alpha)) /\
    forall a, 0 <= a <= 255 ->
      blend_sample factor 0 a = scaled 128 a /\
      attenuation 128 a (blend_sample factor 0 a).
Proof.
  apply (add_watermark_scales_alpha 2%positive 1%positive (0, 0) 128 studio
           6%positive
           (add_watermark 2%positive 1%positive (0, 0) 128 studio).2 logo).
  - lia.
  - reflexivity.
  - vm_compute. reflexivity.
Defined.

(** On the logo of [Demo], whose alpha samples are 255 and 100, the call
    with transparency 128 leaves 128 and 50 in the same object; with
    transparency 147 a sample 85 becomes 49, which is 85 * 147 / 255
    exactly; and with a transparency of 300, above the range, an opaque
    sample stays at 255. *)
Example add_watermark_alpha_of_logo :
  alpha_band logo = Some [255; 100] /\
  (alpha_band <$>
     heap (add_watermark 2%positive 1%positive (0, 0) 128 studio).2 !! 1%positive)
  = Some (Some [128; 50])
  /\ match int_truediv 147 255 with
     | Ok factor => blend_sample factor 0 85 = 49
     | Raise _ => False
     end
  /\ (alpha_band <$>
       heap (add_watermark 2%positive 1%positive (0, 0) 300 studio).2
         !! 1%positive)
     = Some (Some [255; 117]).
Proof. repeat split; vm_compute; reflexivity. Qed.

End Transparency.

(* ===================================================================== *)
(** * The shared template and the arguments of [add_watermark] *)
(* ===================================================================== *)

Module Sharing.
Import Py PIL Watermarker Logic Frame Run Compositing.
Local Open Scope py_scope.

Section Claims.
Context `{Kernels}.

(** No call of [process_image] changes an object that existed before it,
    whether the call succeeds or fails. *)
Lemma process_image_extends self filename scale position transparency w :
  heap w ⊆ heap (process_image self filename scale position transparency w).2.
Proof.
  pose proof (process_image_keeps (heap w) self filename scale position
                transparency w (reflexivity _)) as Hk.
  destruct (process_image _ _ _ _ _ w) as [[r|e] w1]; exact Hk.
Qed.

(** The scaled watermark a call works on is a new object. *)
Lemma resize_watermark_fresh watermark base_image scale w r w' :
  resize_watermark watermark base_image scale w = (Ok r, w') ->
  heap w !! r = None /\ heap w ⊆ heap w'.
Proof.
  intros Hrun.
  pose proof (hoare_run _ _ _ _ _ _ _
                (resize_watermark_makes (heap w) watermark base_image scale)
                (reflexivity _) Hrun) as [Hframed Hout].
  split; [apply not_elem_of_dom, Hout|exact Hframed].
Qed.

(** C9.  Over any sequence of [process_image] calls on a watermarker, with
    any file names and parameters and whether the calls succeed or fail,
    the template object [self.watermark_img] holds the same image (mode,
    size and every band) afterwards as before. *)
Theorem template_never_mutated self calls w template :
  heap w !! watermark_img self = Some template ->
  heap (run_calls self calls w) !! watermark_img self = Some template.
Proof.
  intros Hlive.
  apply map_singleton_subseteq_l.
  apply run_calls_framed.
  apply map_singleton_subseteq_l. exact Hlive.
Qed.

(** C10 (as amended).  [add_watermark] leaves the base-image argument as
    it was, whatever the outcome, unless that argument is the very object
    passed as watermark and is in mode RGBA; the composite it returns is
    an object that did not exist before.  When the watermark argument is
    in mode RGBA, a successful call has overwritten the alpha band of
    that same object: each sample [a] of the band is replaced by the
    sample [blend_sample (transparency / 255) 0 a] of the brightness
    enhancement, the other bands are as before. *)
Theorem add_watermark_effects image watermark position transparency w :
  (forall base,
     heap w !! image = Some base ->
     image <> watermark \/ mode base <> "RGBA" ->
     heap (add_watermark image watermark position transparency w).2 !! image
     = Some base)
  /\
  (forall wm r w',
     heap w !! watermark = Some wm ->
     mode wm = "RGBA" ->
     add_watermark image watermark position transparency w = (Ok r, w') ->
     exists alpha factor,
       bands wm !! 3%nat = Some alpha /\
       int_truediv transparency 255 = Ok factor /\
       heap w' !! watermark = Some (attenuated factor alpha wm))
  /\
  (forall r w',
     add_watermark image watermark position transparency w = (Ok r, w') ->
     heap w !! r = None /\
     exists composite, heap w' !! r = Some composite /\ mode composite = "RGB").
Proof.
  split; [|split].
  3:{ intros r w' Hrun.
      destruct (add_watermark_result _ _ _ _ _ _ _ Hrun)
        as (composite & Hres & Hrgb).
      split; [|eauto].
      destruct (heap w !! watermark) as [wm|] eqn:Hwm.
      2:{ unfold add_watermark, bind, deref in Hrun. rewrite Hwm in Hrun.
          discriminate. }
      set (X := delete watermark (heap w)).
      assert (Hmakes : makes X (add_watermark image watermark position
                                  transparency)).
      { apply add_watermark_makes. intros x Hx. unfold X in Hx.
        rewrite lookup_delete_eq in Hx. discriminate. }
      pose proof (hoare_run _ _ _ _ _ _ _ Hmakes (delete_subseteq _ _) Hrun)
        as [_ Hout].
      assert (Hne : r <> watermark).
      { intros ->.
        destruct (add_watermark_alpha _ _ _ _ _ _ _ _ Hwm Hrun)
          as (target & rgba & alpha & factor & Hobj & _ & _ & Hafter).
        unfold rgba_object in Hobj.
        destruct (String.eqb_spec (mode wm) "RGBA") as [Hmode|Hmode].
        - destruct Hobj as [-> ->]. rewrite Hres in Hafter.
          injection Hafter as ->. cbn in Hrgb. congruence.
        - assert (Hm : makes (heap w) (add_watermark image watermark position
                                         transparency)).
          { apply add_watermark_makes. intros x Hx.
            rewrite Hwm in Hx. injection Hx as <-. exact Hmode. }
          pose proof (hoare_run _ _ _ _ _ _ _ Hm (reflexivity _) Hrun)
            as [_ Hfresh].
          apply Hfresh, elem_of_dom. eauto. }
      apply not_elem_of_dom. intros Hin. apply Hout. unfold X.
      apply elem_of_dom. rewrite lookup_delete_ne by congruence.
      apply elem_of_dom, Hin. }
  - intros base Hbase Hdistinct.
    assert (Hmakes : makes {[image := base]}
                       (add_watermark image watermark position transparency)).
    { apply add_watermark_makes. intros wm Hwm.
      apply lookup_singleton_Some in Hwm as [<- <-].
      destruct Hdistinct as [Hne|Hmode]; [congruence|exact Hmode]. }
    specialize (Hmakes w (proj2 (map_singleton_subseteq_l _ _ _) Hbase)).
    apply map_singleton_subseteq_l.
    destruct (add_watermark _ _ _ _ w) as [[r|e] w1]; [apply Hmakes|exact Hmakes].
  - intros wm r w' Hwm Hmode Hrun.
    destruct (add_watermark_alpha _ _ _ _ _ _ _ _ Hwm Hrun)
      as (target & rgba & alpha & factor & Hobj & Halpha & Hfactor & Hafter).
    unfold rgba_object in Hobj. rewrite Hmode in Hobj. cbn in Hobj.
    destruct Hobj as [-> ->]. eauto.
Qed.

End Claims.

Import Toy Demo.

Lemma template_never_mutated_witness :
  heap disk !! watermark_img self = Some logo
  /\ heap (run_calls self
             [("a.png", half, "top-left", 128); ("c.JPG", half, "center", 60);
              ("d.bmp", tenth, "nowhere", 255); ("a.png", half, "center", 0)]
             disk) !! watermark_img self = Some logo.
Proof.
  split; [reflexivity|].
  apply (template_never_mutated self _ disk logo). reflexivity.
Defined.

Lemma add_watermark_effects_witness :
  heap studio !! 2%positive = Some photo
  /\ heap (add_watermark 2%positive 1%positive (0, 0) 128 studio).2 !! 2%positive
     = Some photo.
Proof.
  split; [reflexivity|].
  apply (proj1 (add_watermark_effects 2%positive 1%positive (0, 0) 128 studio)
           photo); [reflexivity|].
  left. discriminate.
Defined.

(** C10 as stated fails when one RGBA object is passed both as base image
    and as watermark: the call scales the alpha band of that object, so
    the base-image argument is modified.  Here the logo's alpha band
    goes from [255; 100] to [128; 50]. *)
Lemma add_watermark_modifies_aliased_base :
  heap studio !! 1%positive = Some logo
  /\ heap (add_watermark 1%positive 1%positive (0, 0) 128 studio).2 !! 1%positive
     = Some (Image "RGBA" 2 1 [[10; 20]; [30; 40]; [50; 60]; [128; 50]])
  /\ heap (add_watermark 1%positive 1%positive (0, 0) 128 studio).2 !! 1%positive
     <> Some logo.
Proof.
  split; [reflexivity|]. split; [vm_compute; reflexivity|].
  vm_compute. discriminate.
Qed.

End Sharing.

(* ===================================================================== *)
(** * One file: [process_image] *)
(* ===================================================================== *)

Module Processing.
Import Py PIL Watermarker Logic Frame Run Compositing.
Local Open Scope py_scope.

(** The message of the [logging.error] call in the handler. *)
Definition error_message (filename : string) (e : exn) : string :=
  String.append "Error processing "
    (String.append filename (String.append ": " (exn_msg e))).

Lemma caught_by_Exception e : caught_by [Exception] e = true.
Proof.
  unfold caught_by, issubclass. cbn.
  rewrite (bool_decide_eq_true_2 (Exception = Exception) eq_refl).
  rewrite !orb_true_r. reflexivity.
Qed.

Section Claims.
Context `{Kernels}.

Lemma resize_watermark_extends watermark base_image scale w r w' :
  resize_watermark watermark base_image scale w = (Ok r, w') ->
  heap w ⊆ heap w'.
Proof.
  intros Hrun.
  apply (hoare_run _ _ _ _ _ _ _
           (resize_watermark_makes (heap w) watermark base_image scale)
           (reflexivity _) Hrun).
Qed.

(** The statements of [process_image] between [try:] and [except]. *)
Lemma process_image_unfold self filename scale position transparency w :
  exists body,
    process_image self filename scale position transparency w
    = try_except body [Exception]
        (fun e => bind (logging ERROR (error_message filename e))
                       (fun _ => ret None)) w
    /\ forall r w', body w = (Ok r, w') ->
         r = Some (os_path_join (output_dir self) filename).
Proof.
  eexists. split; [reflexivity|].
  intros r w' Hbody.
  do 10 (apply bind_Ok in Hbody as (? & ? & _ & Hbody); cbv beta zeta in Hbody).
  apply ret_Ok in Hbody as [-> _]. reflexivity.
Qed.

(** The statements of [process_image] between [try:] and [except]:
    opening, converting, resizing, compositing, saving. *)
Definition attempt (self : ImageWatermarker) (filename : string)
    (scale : float) (position : string) (transparency : Z)
  : M (option string) :=
  let img_path := os_path_join (input_dir self) filename in
  img <- Image_open img_path ;;
  im <- deref img ;;
  logging INFO
    (String.append "Processing "
       (String.append filename
          (String.append ": "
             (String.append (repr_size (size im))
                (String.append ", " (mode im)))))) ;;
  img <- (if negb (String.eqb (mode im) "RGB")
          then convert img "RGB" else ret img) ;;
  scaled_watermark <- resize_watermark (watermark_img self) img scale ;;
  base <- deref img ;;
  wm <- deref scaled_watermark ;;
  let watermark_position := calculate_position base wm position 10 in
  watermarked_img <-
    add_watermark img scaled_watermark watermark_position transparency ;;
  let output_path := os_path_join (output_dir self) filename in
  save watermarked_img output_path ;;
  logging INFO (String.append "Successfully processed: " filename) ;;
  ret (Some output_path).

Lemma attempt_Ok self filename scale position transparency w r w' :
  attempt self filename scale position transparency w = (Ok r, w') ->
  r = Some (os_path_join (output_dir self) filename).
Proof.
  intros Hbody. unfold attempt in Hbody. cbv zeta in Hbody.
  do 10 (apply bind_Ok in Hbody as (? & ? & _ & Hbody); cbv beta zeta in Hbody).
  apply ret_Ok in Hbody as [-> _]. reflexivity.
Qed.

(** C5.  [process_image] never raises, and its result is decided by what
    happens between [try:] and [except].  When those statements run to
    their end, the call returns the path
    [os.path.join(output_dir, filename)] in the world they left.  When
    one of them raises an exception, whatever its class and wherever it
    was raised (opening, converting, resizing, compositing or saving),
    the call returns [None], having added to the log, as its last
    record, the ERROR line that carries the file name and the message of
    that very exception, and having changed nothing else of the world in
    which it was raised. *)
Theorem process_image_never_raises self filename scale position transparency w :
  (exists r w',
     process_image self filename scale position transparency w = (Ok r, w'))
  /\ match attempt self filename scale position transparency w with
     | (Ok r, w1) =>
         r = Some (os_path_join (output_dir self) filename)
         /\ process_image self filename scale position transparency w
            = (Ok r, w1)
     | (Raise e, w1) =>
         process_image self filename scale position transparency w
         = (Ok None,
            set_log (log w1 ++ [(ERROR, error_message filename e)]) w1)
     end.
Proof.
  assert (Hboth :
    match attempt self filename scale position transparency w with
    | (Ok r, w1) =>
        r = Some (os_path_join (output_dir self) filename)
        /\ process_image self filename scale position transparency w
           = (Ok r, w1)
    | (Raise e, w1) =>
        process_image self filename scale position transparency w
        = (Ok None,
           set_log (log w1 ++ [(ERROR, error_message filename e)]) w1)
    end).
  { change (process_image self filename scale position transparency w)
      with (try_except (attempt self filename scale position transparency)
              [Exception]
              (fun e => bind (logging ERROR (error_message filename e))
                             (fun _ => ret None)) w).
    unfold try_except.
    destruct (attempt self filename scale position transparency w)
      as [[r|e] w1] eqn:Hrun.
    - split; [apply (attempt_Ok _ _ _ _ _ _ _ _ Hrun)|reflexivity].
    - rewrite caught_by_Exception. reflexivity. }
  split; [|exact Hboth].
  destruct (attempt self filename scale position transparency w) as [[r|e] w1].
  - destruct Hboth as [_ ->]. eauto.
  - rewrite Hboth. eauto.
Qed.

(** The result of a call, for the callers that only count. *)
Lemma process_image_result self filename scale position transparency w :
  exists r w',
    process_image self filename scale position transparency w = (Ok r, w')
    /\ (r = None \/ r = Some (os_path_join (output_dir self) filename)).
Proof.
  destruct (process_image_unfold self filename scale position transparency w)
    as (body & -> & Hbody).
  unfold try_except.
  destruct (body w) as [[r|e] w1] eqn:Hrun.
  - exists r, w1. split; [reflexivity|]. right. apply (Hbody r w1 eq_refl).
  - rewrite caught_by_Exception. eexists None, _. split; [reflexivity|]. auto.
Qed.

(** The source image is normalised to mode RGB: an RGB image is used as
    it is, any other is replaced by a converted copy. *)
Lemma normalised_to_rgb img src w rgb w' :
  heap w !! img = Some src ->
  (if negb (String.eqb (mode src) "RGB") then convert img "RGB" else ret img) w
  = (Ok rgb, w') ->
  exists base,
    heap w' !! rgb = Some base /\ mode base = "RGB" /\ size base = size src /\
    (if String.eqb (mode src) "RGB" then base = src
     else convert_bands (mode src) "RGB" (bands src) = Some (bands base)) /\
    heap w ⊆ heap w'.
Proof.
  intros Hsrc Hrun.
  destruct (String.eqb_spec (mode src) "RGB") as [Hrgb|Hother]; cbn [negb] in Hrun.
  - apply ret_Ok in Hrun as [-> ->]. exists src. auto.
  - apply convert_Ok in Hrun as (im & bs & Him & Hbs & Halloc).
    rewrite Hsrc in Him. injection Him as <-.
    eexists. split; [eapply allocated_lookup; eassumption|].
    repeat split; [exact Hbs|].
    destruct Halloc as [Hfree ->]. cbn. apply insert_subseteq, Hfree.
Qed.

(** C6.  When [process_image] returns a path, the file at that path holds
    an image in mode RGB.  On the way, the image handed to [add_watermark]
    as base is in mode RGB: the source itself when it was RGB, otherwise
    its conversion to RGB; and what is saved is the result of
    [add_watermark], itself converted to RGB. *)
Theorem process_image_saves_rgb self filename scale position transparency
    w path w' :
  process_image self filename scale position transparency w
  = (Ok (Some path), w') ->
  exists src img base scaled offset w1 result_at w2 result,
    files w !! os_path_join (input_dir self) filename = Some (Picture src) /\
    heap w1 !! img = Some base /\ mode base = "RGB" /\
    (if String.eqb (mode src) "RGB" then base = src
     else convert_bands (mode src) "RGB" (bands src) = Some (bands base)) /\
    add_watermark img scaled offset transparency w1 = (Ok result_at, w2) /\
    heap w2 !! result_at = Some result /\ mode result = "RGB" /\
    files w' !! path = Some (Picture result).
Proof.
  intros Hrun. unfold process_image in Hrun.
  apply try_except_Ok in Hrun as [Hrun|(e & w1 & _ & _ & Hrun)].
  2:{ apply bind_Ok in Hrun as (? & ? & _ & Hrun).
      apply ret_Ok in Hrun as [[=] _]. }
  apply bind_Ok in Hrun as (img0 & w1 & Hopen & Hrun).
  apply Image_open_Ok in Hopen as (src & Hfile & Hsrc).
  apply bind_Ok in Hrun as (im & w1' & [Him ->]%deref_Ok & Hrun).
  rewrite (allocated_lookup _ _ _ _ Hsrc) in Him. injection Him as <-.
  apply bind_Ok in Hrun as (u & w2 & ->%logging_Ok & Hrun).
  apply bind_Ok in Hrun as (img & w3 & Hnorm & Hrun).
  apply normalised_to_rgb with (src := src) in Hnorm
      as (base & Hbase & Hmode & _ & Hconv & _);
    [|apply (allocated_lookup _ _ _ _ Hsrc)].
  apply bind_Ok in Hrun as (scaled & w4 & Hresize & Hrun).
  apply resize_watermark_extends in Hresize.
  apply bind_Ok in Hrun as (base' & w4' & [_ ->]%deref_Ok & Hrun).
  apply bind_Ok in Hrun as (wm & w4' & [_ ->]%deref_Ok & Hrun).
  cbv beta zeta in Hrun.
  apply bind_Ok in Hrun as (result_at & w5 & Hadd & Hrun).
  destruct (add_watermark_result _ _ _ _ _ _ _ Hadd) as (result & Hres & Hrgb).
  cbv beta zeta in Hrun.
  apply bind_Ok in Hrun as (u' & w6 & Hsave & Hrun).
  apply save_Ok in Hsave as (saved & Hsaved & ->).
  rewrite Hres in Hsaved. injection Hsaved as <-.
  apply bind_Ok in Hrun as (u'' & w7 & ->%logging_Ok & Hrun).
  apply ret_Ok in Hrun as [[= ->] ->].
  exists src, img, base, scaled, (calculate_position base' wm position 10), w4,
    result_at, w5, result.
  split; [exact Hfile|].
  split; [eapply lookup_weaken; eassumption|].
  split; [exact Hmode|]. split; [exact Hconv|].
  split; [exact Hadd|]. split; [exact Hres|]. split; [exact Hrgb|].
  cbn. apply lookup_insert_eq.
Qed.

End Claims.

Import Toy Demo.

Lemma process_image_saves_rgb_witness :
  exists src img base scaled offset w1 result_at w2 result,
    files disk !! os_path_join (input_dir self) "a.png" = Some (Picture src) /\
    heap w1 !! img = Some base /\ mode base = "RGB" /\
    (if String.eqb (mode src) "RGB" then base = src
     else convert_bands (mode src) "RGB" (bands src) = Some (bands base)) /\
    add_watermark img scaled offset 128 w1 = (Ok result_at, w2) /\
    heap w2 !! result_at = Some result /\ mode result = "RGB" /\
    files (process_image self "a.png" half "top-left" 128 disk).2 !! "out/a.png"
    = Some (Picture result).
Proof.
  apply (process_image_saves_rgb self "a.png" half "top-left" 128 disk
           "out/a.png" (process_image self "a.png" half "top-left" 128 disk).2).
  vm_compute. reflexivity.
Defined.

(** The four entries of the demo directory: a grey picture that is
    converted and saved, a text file that opens as no picture, a picture
    that cannot be identified, a picture that cannot be written. *)
Example process_image_on_disk :
  (process_image self "a.png" half "top-left" 128 disk).1 = Ok (Some "out/a.png")
  /\ (process_image self "notes.txt" half "top-left" 128 disk).1 = Ok None
  /\ (process_image self "c.JPG" half "top-left" 128 disk).1 = Ok None
  /\ (process_image self "d.bmp" half "top-left" 128 disk).1 = Ok None
  /\ log (process_image self "d.bmp" half "top-left" 128 disk).2
     = [(INFO, "Processing d.bmp: (4, 3), RGB");
        (ERROR, "Error processing d.bmp: Permission denied")].
Proof. repeat split; vm_compute; reflexivity. Qed.

End Processing.

(* ===================================================================== *)
(** * A directory: [process_directory] *)
(* ===================================================================== *)

Module Directory.
Import Py PIL Watermarker Logic Frame Run Processing.
Local Open Scope py_scope.

Definition is_path (r : option string) : bool :=
  match r with Some _ => true | None => false end.

(** How many calls returned a path, and how many returned [None]. *)
Definition successes (results : list (option string)) : Z :=
  Z.of_nat (length (List.filter is_path results)).
Definition failures (results : list (option string)) : Z :=
  Z.of_nat (length (List.filter (fun r => negb (is_path r)) results)).

Section Claims.
Context `{Kernels}.

(** [process_image] called once on each name of a list, in order, each
    call starting in the world the previous one left: the results and the
    final world.  (A raised exception would end the visit.) *)
Fixpoint visit (self : ImageWatermarker) (scale : float) (position : string)
    (transparency : Z) (names : list string) (w : world)
  : list (option string) * world :=
  match names with
  | [] => ([], w)
  | filename :: rest =>
      match process_image self filename scale position transparency w with
      | (Ok r, w1) =>
          let rs := visit self scale position transparency rest w1 in
          (r :: rs.1, rs.2)
      | (Raise _, w1) => ([], w1)
      end
  end.

Lemma os_path_join_nonempty a b : b <> "" -> os_path_join a b <> "".
Proof.
  intros Hb. unfold os_path_join.
  destruct (startswith b sep); [exact Hb|].
  destruct (_ || _); destruct a; cbn; try discriminate; exact Hb.
Qed.

Lemma supported_nonempty filename : supported filename = true -> filename <> "".
Proof. intros Hs ->. vm_compute in Hs. discriminate. Qed.

(** For a supported file name, the truth value the loop tests is whether
    the call returned a path. *)
Lemma truthy_result self filename scale position transparency w :
  supported filename = true ->
  exists r w',
    process_image self filename scale position transparency w = (Ok r, w')
    /\ truthy r = is_path r.
Proof.
  intros Hs.
  destruct (process_image_result self filename scale position transparency w)
    as (r & w' & Hrun & Hr).
  exists r, w'. split; [exact Hrun|]. destruct Hr as [->| ->].
  - reflexivity.
  - cbn. apply negb_true_iff, String.eqb_neq, os_path_join_nonempty.
    apply supported_nonempty, Hs.
Qed.

Lemma process_entries_visit self scale position transparency entries :
  forall successful failed w,
    let selected := List.filter supported entries in
    let results := visit self scale position transparency selected w in
    process_entries self scale position transparency entries successful failed w
    = (Ok (successful + successes results.1, failed + failures results.1),
       results.2)
    /\ length results.1 = length selected.
Proof.
  induction entries as [|filename rest IH]; intros successful failed w.
  - cbn. unfold successes, failures. cbn. rewrite !Z.add_0_r. auto.
  - cbn [process_entries List.filter].
    destruct (supported filename) eqn:Hs; [|apply IH].
    destruct (truthy_result self filename scale position transparency w Hs)
      as (r & w1 & Hrun & Htruthy).
    unfold bind at 1. cbn [visit]. rewrite Hrun, Htruthy.
    cbn zeta. cbn [fst snd length].
    destruct r as [path|]; cbn [is_path].
    + destruct (IH (successful + 1) failed w1) as [-> ->].
      split; [|reflexivity]. unfold successes, failures.
      cbn [List.filter is_path negb length]. do 3 f_equal. lia.
    + destruct (IH successful (failed + 1) w1) as [-> ->].
      split; [|reflexivity]. unfold successes, failures.
      cbn [List.filter is_path negb length]. do 3 f_equal. lia.
Qed.

(** C8.  Given the listing of the input directory, [process_directory]
    selects the entries whose extension, lower-cased, is one of .png,
    .jpg, .jpeg, .bmp, .webp; calls [process_image] exactly once on each
    selected entry, in listing order, each call continuing from the world
    left by the previous one and none of them cut short by a failure; and
    returns the number of calls that returned a path and the number that
    returned [None]. *)
Theorem process_directory_counts self scale position transparency w entries :
  dirs w !! input_dir self = Some entries ->
  let selected := List.filter supported entries in
  let results := visit self scale position transparency selected w in
  process_directory self scale position transparency w
  = (Ok (successes results.1, failures results.1), results.2)
  /\ length results.1 = length selected
  /\ successes results.1 + failures results.1 = Z.of_nat (length selected).
Proof.
  intros Hdir selected results.
  unfold process_directory, bind, os_listdir. rewrite Hdir.
  destruct (process_entries_visit self scale position transparency entries 0 0 w)
    as [Hrun Hlen].
  fold selected in Hrun, Hlen. fold results in Hrun, Hlen.
  rewrite Hrun, !Z.add_0_l. split; [reflexivity|]. split; [exact Hlen|].
  rewrite <- Hlen. unfold successes, failures.
  generalize results.1. intros rs.
  induction rs as [|[p|] rs IHrs]; cbn [List.filter is_path negb length] in *; lia.
Qed.

(** The selection, spelled out: the extension is what follows the last dot
    of the name, provided a character other than a dot precedes it. *)
Lemma supported_iff filename :
  supported filename = true <->
  lower (os_path_splitext filename).2 ∈ [".png"; ".jpg"; ".jpeg"; ".bmp"; ".webp"].
Proof.
  unfold supported, supported_formats.
  rewrite bool_decide_eq_true.
  rewrite !elem_of_union, !elem_of_singleton, !elem_of_cons, elem_of_nil.
  tauto.
Qed.

End Claims.

Import Toy Demo.

Lemma process_directory_counts_witness :
  dirs disk !! input_dir self = Some ["a.png"; "notes.txt"; "c.JPG"; "d.bmp"]
  /\ List.filter supported ["a.png"; "notes.txt"; "c.JPG"; "d.bmp"]
     = ["a.png"; "c.JPG"; "d.bmp"]
  /\ (visit self half "center" 128 ["a.png"; "c.JPG"; "d.bmp"] disk).1
     = [Some "out/a.png"; None; None]
  /\ (process_directory self half "center" 128 disk).1 = Ok (1, 2).
Proof.
  split; [reflexivity|]. split; [vm_compute; reflexivity|].
  split; [vm_compute; reflexivity|].
  rewrite (proj1 (process_directory_counts self half "center" 128 disk
                    ["a.png"; "notes.txt"; "c.JPG"; "d.bmp"] eq_refl)).
  vm_compute. reflexivity.
Defined.

End Directory.

(* ===================================================================== *)
(** * Loading the template: [_load_watermark] *)
(* ===================================================================== *)

Module Loading.
Import Py PIL Watermarker Logic Run.
Local Open Scope py_scope.

(** The canvas of the text watermark: 150 x 50, mode RGBA, every pixel
    (255, 255, 255, 0), that is, fully transparent. *)
Definition text_canvas : image :=
  Image "RGBA" 150 50
    (map (fun c => replicate (Z.to_nat (150 * 50)) c) [255; 255; 255; 0]).

(** The font the text is drawn with: Arial at 24 points where it can be
    found, the built-in font otherwise. *)
Definition text_font (w : world) : font :=
  if bool_decide ("arial.ttf" ∈ fonts w) then TrueType "arial.ttf" 24
  else DefaultFont.

Definition warning : level * string :=
  (WARNING, "Logo not found. Using text watermark instead.").

Section Claims.
Context `{Kernels}.

(** The text watermark: the text drawn on the canvas at (10, 10) with
    fill (0, 0, 0, 128). *)
Definition text_watermark (w : world) (text : string) : image :=
  set_bands (rasterize text_canvas (10, 10) text (text_font w) [0; 0; 0; 128])
    text_canvas.

Lemma text_watermark_built text w :
  (watermark <- Image_new "RGBA" (150, 50) [255; 255; 255; 0] ;;
   font <- try_except (ImageFont_truetype "arial.ttf" 24) [OSError]
             (fun _ => ImageFont_load_default) ;;
   draw_text watermark (10, 10) text font [0; 0; 0; 128] ;;
   ret watermark) w
  = (Ok (fresh (dom (heap w))),
     set_heap (<[fresh (dom (heap w)) := text_watermark w text]> (heap w)) w).
Proof.
  unfold bind at 1. unfold Image_new.
  change ((fst (150, 50) <? 0) || (snd (150, 50) <? 0)) with false.
  cbv iota. unfold alloc.
  change (Image "RGBA" (fst (150, 50)) (snd (150, 50)) _) with text_canvas.
  set (l := fresh (dom (heap w))).
  set (w1 := set_heap (<[l := text_canvas]> (heap w)) w).
  assert (Hfont : try_except (ImageFont_truetype "arial.ttf" 24) [OSError]
                    (fun _ => ImageFont_load_default) w1
                  = (Ok (text_font w), w1)).
  { unfold try_except, ImageFont_truetype, text_font.
    change (fonts w1) with (fonts w).
    destruct (bool_decide ("arial.ttf" ∈ fonts w)); reflexivity. }
  unfold bind at 1. rewrite Hfont.
  unfold draw_text, bind, deref, store, ret.
  change (heap w1) with (<[l := text_canvas]> (heap w)).
  rewrite lookup_insert_eq. unfold text_watermark, w1, set_heap.
  cbn [heap files write_errors fonts dirs log].
  rewrite insert_insert_eq. reflexivity.
Qed.

(** What the fallback leaves: the text watermark in a new object, and
    the given records added to the log. *)
Definition fallback (w : world) (text : string)
    (records : list (level * string)) : outcome loc * world :=
  let l := fresh (dom (heap w)) in
  (Ok l,
   set_heap (<[l := text_watermark w text]> (heap w))
     (set_log (log w ++ records) w)).

(** The [try] statement around [Image.open], by the outcome of the
    opening. *)
Lemma open_handled path e w w1 :
  path <> "" -> Image_open path w = (Raise e, w1) ->
  try_except
    (if truthy (Some path) then
       watermark <- Image_open (default "" (Some path)) ;;
       wm <- deref watermark ;;
       logging INFO
         (String.append "Watermark loaded: "
            (String.append (repr_size (size wm))
               (String.append ", " (mode wm)))) ;;
       ret (Some watermark)
     else ret None)
    [FileNotFoundError; AttributeError]
    (fun _ =>
       logging WARNING "Logo not found. Using text watermark instead." ;;
       ret None) w
  = if caught_by [FileNotFoundError; AttributeError] e
    then (Ok None, set_log (log w1 ++ [warning]) w1)
    else (Raise e, w1).
Proof.
  intros Hne Hopen.
  assert (Ht : truthy (Some path) = true).
  { cbn. apply negb_true_iff, String.eqb_neq, Hne. }
  rewrite Ht. change (default "" (Some path)) with path.
  unfold try_except, bind at 1. rewrite Hopen.
  destruct (caught_by _ e); reflexivity.
Qed.

(** C4 (amended).  When no logo path is given (or it is empty),
    [_load_watermark] returns the fallback and logs nothing.  When a path
    is given and opening it raises an exception, the class of the
    exception decides: after [FileNotFoundError] or [AttributeError] (or
    a subclass) the warning is logged and the fallback returned; any
    other exception leaves [_load_watermark], with no record and no
    object made.  The fallback is a new object holding the text
    watermark, a 150 x 50 fully transparent RGBA canvas with the
    configured text drawn at (10, 10) in fill (0, 0, 0, 128), in Arial at
    24 points where that font can be found and in the built-in font
    otherwise; nothing else changes. *)
Theorem _load_watermark_falls_back logo_path text w :
  (truthy logo_path = false ->
   _load_watermark logo_path text w = fallback w text [])
  /\ (forall path e w1,
        logo_path = Some path -> path <> "" ->
        Image_open path w = (Raise e, w1) ->
        w1 = w
        /\ _load_watermark logo_path text w
           = if caught_by [FileNotFoundError; AttributeError] e
             then fallback w text [warning]
             else (Raise e, w))
  /\ heap w !! fresh (dom (heap w)) = None
  /\ mode text_canvas = "RGBA" /\ size text_canvas = (150, 50)
  /\ (forall a, a ∈ default [] (bands text_canvas !! 3%nat) -> a = 0).
Proof.
  split; [|split; [|split; [|split; [|split]]]].
  - intros Hno. unfold _load_watermark, fallback. unfold bind at 1.
    rewrite Hno. unfold try_except, ret.
    rewrite text_watermark_built. rewrite app_nil_r.
    destruct w; reflexivity.
  - intros path e w1 -> Hne Hopen.
    assert (w1 = w) as ->.
    { unfold Image_open, alloc in Hopen.
      destruct (files w !! path) as [[im|e']|]; [discriminate|..];
        injection Hopen as _ <-; reflexivity. }
    split; [reflexivity|].
    unfold _load_watermark. unfold bind at 1.
    rewrite (open_handled path e w w Hne Hopen).
    destruct (caught_by _ e); [|reflexivity].
    rewrite text_watermark_built. reflexivity.
  - apply (not_elem_of_dom (D := gset loc)), is_fresh.
  - reflexivity.
  - reflexivity.
  - intros a. cbn [bands text_canvas map lookup list_lookup default].
    intros Ha. apply elem_of_replicate in Ha. tauto.
Qed.

End Claims.

Import Toy Demo.

(** A logo path at which there is nothing. *)
Lemma _load_watermark_falls_back_witness :
  (exists message,
     Image_open "logo.png" disk
     = (Raise (Exn FileNotFoundError message), disk))
  /\ _load_watermark (Some "logo.png") "Watermark" disk
     = fallback disk "Watermark" [warning]
  /\ (_load_watermark (Some "logo.png") "Watermark" disk).1 = Ok 2%positive
  /\ log (_load_watermark (Some "logo.png") "Watermark" disk).2 = [warning].
Proof.
  assert (Hopen : Image_open "logo.png" disk
                  = (Raise (Exn FileNotFoundError
                              "No such file or directory: logo.png"), disk))
    by (vm_compute; reflexivity).
  assert (Hne : "logo.png" <> "") by discriminate.
  destruct (proj1 (proj2 (_load_watermark_falls_back (Some "logo.png")
                            "Watermark" disk))
              "logo.png" _ disk eq_refl Hne Hopen) as [_ Hrun].
  change (caught_by [FileNotFoundError; AttributeError]
            (Exn FileNotFoundError "No such file or directory: logo.png"))
    with true in Hrun.
  split; [eexists; exact Hopen|]. split; [exact Hrun|].
  rewrite Hrun. split; reflexivity.
Defined.

(** A logo that exists but cannot be read. *)
Definition locked : world :=
  World ∅ {["logo.png" := Unreadable (Exn PermissionError "Permission denied")]}
    ∅ ∅ ∅ [].

(** C4, as stated, fails: opening an unreadable logo raises
    [PermissionError], which is neither of the two classes the loader
    handles, and the exception leaves [_load_watermark].  So does the
    [NotADirectoryError] of a path below a regular file, here the
    picture [in/a.png]. *)
Lemma _load_watermark_unreadable_raises :
  files locked !! "logo.png"
  = Some (Unreadable (Exn PermissionError "Permission denied"))
  /\ _load_watermark (Some "logo.png") "Watermark" locked
     = (Raise (Exn PermissionError "Permission denied"), locked)
  /\ exists message,
       _load_watermark (Some "in/a.png/logo.png") "Watermark" disk
       = (Raise (Exn NotADirectoryError message), disk).
Proof.
  split; [reflexivity|]. split; [reflexivity|].
  eexists. vm_compute. reflexivity.
Qed.

End Loading.

(* ===================================================================== *)
(** * Rounding: what binary64 does to [int / int] and [int * float]

    The error of the operations [resize_watermark] performs, from the
    definitions of [SpecFloat].  Values are kept in the integers: a float
    [m * 2^e] is compared with a rational after both are scaled. *)
(* ===================================================================== *)

Module Rounding.
Import Py.

Lemma digits2_pos_size p : digits2_pos p = Pos.size p.
Proof. induction p; cbn; congruence. Qed.

Lemma digits2_pos_bounds p :
  2 ^ (Zpos (digits2_pos p) - 1) <= Zpos p < 2 ^ Zpos (digits2_pos p).
Proof.
  rewrite digits2_pos_size. split.
  - pose proof (Pos.size_le p) as Hle.
    apply Pos2Z.pos_le_pos in Hle. rewrite Pos2Z.inj_pow in Hle.
    replace (Zpos (Pos.size p)) with (Z.succ (Zpos (Pos.size p) - 1)) in Hle by lia.
    rewrite Z.pow_succ_r in Hle by lia. lia.
  - pose proof (Pos.size_gt p) as Hgt.
    apply Pos2Z.pos_lt_pos in Hgt. rewrite Pos2Z.inj_pow in Hgt. exact Hgt.
Qed.

Lemma Zdigits2_bounds z :
  0 < z -> 2 ^ (Zdigits2 z - 1) <= z < 2 ^ Zdigits2 z.
Proof. destruct z as [|p|p]; try lia. intros _. apply digits2_pos_bounds. Qed.

Lemma Zdigits2_unique z k :
  2 ^ (k - 1) <= z < 2 ^ k -> 0 < z -> Zdigits2 z = k.
Proof.
  intros [Hlo Hhi] Hz. pose proof (Zdigits2_bounds z Hz) as [Hlo' Hhi'].
  assert (Hd : 0 < Zdigits2 z) by (destruct z; cbn; lia).
  assert (Hk : 0 < k).
  { destruct (Z.lt_trichotomy k 0) as [Hn|[->|Hp]]; [|cbn in Hhi; lia|exact Hp].
    rewrite Z.pow_neg_r in Hhi by exact Hn. lia. }
  destruct (Z.lt_trichotomy (Zdigits2 z) k) as [Hlt|[Heq|Hgt]]; [|exact Heq|].
  - assert (2 ^ Zdigits2 z <= 2 ^ (k - 1)) by (apply Z.pow_le_mono_r; lia). lia.
  - assert (2 ^ k <= 2 ^ (Zdigits2 z - 1)) by (apply Z.pow_le_mono_r; lia). lia.
Qed.

Lemma shr_m_shr_1 mrs : 0 <= shr_m mrs -> shr_m (shr_1 mrs) = shr_m mrs / 2.
Proof.
  destruct mrs as [m r s]. cbn [shr_m]. intros Hm.
  destruct m as [|[p|p|]|p]; cbn [shr_1 shr_m]; try lia.
  - reflexivity.
  - apply Z.div_unique with 1; lia.
  - apply Z.div_unique with 0; lia.
  - reflexivity.
Qed.

Lemma shr_m_iter n : forall mrs,
  0 <= shr_m mrs -> shr_m (SpecFloat.iter_pos shr_1 n mrs) = shr_m mrs / 2 ^ Zpos n.
Proof.
  induction n as [n IH|n IH|]; intros mrs Hm; cbn [SpecFloat.iter_pos].
  - assert (H1 : 0 <= shr_m (shr_1 mrs)).
    { rewrite shr_m_shr_1 by exact Hm. apply Z.div_pos; lia. }
    assert (H2 : 0 <= shr_m (SpecFloat.iter_pos shr_1 n (shr_1 mrs))).
    { rewrite IH by exact H1. apply Z.div_pos; lia. }
    rewrite IH by exact H2. rewrite IH by exact H1.
    rewrite shr_m_shr_1 by exact Hm.
    rewrite !Z.div_div by lia. f_equal.
    rewrite (Pos2Z.inj_xI n), Z.pow_add_r, Z.pow_mul_r by lia.
    change (2 ^ 2) with (2 * 2). change (2 ^ 1) with 2.
    rewrite Z.pow_mul_l. lia.
  - assert (H2 : 0 <= shr_m (SpecFloat.iter_pos shr_1 n mrs)).
    { rewrite IH by exact Hm. apply Z.div_pos; lia. }
    rewrite IH by exact H2. rewrite IH by exact Hm.
    rewrite !Z.div_div by lia. f_equal.
    rewrite (Pos2Z.inj_xO n), Z.pow_mul_r by lia.
    change (2 ^ 2) with (2 * 2). rewrite Z.pow_mul_l. lia.
  - rewrite shr_m_shr_1 by exact Hm. reflexivity.
Qed.

Lemma shr_m_of_loc m l : shr_m (shr_record_of_loc m l) = m.
Proof. destruct l as [|[]]; reflexivity. Qed.

Lemma round_nearest_even_cases m l :
  round_nearest_even m l = m \/ round_nearest_even m l = m + 1.
Proof.
  destruct l as [|[]]; cbn; auto. destruct (Z.even m); auto.
Qed.

(** The first step of rounding: the digits beyond the 53rd are shifted
    out. *)
Lemma shr_fexp_normal mx ex lx :
  0 < mx -> 53 <= Zdigits2 mx -> -1021 <= Zdigits2 mx + ex ->
  exists mrs,
    shr_fexp 53 1024 mx ex lx = (mrs, ex + (Zdigits2 mx - 53))
    /\ shr_m mrs = mx / 2 ^ (Zdigits2 mx - 53).
Proof.
  intros Hmx Hd Hex. unfold shr_fexp, fexp, emin.
  rewrite Z.max_l by lia.
  replace (Zdigits2 mx + ex - 53 - ex) with (Zdigits2 mx - 53) by lia.
  destruct (Zdigits2 mx - 53) as [|n|n] eqn:Hn; [| |lia]; cbn [shr].
  - eexists. split; [f_equal; lia|].
    rewrite shr_m_of_loc. symmetry. apply Z.div_1_r.
  - eexists. split; [reflexivity|].
    rewrite shr_m_iter; rewrite shr_m_of_loc; [reflexivity|lia].
Qed.

Lemma binary_round_aux_faithful sx mx ex lx :
  0 < mx -> 53 <= Zdigits2 mx -> -1021 <= Zdigits2 mx + ex <= 1023 ->
  exists m e,
    binary_round_aux 53 1024 sx mx ex lx = S754_finite sx m e
    /\ 2 ^ 52 <= Zpos m < 2 ^ 53
    /\ ex + (Zdigits2 mx - 53) <= e <= ex + (Zdigits2 mx - 53) + 1
    /\ (Zpos m * 2 ^ (e - ex)
        = mx / 2 ^ (Zdigits2 mx - 53) * 2 ^ (Zdigits2 mx - 53)
        \/ Zpos m * 2 ^ (e - ex)
           = (mx / 2 ^ (Zdigits2 mx - 53) + 1) * 2 ^ (Zdigits2 mx - 53)).
Proof.
  intros Hmx Hd Hex. set (n := Zdigits2 mx - 53).
  assert (Hn : 0 <= n) by (unfold n; lia).
  destruct (shr_fexp_normal mx ex lx Hmx Hd ltac:(lia)) as (mrs & Hshr & Hm).
  fold n in Hshr, Hm.
  unfold binary_round_aux. rewrite Hshr. cbv beta iota.
  set (m1 := round_nearest_even (shr_m mrs) (loc_of_shr_record mrs)).
  pose proof (Zdigits2_bounds mx Hmx) as [Hlo Hhi].
  assert (Hq : 2 ^ 52 <= mx / 2 ^ n < 2 ^ 53).
  { assert (0 < 2 ^ n) by (apply Z.pow_pos_nonneg; lia). split.
    - apply Z.div_le_lower_bound; [lia|].
      rewrite Z.mul_comm, <- Z.pow_add_r by lia.
      replace (52 + n) with (Zdigits2 mx - 1) by (unfold n; lia). exact Hlo.
    - apply Z.div_lt_upper_bound; [lia|].
      rewrite <- Z.pow_add_r by lia.
      replace (n + 53) with (Zdigits2 mx) by (unfold n; lia). exact Hhi. }
  assert (Hm1 : m1 = mx / 2 ^ n \/ m1 = mx / 2 ^ n + 1).
  { unfold m1. rewrite <- Hm. apply round_nearest_even_cases. }
  assert (Hcase : m1 < 2 ^ 53 \/ m1 = 2 ^ 53) by lia.
  assert (Hpos1 : 0 < m1) by lia.
  assert (Hd1 : Zdigits2 m1 = 53 \/ (Zdigits2 m1 = 54 /\ m1 = 2 ^ 53)).
  { destruct Hcase as [Hlt | Heq].
    - left. apply Zdigits2_unique; [|exact Hpos1].
      change (53 - 1) with 52. lia.
    - right. split; [|exact Heq]. rewrite Heq. reflexivity. }
  destruct (shr_fexp_normal m1 (ex + n) loc_Exact Hpos1 ltac:(lia) ltac:(lia))
    as (mrs2 & Hshr2 & Hm2).
  rewrite Hshr2. cbv beta iota.
  assert (Hval : shr_m mrs2 * 2 ^ (Zdigits2 m1 - 53) = m1).
  { rewrite Hm2. destruct Hd1 as [-> | [-> ->]]; [|reflexivity].
    change (53 - 53) with 0. rewrite Z.pow_0_r, Z.div_1_r. lia. }
  assert (Hpos2 : 0 < shr_m mrs2).
  { assert (0 < 2 ^ (Zdigits2 m1 - 53)) by (apply Z.pow_pos_nonneg; lia). nia. }
  destruct (shr_m mrs2) as [|m2|m2] eqn:Hm2'; [lia| |lia].
  rewrite (proj2 (Z.leb_le _ _)) by lia.
  exists m2, (ex + n + (Zdigits2 m1 - 53)).
  split; [reflexivity|]. split.
  { destruct Hd1 as [Hd1 | [Hd1 Hd1']]; rewrite Hd1 in Hval.
    - change (53 - 53) with 0 in Hval. rewrite Z.pow_0_r in Hval.
      assert (m1 < 2 ^ 53).
      { destruct Hcase as [Hc|Hc]; [exact Hc|].
        rewrite Hc in Hd1. discriminate Hd1. }
      lia.
    - rewrite Hd1' in Hval. change (2 ^ (54 - 53)) with 2 in Hval.
      change (2 ^ 53) with (2 ^ 52 * 2) in Hval. lia. }
  split; [lia|].
  replace (ex + n + (Zdigits2 m1 - 53) - ex) with ((Zdigits2 m1 - 53) + n) by lia.
  rewrite Z.pow_add_r, Z.mul_assoc, Hval by lia.
  destruct Hm1 as [-> | ->]; auto.
Qed.


Lemma Zdigits2_range z j k :
  0 < z -> 2 ^ (j - 1) <= z < 2 ^ k -> j <= Zdigits2 z <= k.
Proof.
  intros Hz [Hlo Hhi]. pose proof (Zdigits2_bounds z Hz) as [Hlo' Hhi'].
  assert (Hd : 0 < Zdigits2 z) by (destruct z; cbn; lia).
  split.
  - destruct (Z_lt_le_dec (Zdigits2 z) j) as [Hlt|]; [|lia].
    assert (2 ^ Zdigits2 z <= 2 ^ (j - 1)) by (apply Z.pow_le_mono_r; lia). lia.
  - destruct (Z_lt_le_dec k (Zdigits2 z)) as [Hlt|]; [|lia].
    destruct (Z_lt_le_dec k 0) as [Hneg|].
    { rewrite Z.pow_neg_r in Hhi by exact Hneg. lia. }
    assert (2 ^ k <= 2 ^ (Zdigits2 z - 1)) by (apply Z.pow_le_mono_r; lia). lia.
Qed.

(** A mantissa of 53 digits with nothing to round is kept as it is. *)
Lemma binary_round_aux_exact sx m ex :
  Zdigits2 (Zpos m) = 53 -> -1074 <= ex <= 971 ->
  binary_round_aux 53 1024 sx (Zpos m) ex loc_Exact = S754_finite sx m ex.
Proof.
  intros Hd Hex.
  assert (Hshr : shr_fexp 53 1024 (Zpos m) ex loc_Exact
                 = (Build_shr_record (Zpos m) false false, ex)).
  { unfold shr_fexp, fexp, emin. rewrite Hd, Z.max_l by lia.
    replace (53 + ex - 53 - ex) with 0 by lia. reflexivity. }
  unfold binary_round_aux. rewrite Hshr. cbv beta iota.
  cbn [shr_m loc_of_shr_record round_nearest_even]. rewrite Hshr.
  cbv beta iota. cbn [shr_m].
  rewrite (proj2 (Z.leb_le _ _)) by lia. reflexivity.
Qed.

Lemma iter_xO p k : Zpos (Pos.iter xO p k) = Zpos p * 2 ^ Zpos k.
Proof.
  induction k as [|k IH] using Pos.peano_ind.
  - cbn. lia.
  - rewrite Pos.iter_succ, Pos2Z.inj_xO, IH, Pos2Z.inj_succ, Z.pow_succ_r by lia.
    lia.
Qed.

(** [float(h)] is [h] itself for an [int] below 2^53, with a mantissa
    of 53 digits. *)
Lemma float_of_int_exact h :
  0 < h < 2 ^ 53 ->
  exists m e,
    binary_normalize prec emax h 0 false = S754_finite false m e
    /\ -52 <= e <= 0
    /\ 2 ^ 52 <= Zpos m < 2 ^ 53
    /\ Zpos m = h * 2 ^ (- e).
Proof.
  intros [Hpos Hlt]. destruct h as [|p|p]; try lia.
  pose proof (Zdigits2_range (Zpos p) 1 53 Hpos ltac:(cbn; lia)) as Hd.
  pose proof (Zdigits2_bounds (Zpos p) Hpos) as Hb.
  cbn [Zdigits2] in Hd, Hb.
  unfold prec, emax. cbn [binary_normalize]. unfold binary_round, fexp, emin.
  rewrite Z.max_l by lia. unfold shl_align.
  replace (Zpos (digits2_pos p) + 0 - 53 - 0) with (Zpos (digits2_pos p) - 53) by lia.
  destruct (Zpos (digits2_pos p) - 53) as [|k|k] eqn:Hk; [| lia |].
  - exists p, 0. split; [|split; [lia|split; [|cbn; lia]]].
    + apply binary_round_aux_exact; cbn [Zdigits2]; lia.
    + replace (Zpos (digits2_pos p)) with 53 in Hb by lia.
      change (53 - 1) with 52 in Hb. exact Hb.
  - assert (Hval : Zpos (Pos.iter xO p k) = Zpos p * 2 ^ Zpos k) by apply iter_xO.
    assert (Hrange : 2 ^ 52 <= Zpos (Pos.iter xO p k) < 2 ^ 53).
    { rewrite Hval.
      assert (H52 : 2 ^ 52 = 2 ^ (Zpos (digits2_pos p) - 1) * 2 ^ Zpos k).
      { rewrite <- Z.pow_add_r by lia. f_equal. lia. }
      assert (H53 : 2 ^ 53 = 2 ^ Zpos (digits2_pos p) * 2 ^ Zpos k).
      { rewrite <- Z.pow_add_r by lia. f_equal. lia. }
      rewrite H52, H53.
      assert (0 < 2 ^ Zpos k) by (apply Z.pow_pos_nonneg; lia).
      split; [apply Z.mul_le_mono_nonneg_r; lia|apply Z.mul_lt_mono_pos_r; lia]. }
    exists (Pos.iter xO p k), (Zpos (digits2_pos p) + 0 - 53).
    split; [|split; [lia|split; [exact Hrange|]]].
    + apply binary_round_aux_exact; [|lia].
      apply Zdigits2_unique; [|lia]. change (53 - 1) with 52. exact Hrange.
    + rewrite Hval. do 2 f_equal. lia.
Qed.

Lemma Zdigits2_small z : 0 < z < 2 ^ 53 -> 1 <= Zdigits2 z <= 53.
Proof.
  intros [Hpos Hlt]. apply Zdigits2_range; [exact Hpos|].
  change (2 ^ (1 - 1)) with 1. lia.
Qed.

(** The quotient that [int / int] hands to the rounding: the numerator is
    shifted so that the integer quotient has 53 or 54 digits. *)
Lemma SFdiv_core_binary_exact a b :
  0 < a < 2 ^ 53 -> 0 < b < 2 ^ 53 ->
  exists l,
    SFdiv_core_binary 53 1024 a 0 b 0
    = (a * 2 ^ (53 + Zdigits2 b - Zdigits2 a) / b,
       - (53 + Zdigits2 b - Zdigits2 a), l).
Proof.
  intros Ha Hb.
  pose proof (Zdigits2_small a Ha) as Hda.
  pose proof (Zdigits2_small b Hb) as Hdb.
  unfold SFdiv_core_binary, fexp, emin. cbv zeta.
  set (s := 53 + Zdigits2 b - Zdigits2 a).
  replace (Z.min (Z.max (Zdigits2 a + 0 - (Zdigits2 b + 0) - 53) (3 - 1024 - 53))
             (0 - 0)) with (- s) by (unfold s; lia).
  replace (0 - 0 - - s) with s by lia.
  assert (Hs : 0 < s) by (unfold s; lia).
  destruct s as [|ps|ps]; [lia| |lia].
  rewrite Z.shiftl_mul_pow2 by lia.
  destruct (Z.div_eucl (a * 2 ^ Zpos ps) b) as [q r] eqn:Hdiv.
  exists (new_location b r).
  do 2 f_equal. unfold Z.div. rewrite Hdiv. reflexivity.
Qed.

(** [a / b] for two positive [int]s below 2^53: a float [m * 2^e] whose
    distance to the quotient is at most the quotient times 2^-52.  The
    statement is scaled by [2^s] and by [b] to stay in the integers. *)
Lemma fdiv_exact_int a b :
  0 < a < 2 ^ 53 -> 0 < b < 2 ^ 53 ->
  exists m e s,
    fdiv (exact_int a) (exact_int b) = S754_finite false m e
    /\ s = 53 + Zdigits2 b - Zdigits2 a
    /\ 2 ^ 52 <= Zpos m < 2 ^ 53
    /\ - s <= e <= - s + 2
    /\ - (a * 2 ^ s)
       <= 2 ^ 52 * (Zpos m * 2 ^ (e + s) * b - a * 2 ^ s)
       <= a * 2 ^ s.
Proof.
  intros Ha Hb.
  pose proof (Zdigits2_small a Ha) as Hda.
  pose proof (Zdigits2_small b Hb) as Hdb.
  pose proof (Zdigits2_bounds a (proj1 Ha)) as Hba.
  pose proof (Zdigits2_bounds b (proj1 Hb)) as Hbb.
  destruct (SFdiv_core_binary_exact a b Ha Hb) as [l Hcore].
  set (s := 53 + Zdigits2 b - Zdigits2 a) in *.
  assert (Hs : 1 <= s <= 105) by (unfold s; lia).
  set (A := a * 2 ^ s) in *.
  set (q := A / b) in *.
  assert (Hpow : 0 < 2 ^ s) by (apply Z.pow_pos_nonneg; lia).
  assert (HA : 0 < A) by (unfold A; nia).
  (* the quotient has 53 or 54 digits *)
  assert (Hlow : 2 ^ 52 * b <= A).
  { unfold A.
    assert (Hb' : 2 ^ 52 * b <= 2 ^ 52 * 2 ^ Zdigits2 b)
      by (apply Z.mul_le_mono_nonneg_l; lia).
    assert (Ha' : 2 ^ (Zdigits2 a - 1) * 2 ^ s <= a * 2 ^ s)
      by (apply Z.mul_le_mono_nonneg_r; lia).
    rewrite <- Z.pow_add_r in Hb', Ha' by lia.
    replace (Zdigits2 a - 1 + s) with (52 + Zdigits2 b) in Ha' by (unfold s; lia).
    lia. }
  assert (Hhigh : A < 2 ^ 54 * b).
  { unfold A.
    assert (Ha' : a * 2 ^ s < 2 ^ Zdigits2 a * 2 ^ s)
      by (apply Z.mul_lt_mono_pos_r; lia).
    assert (Hb' : 2 ^ 54 * 2 ^ (Zdigits2 b - 1) <= 2 ^ 54 * b)
      by (apply Z.mul_le_mono_nonneg_l; lia).
    rewrite <- Z.pow_add_r in Hb', Ha' by lia.
    replace (Zdigits2 a + s) with (54 + (Zdigits2 b - 1)) in Ha' by (unfold s; lia).
    lia. }
  assert (Hq : 2 ^ 52 <= q < 2 ^ 54).
  { unfold q. split.
    - apply Z.div_le_lower_bound; lia.
    - apply Z.div_lt_upper_bound; lia. }
  assert (Hqpos : 0 < q) by lia.
  pose proof (Zdigits2_range q 53 54 Hqpos ltac:(change (53 - 1) with 52; lia)) as Hdq.
  pose proof (Zdigits2_bounds q Hqpos) as [Hql _].
  destruct (binary_round_aux_faithful false q (- s) l Hqpos ltac:(lia) ltac:(lia))
    as (m & e & Hround & Hm & He & Hval).
  exists m, e, s. split.
  { destruct a as [|pa|pa]; [lia| |lia]. destruct b as [|pb|pb]; [lia| |lia].
    unfold fdiv, prec, emax. cbn [exact_int SFdiv]. rewrite Hcore.
    cbv beta iota. exact Hround. }
  split; [reflexivity|]. split; [exact Hm|]. split; [lia|].
  replace (e - - s) with (e + s) in Hval by lia.
  set (n := Zdigits2 q - 53) in *.
  assert (Hn : 0 <= n <= 1) by (unfold n; lia).
  assert (HN : 0 < 2 ^ n) by (apply Z.pow_pos_nonneg; lia).
  replace (Zdigits2 q - 1) with (52 + n) in Hql by (unfold n; lia).
  rewrite Z.pow_add_r in Hql by lia.
  pose proof (Z.div_mod A b ltac:(lia)) as HAb.
  pose proof (Z.mod_pos_bound A b ltac:(lia)) as Hr.
  fold q in HAb.
  pose proof (Z.div_mod q (2 ^ n) ltac:(lia)) as Hqn.
  pose proof (Z.mod_pos_bound q (2 ^ n) HN) as Hrn.
  set (q0 := q / 2 ^ n) in *. set (N := 2 ^ n) in *.
  set (M := Zpos m * 2 ^ (e + s)) in *.
  assert (Hqb : 2 ^ 52 * (N * b) <= A).
  { assert (2 ^ 52 * N * b <= q * b) by (apply Z.mul_le_mono_nonneg_r; lia). lia. }
  assert (Hlo : q0 * N * b <= A).
  { assert (q0 * N * b <= q * b) by (apply Z.mul_le_mono_nonneg_r; lia). lia. }
  assert (Hhi : A < (q0 + 1) * N * b).
  { assert ((q + 1) * b <= (q0 + 1) * N * b) by (apply Z.mul_le_mono_nonneg_r; lia).
    lia. }
  destruct Hval as [-> | ->].
  - assert (A - q0 * N * b <= N * b) by lia. lia.
  - assert ((q0 + 1) * N * b - A <= N * b) by lia. lia.
Qed.

(** The product of two floats with full mantissas, away from the ends of
    the exponent range: a float within the product times 2^-52 of it. *)
Lemma fmul_finite mx ex my ey :
  2 ^ 52 <= Zpos mx < 2 ^ 53 -> 2 ^ 52 <= Zpos my < 2 ^ 53 ->
  -1000 <= ex + ey <= 900 ->
  exists m e,
    fmul (S754_finite false mx ex) (S754_finite false my ey)
    = S754_finite false m e
    /\ ex + ey + 52 <= e <= ex + ey + 54
    /\ - (Zpos mx * Zpos my)
       <= 2 ^ 52 * (Zpos m * 2 ^ (e - (ex + ey)) - Zpos mx * Zpos my)
       <= Zpos mx * Zpos my.
Proof.
  intros Hmx Hmy Hex.
  set (P := Zpos mx * Zpos my).
  assert (HP : 2 ^ 104 <= P < 2 ^ 106).
  { unfold P. change (2 ^ 104) with (2 ^ 52 * 2 ^ 52).
    change (2 ^ 106) with (2 ^ 53 * 2 ^ 53). nia. }
  assert (HPpos : 0 < P) by lia.
  pose proof (Zdigits2_range P 105 106 HPpos ltac:(change (105 - 1) with 104; lia))
    as Hd.
  pose proof (Zdigits2_bounds P HPpos) as [Hlo _].
  destruct (binary_round_aux_faithful false P (ex + ey) loc_Exact HPpos
              ltac:(lia) ltac:(lia)) as (m & e & Hround & Hm & He & Hval).
  exists m, e. split.
  { unfold fmul, prec, emax. cbn [SFmul xorb]. rewrite Pos2Z.inj_mul. exact Hround. }
  split; [lia|].
  set (n := Zdigits2 P - 53) in *.
  assert (Hn : 52 <= n <= 53) by (unfold n; lia).
  assert (HN : 0 < 2 ^ n) by (apply Z.pow_pos_nonneg; lia).
  replace (Zdigits2 P - 1) with (52 + n) in Hlo by (unfold n; lia).
  rewrite Z.pow_add_r in Hlo by lia.
  pose proof (Z.div_mod P (2 ^ n) ltac:(lia)) as HPn.
  pose proof (Z.mod_pos_bound P (2 ^ n) HN) as Hrn.
  set (p0 := P / 2 ^ n) in *. set (N := 2 ^ n) in *.
  destruct Hval as [-> | ->]; lia.
Qed.

(** [int()] of a positive float is the floor of its value. *)
Lemma trunc_floor m e ex :
  ex <= 0 -> ex <= e ->
  trunc (S754_finite false m e) = Zpos m * 2 ^ (e - ex) / 2 ^ (- ex).
Proof.
  intros Hex He. cbn [trunc].
  assert (Hpow : 0 < 2 ^ (- ex)) by (apply Z.pow_pos_nonneg; lia).
  destruct e as [|k|k].
  - replace (0 - ex) with (- ex) by lia. symmetry. apply Z.div_mul. lia.
  - replace (Zpos k - ex) with (Zpos k + - ex) by lia.
    rewrite Z.pow_add_r, Z.mul_assoc by lia. symmetry. apply Z.div_mul. lia.
  - replace (- ex) with (Zpos k + (Zneg k - ex)) at 1 by lia.
    rewrite Z.pow_add_r by lia.
    symmetry. apply Z.div_mul_cancel_r.
    + apply Z.pow_nonzero; lia.
    + apply Z.pow_nonzero; lia.
Qed.

(** Two relative errors of 2^-52 each, on a quantity [ha] of at most
    2^50, cannot move its quotient by [b] across more than one integer. *)
Lemma tolerance_core X Y W V Hb ha b :
  0 < V -> 0 <= ha <= 2 ^ 50 -> W = ha * V ->
  - Y <= 2 ^ 52 * (X - Y) <= Y ->
  - W <= 2 ^ 52 * (Y - W) <= W ->
  Hb * V <= X < (Hb + b) * V ->
  ha - b <= Hb <= ha.
Proof.
  intros HV Hha HW HXY HYW HX.
  assert (HWV : W <= 2 ^ 50 * V).
  { rewrite HW. apply Z.mul_le_mono_nonneg_r; lia. }
  assert (HW0 : 0 <= W) by (rewrite HW; apply Z.mul_nonneg_nonneg; lia).
  split.
  - destruct (Z_lt_le_dec (Hb + b) ha) as [Hlt|]; [exfalso|lia].
    assert ((Hb + b) * V <= (ha - 1) * V)
      by (apply Z.mul_le_mono_nonneg_r; lia).
    assert (HXW : X < W - V) by lia.
    change (2 ^ 52) with 4503599627370496 in *.
    change (2 ^ 50) with 1125899906842624 in *.
    lia.
  - destruct (Z_lt_le_dec ha Hb) as [Hlt|]; [exfalso|lia].
    assert ((ha + 1) * V <= Hb * V)
      by (apply Z.mul_le_mono_nonneg_r; lia).
    assert (HXW : W + V <= X) by lia.
    change (2 ^ 52) with 4503599627370496 in *.
    change (2 ^ 50) with 1125899906842624 in *.
    lia.
Qed.

(** [int(h * (a / b))] for positive [int]s with [h * a] at most 2^50: the
    floor of [h * a / b], or one less. *)
Lemma height_within_one_pixel h a b :
  0 < h -> 0 < a -> 0 < b < 2 ^ 53 -> h * a <= 2 ^ 50 ->
  h * a - b
  <= trunc (fmul (binary_normalize prec emax h 0 false)
                 (fdiv (exact_int a) (exact_int b))) * b
  <= h * a.
Proof.
  intros Hh Ha Hb Hha.
  assert (Hh50 : h <= 2 ^ 50) by nia.
  assert (Ha50 : a <= 2 ^ 50) by nia.
  destruct (float_of_int_exact h ltac:(change (2 ^ 53) with (8 * 2 ^ 50); lia))
    as (mh & eh & -> & Heh & Hmh & Hmhv).
  destruct (fdiv_exact_int a b ltac:(change (2 ^ 53) with (8 * 2 ^ 50); lia) Hb)
    as (m & e & s & -> & Hs & Hm & He & Hdiv).
  pose proof (Zdigits2_range a 1 51 Ha
                ltac:(change (2 ^ (1 - 1)) with 1;
                      change (2 ^ 51) with (2 * 2 ^ 50); lia)) as Hda.
  pose proof (Zdigits2_small b Hb) as Hdb.
  assert (Hs3 : 3 <= s <= 105) by lia.
  destruct (fmul_finite mh eh m e Hmh Hm ltac:(lia))
    as (mp & ep & -> & Hep & Hmul).
  rewrite (trunc_floor mp ep (eh + e)) by lia.
  set (Mp := Zpos mp * 2 ^ (ep - (eh + e))) in *.
  set (t := - (eh + e)).
  assert (Ht : 0 <= t) by (unfold t; lia).
  set (k := e + s) in *.
  assert (Hk : 0 <= k <= 2) by (unfold k; lia).
  assert (HU : 0 < 2 ^ t) by (apply Z.pow_pos_nonneg; lia).
  assert (HK : 0 < 2 ^ k) by (apply Z.pow_pos_nonneg; lia).
  assert (HS : 0 < 2 ^ s) by (apply Z.pow_pos_nonneg; lia).
  assert (HT : 0 < 2 ^ (- eh)) by (apply Z.pow_pos_nonneg; lia).
  assert (HV : 2 ^ t * 2 ^ k = 2 ^ (- eh) * 2 ^ s).
  { rewrite <- !Z.pow_add_r by lia. f_equal. unfold t, k. lia. }
  pose proof (Z.div_mod Mp (2 ^ t) ltac:(lia)) as Hdm.
  pose proof (Z.mod_pos_bound Mp (2 ^ t) HU) as Hr.
  set (H := Mp / 2 ^ t) in *.
  set (G := 2 ^ k * b).
  assert (HG : 0 < G) by (unfold G; nia).
  apply (tolerance_core (Mp * G) (Zpos mh * Zpos m * G)
           (h * 2 ^ (- eh) * (a * 2 ^ s)) (2 ^ (- eh) * 2 ^ s) (H * b) (h * a) b).
  - nia.
  - nia.
  - ring.
  - destruct Hmul as [Hl Hu].
    apply (Z.mul_le_mono_nonneg_r _ _ G) in Hl; [|lia].
    apply (Z.mul_le_mono_nonneg_r _ _ G) in Hu; [|lia].
    lia.
  - destruct Hdiv as [Hl Hu].
    assert (Hc : 0 <= h * 2 ^ (- eh)) by nia.
    apply (Z.mul_le_mono_nonneg_r _ _ (h * 2 ^ (- eh))) in Hl; [|exact Hc].
    apply (Z.mul_le_mono_nonneg_r _ _ (h * 2 ^ (- eh))) in Hu; [|exact Hc].
    rewrite Hmhv. unfold G. fold k in Hl, Hu. lia.
  - rewrite <- HV. unfold G.
    assert (H1 : H * 2 ^ t * (2 ^ k * b) <= Mp * (2 ^ k * b))
      by (apply Z.mul_le_mono_nonneg_r; lia).
    assert (H2 : Mp * (2 ^ k * b) < (H + 1) * 2 ^ t * (2 ^ k * b))
      by (apply Z.mul_lt_mono_pos_r; lia).
    lia.
Qed.

End Rounding.

(* ===================================================================== *)
(** * Resizing: [resize_watermark] *)
(* ===================================================================== *)

Module Resizing.
Import Py PIL Watermarker Logic Run Rounding.
Local Open Scope py_scope.

(** [int(base_image.width * scale)] *)
Definition new_width (base_width : Z) (scale : float) : Z :=
  trunc (fmul (binary_normalize prec emax base_width 0 false) scale).

(** [int(watermark.height * (new_width / watermark.width))] *)
Definition new_height (wm_width wm_height new_width : Z) : Z :=
  trunc (fmul (binary_normalize prec emax wm_height 0 false)
              (fdiv (exact_int new_width) (exact_int wm_width))).

Section Claims.
Context `{Kernels}.

(** What a successful call has computed: an object of the two sizes,
    the first at least 1; a copy of the watermark when these are the
    sizes it has, and otherwise the watermark resampled to them. *)
Lemma resize_watermark_Ok watermark base_image scale w l w' :
  resize_watermark watermark base_image scale w = (Ok l, w') ->
  exists base wm resized,
    heap w !! base_image = Some base /\ heap w !! watermark = Some wm /\
    width wm <> 0 /\
    allocated resized l w w' /\ mode resized = mode wm /\
    width resized = new_width (width base) scale /\
    height resized
    = new_height (width wm) (height wm) (new_width (width base) scale) /\
    1 <= width resized /\ 0 <= height resized /\
    (0 < height wm -> 1 <= height resized) /\
    (resized = wm \/
     resized
     = Image (mode wm) (new_width (width base) scale)
         (new_height (width wm) (height wm) (new_width (width base) scale))
         (resample LANCZOS wm (new_width (width base) scale)
            (new_height (width wm) (height wm)
               (new_width (width base) scale)))).
Proof.
  intros Hrun. unfold resize_watermark in Hrun.
  apply bind_Ok in Hrun as (base & w1 & [Hbase ->]%deref_Ok & Hrun).
  apply bind_Ok in Hrun as (wm & w1 & [Hwm ->]%deref_Ok & Hrun).
  apply bind_Ok in Hrun as (scaled & w1 & [Hscaled ->]%lift_Ok & Hrun).
  apply bind_Ok in Hrun as (nw & w1 & [Hnw ->]%lift_Ok & Hrun).
  apply bind_Ok in Hrun as (ratio & w1 & [Hratio ->]%lift_Ok & Hrun).
  apply bind_Ok in Hrun as (prop & w1 & [Hprop ->]%lift_Ok & Hrun).
  apply bind_Ok in Hrun as (nh & w1 & [Hnh ->]%lift_Ok & Hrun).
  apply resize_Ok in Hrun
    as (wm' & resized & Hwm' & Halloc & Hmode & Hsize & H1 & H2 & Hcase).
  rewrite Hwm in Hwm'. injection Hwm' as <-. cbn [fst snd] in *.
  assert (Enw : nw = new_width (width base) scale).
  { unfold int_mul_float, float_of_int in Hscaled. unfold new_width.
    destruct (is_finite _); [|discriminate]. injection Hscaled as <-.
    destruct (fmul _ scale); unfold int_of_float in Hnw;
      try discriminate; injection Hnw as <-; reflexivity. }
  assert (Hb : width wm <> 0).
  { unfold int_truediv in Hratio.
    destruct (Z.eqb_spec (width wm) 0); [discriminate|assumption]. }
  assert (Enh : nh = new_height (width wm) (height wm) nw).
  { unfold int_truediv in Hratio.
    destruct (width wm =? 0); [discriminate|].
    destruct (is_finite _); [|discriminate]. injection Hratio as <-.
    unfold int_mul_float, float_of_int in Hprop. unfold new_height.
    destruct (is_finite _); [|discriminate]. injection Hprop as <-.
    destruct (fmul _ _); unfold int_of_float in Hnh;
      try discriminate; injection Hnh as <-; reflexivity. }
  unfold size in Hsize. injection Hsize as Hw Hh.
  exists base, wm, resized.
  split; [exact Hbase|]. split; [exact Hwm|]. split; [exact Hb|].
  split; [exact Halloc|]. split; [exact Hmode|].
  split; [congruence|]. split; [congruence|].
  destruct Hcase as [->|(G1 & G2 & ->)].
  - split; [lia|]. split; [lia|]. split; [lia|]. left. reflexivity.
  - cbn [width height]. split; [lia|]. split; [lia|]. split; [lia|].
    right. subst nw nh. reflexivity.
Qed.

(** X2.  The size [resize_watermark] gives the watermark keeps its aspect
    ratio to within one pixel of height, and never exceeds it: with [h]
    and [b] the height and width of the watermark and [a] by [H] the new
    size, [h * a / b - 1 <= H <= h * a / b], for [h * a] up to 2^50.
    The two roundings of the float computation can only cost the one
    pixel that truncation may cost already. *)
Theorem resize_watermark_keeps_aspect watermark base_image scale w l w' wm :
  resize_watermark watermark base_image scale w = (Ok l, w') ->
  heap w !! watermark = Some wm ->
  0 < width wm < 2 ^ 53 -> 0 < height wm ->
  exists resized,
    heap w' !! l = Some resized /\ heap w !! l = None /\
    mode resized = mode wm /\ 1 <= width resized /\ 1 <= height resized /\
    (height wm * width resized <= 2 ^ 50 ->
     height wm * width resized - width wm
     <= height resized * width wm
     <= height wm * width resized).
Proof.
  intros Hrun Hwm Hb Hh.
  apply resize_watermark_Ok in Hrun
    as (base & wm' & resized & _ & Hwm' & _ & Halloc & Hmode & Ew & Eh
        & Ha & _ & HH & _).
  rewrite Hwm in Hwm'. injection Hwm' as <-.
  exists resized. split; [eapply allocated_lookup; exact Halloc|].
  split; [apply Halloc|]. split; [exact Hmode|].
  split; [exact Ha|]. split; [exact (HH Hh)|].
  intros Hbound. rewrite Eh. rewrite Ew in Hbound, Ha |- *.
  apply height_within_one_pixel; lia.
Qed.

(** A call that raises has changed nothing. *)
Lemma resize_watermark_Raise watermark base_image scale w e w' :
  resize_watermark watermark base_image scale w = (Raise e, w') -> w' = w.
Proof.
  unfold resize_watermark, resize, bind, deref, lift, raise, alloc.
  intros Hrun.
  repeat match type of Hrun with
         | context [match ?x with _ => _ end] =>
             lazymatch x with
             | context [match _ with _ => _ end] => fail
             | _ => destruct x; try discriminate
             end
         end.
  all: injection Hrun as _ <-; reflexivity.
Qed.

(** A scaled width below 1 never gets to [Image.resize] or fails there:
    some exception leaves [resize_watermark], and nothing has changed. *)
Lemma resize_watermark_empty watermark base_image scale w base :
  heap w !! base_image = Some base ->
  new_width (width base) scale < 1 ->
  exists e, resize_watermark watermark base_image scale w = (Raise e, w).
Proof.
  intros Hbase Hsmall.
  destruct (resize_watermark watermark base_image scale w) as [[l|e] w'] eqn:Hrun.
  - apply resize_watermark_Ok in Hrun
      as (base' & wm & resized & Hbase' & _ & _ & _ & _ & Ew & _ & Ha & _).
    rewrite Hbase in Hbase'. injection Hbase' as <-. lia.
  - exists e. f_equal.
    apply (resize_watermark_Raise _ _ _ _ _ _ Hrun).
Qed.


End Claims.

Import Toy Demo.

Lemma resize_watermark_keeps_aspect_witness :
  exists resized,
    heap (resize_watermark 1%positive 2%positive half studio).2 !! 3%positive
    = Some resized
    /\ size resized = (2, 1)
    /\ height logo * 2 - width logo <= 1 * width logo <= height logo * 2.
Proof.
  assert (Hrun : resize_watermark 1%positive 2%positive half studio
                 = (Ok 3%positive,
                    (resize_watermark 1%positive 2%positive half studio).2))
    by (vm_compute; reflexivity).
  assert (Hwm : heap studio !! 1%positive = Some logo) by reflexivity.
  assert (Hb : 0 < width logo < 2 ^ 53) by (cbn; lia).
  assert (Hh : 0 < height logo) by (cbn; lia).
  destruct (resize_watermark_keeps_aspect _ _ _ _ _ _ _ Hrun Hwm Hb Hh)
    as (resized & Hres & _ & _ & _ & _ & _).
  exists resized. split; [exact Hres|].
  vm_compute in Hres. injection Hres as <-.
  split; [reflexivity|]. cbn. lia.
Defined.





(** [int] cuts off: a 150 x 50 watermark for a base 500 wide at scale 0.1
    becomes 50 x 16, where 50 * 50 / 150 is 16.67; and the rounding of the
    quotient can cost the pixel of an exact ratio: 49 * (1 / 49) is just
    below 1. *)
Example resize_cuts_off :
  new_width 500 tenth = 50 /\ new_height 150 50 50 = 16
  /\ new_height 49 49 1 = 0.
Proof. repeat split; vm_compute; reflexivity. Qed.

End Resizing.

(* ===================================================================== *)
(** * Surroundings: files, directories, fonts and the log

    Everything of the world but the store of image objects.  Most of the
    library only touches the store; [save] writes one file and [logging]
    adds one record. *)
(* ===================================================================== *)

Module Surroundings.
Import Py PIL Watermarker Logic Run.
Local Open Scope py_scope.

Definition surroundings (w : world)
  : gmap string file * gmap string exn * gset string
    * gmap string (list string) * list (level * string) :=
  (files w, write_errors w, fonts w, dirs w, log w).

(** A statement that at most changes the store. *)
Definition store_only {A} (m : M A) : Prop :=
  forall w, surroundings (m w).2 = surroundings w.

Ltac innermost_case :=
  match goal with
  | |- context [match ?x with _ => _ end] =>
      lazymatch x with
      | context [match _ with _ => _ end] => fail
      | _ => destruct x
      end
  end.

Ltac store_only_prim :=
  let w := fresh "w" in
  intros w; cbv beta; repeat innermost_case; reflexivity.

Lemma store_only_run {A} (m : M A) w r w' :
  store_only m -> m w = (r, w') -> surroundings w' = surroundings w.
Proof. intros Hm Hrun. specialize (Hm w). rewrite Hrun in Hm. exact Hm. Qed.

Lemma store_only_bind {A B} (m : M A) (k : A -> M B) :
  store_only m -> (forall a, store_only (k a)) -> store_only (bind m k).
Proof.
  intros Hm Hk w. unfold bind. specialize (Hm w).
  destruct (m w) as [[a|e] w1]; cbn [snd] in *.
  - rewrite (Hk a w1). exact Hm.
  - exact Hm.
Qed.

Lemma store_only_try_except {A} (body : M A) classes handler :
  store_only body -> (forall e, store_only (handler e)) ->
  store_only (try_except body classes handler).
Proof.
  intros Hb Hh w. unfold try_except. specialize (Hb w).
  destruct (body w) as [[a|e] w1]; cbn [snd] in *; [exact Hb|].
  destruct (caught_by classes e); cbn [snd]; [|exact Hb].
  rewrite (Hh e w1). exact Hb.
Qed.

Lemma store_only_if {A} (b : bool) (m1 m2 : M A) :
  store_only m1 -> store_only m2 -> store_only (if b then m1 else m2).
Proof. destruct b; auto. Qed.

Lemma store_only_ret {A} (a : A) : store_only (ret a).
Proof. intros w. reflexivity. Qed.

Lemma store_only_raise {A} e : store_only (@raise A e).
Proof. intros w. reflexivity. Qed.

Lemma store_only_lift {A} (o : outcome A) : store_only (lift o).
Proof. intros w. reflexivity. Qed.

Lemma store_only_alloc im : store_only (alloc im).
Proof. intros w. reflexivity. Qed.

Lemma store_only_deref l : store_only (deref l).
Proof. unfold store_only, deref. store_only_prim. Qed.

Lemma store_only_store l im : store_only (store l im).
Proof. intros w. reflexivity. Qed.

Section Library.
Context `{Kernels}.

Lemma store_only_Image_open path : store_only (Image_open path).
Proof. unfold store_only, Image_open, alloc. store_only_prim. Qed.

Lemma store_only_Image_new md sz color : store_only (Image_new md sz color).
Proof.
  unfold Image_new. apply store_only_if;
    [apply store_only_raise|apply store_only_alloc].
Qed.

Lemma store_only_convert l md : store_only (convert l md).
Proof.
  unfold convert. apply store_only_bind; [apply store_only_deref|].
  intros im. destruct (convert_bands _ _ _);
    [apply store_only_alloc|apply store_only_raise].
Qed.

Lemma store_only_resize l sz filter : store_only (resize l sz filter).
Proof.
  unfold resize. apply store_only_bind; [apply store_only_deref|].
  intros im.
  repeat first [ apply store_only_raise | apply store_only_alloc
               | apply store_only_if ].
Qed.

Lemma store_only_split_at l i : store_only (split_at l i).
Proof.
  unfold split_at. apply store_only_bind; [apply store_only_deref|].
  intros im. destruct (bands im !! i);
    [apply store_only_alloc|apply store_only_raise].
Qed.

Lemma store_only_Brightness_enhance l factor :
  store_only (Brightness_enhance l factor).
Proof.
  unfold Brightness_enhance.
  apply store_only_bind; [apply store_only_deref|].
  intros im. apply store_only_alloc.
Qed.

Lemma store_only_putalpha l alpha : store_only (putalpha l alpha).
Proof.
  unfold putalpha. apply store_only_bind; [apply store_only_deref|].
  intros im. apply store_only_bind; [apply store_only_deref|].
  intros a. destruct (alpha_index (mode im)); [|apply store_only_raise].
  destruct (bands a) as [|b [|]]; try apply store_only_raise.
  apply store_only_if; [apply store_only_store|apply store_only_raise].
Qed.

Lemma store_only_paste dest src box mask : store_only (paste dest src box mask).
Proof.
  unfold paste. apply store_only_bind; [apply store_only_deref|].
  intros d. apply store_only_bind; [apply store_only_deref|].
  intros s. apply store_only_bind.
  - destruct mask; [|apply store_only_ret].
    apply store_only_bind; [apply store_only_deref|].
    intros mi. apply store_only_ret.
  - intros m. destruct (paste_bands d s box m);
      [apply store_only_store|apply store_only_raise].
Qed.

Lemma store_only_ImageFont_truetype name pt :
  store_only (ImageFont_truetype name pt).
Proof. unfold store_only, ImageFont_truetype. store_only_prim. Qed.

Lemma store_only_draw_text l xy text f fill :
  store_only (draw_text l xy text f fill).
Proof.
  unfold draw_text. apply store_only_bind; [apply store_only_deref|].
  intros im. apply store_only_store.
Qed.

Lemma store_only_resize_watermark watermark base_image scale :
  store_only (resize_watermark watermark base_image scale).
Proof.
  unfold resize_watermark.
  repeat first
    [ apply store_only_resize
    | apply store_only_deref
    | apply store_only_lift
    | apply store_only_bind; [|intros ?] ].
Qed.

Lemma store_only_add_watermark image watermark position transparency :
  store_only (add_watermark image watermark position transparency).
Proof.
  unfold add_watermark.
  repeat first
    [ apply store_only_convert
    | apply store_only_deref
    | apply store_only_lift
    | apply store_only_ret
    | apply store_only_split_at
    | apply store_only_Brightness_enhance
    | apply store_only_putalpha
    | apply store_only_Image_new
    | apply store_only_paste
    | apply store_only_if
    | apply store_only_bind; [|intros ?] ].
Qed.

End Library.
End Surroundings.

(* ===================================================================== *)
(** * Dimensions: the size of what is composed and saved *)
(* ===================================================================== *)

Module Dimensions.
Import Py PIL Watermarker Logic Run Processing Resizing Surroundings.
Local Open Scope py_scope.

(** The object at [l] has size [sz]. *)
Definition size_at (l : loc) (sz : Z * Z) (w : world) : Prop :=
  exists im, heap w !! l = Some im /\ size im = sz.

Section Claims.
Context `{Kernels}.

Lemma size_at_allocated im l' w w' l sz :
  allocated im l' w w' -> size_at l sz w -> size_at l sz w'.
Proof.
  intros Halloc (x & Hx & Hsz). exists x. split; [|exact Hsz].
  eapply allocated_other; eassumption.
Qed.

(** Overwriting the bands of an object keeps every size. *)
Lemma size_at_store l' old bs w l sz :
  heap w !! l' = Some old -> size_at l sz w ->
  size_at l sz (set_heap (<[l' := set_bands bs old]> (heap w)) w).
Proof.
  intros Hold (x & Hx & Hsz). unfold size_at. cbn [heap set_heap].
  destruct (decide (l = l')) as [->|Hne].
  - rewrite lookup_insert_eq. eexists. split; [reflexivity|].
    rewrite Hold in Hx. injection Hx as <-. exact Hsz.
  - rewrite lookup_insert_ne by congruence. eauto.
Qed.

Lemma paste_Ok dest src box mask u w w' :
  paste dest src box mask w = (Ok u, w') ->
  exists d bs,
    heap w !! dest = Some d /\
    w' = set_heap (<[dest := set_bands bs d]> (heap w)) w.
Proof.
  unfold paste. intros (d & w1 & [Hd ->]%deref_Ok & Hk)%bind_Ok.
  apply bind_Ok in Hk as (s & w1 & [_ ->]%deref_Ok & Hk).
  apply bind_Ok in Hk as (m & w1 & Hm & Hk).
  assert (w1 = w) as ->.
  { destruct mask as [ml|].
    - apply bind_Ok in Hm as (mi & w2 & [_ ->]%deref_Ok & Hm).
      apply ret_Ok in Hm as [_ ->]. reflexivity.
    - apply ret_Ok in Hm as [_ ->]. reflexivity. }
  destruct (paste_bands d s box m) as [bs|]; [|discriminate].
  apply store_Ok in Hk. eauto.
Qed.

(** The composite has the size of the base image, whatever the watermark,
    the offset and the transparency, also when base and watermark are one
    object. *)
Lemma add_watermark_size image watermark position transparency w r w' sz :
  add_watermark image watermark position transparency w = (Ok r, w') ->
  size_at image sz w ->
  exists result,
    heap w' !! r = Some result /\ mode result = "RGB" /\ size result = sz.
Proof.
  intros Hrun Hsz. unfold add_watermark in Hrun.
  apply bind_Ok in Hrun as (wm & w1 & [_ ->]%deref_Ok & Hrun).
  apply bind_Ok in Hrun as (watermark' & w1 & Hconv & Hrun).
  assert (Hsz1 : size_at image sz w1).
  { destruct (negb _).
    - apply convert_Ok in Hconv as (? & ? & _ & _ & Halloc).
      eapply size_at_allocated; eassumption.
    - apply ret_Ok in Hconv as [_ ->]. exact Hsz. }
  clear Hconv Hsz.
  apply bind_Ok in Hrun as (alpha & w2 & Hsplit & Hrun).
  apply split_at_Ok in Hsplit as (? & ? & _ & _ & Halloc).
  apply (size_at_allocated _ _ _ _ _ _ Halloc) in Hsz1. clear Halloc.
  apply bind_Ok in Hrun as (factor & w3 & [_ ->]%lift_Ok & Hrun).
  apply bind_Ok in Hrun as (alpha' & w3 & Hen & Hrun).
  apply Brightness_enhance_Ok in Hen as (? & _ & Halloc).
  apply (size_at_allocated _ _ _ _ _ _ Halloc) in Hsz1. clear Halloc.
  apply bind_Ok in Hrun as (u & w4 & Hput & Hrun).
  apply putalpha_Ok in Hput as (old & a & i & b & Hold & _ & _ & _ & ->).
  apply (size_at_store _ _ (<[i := b]> (bands old)) _ _ _ Hold) in Hsz1.
  apply bind_Ok in Hrun as (im & w5 & [Him ->]%deref_Ok & Hrun).
  destruct Hsz1 as (im' & Him' & Hsize). rewrite Him in Him'.
  injection Him' as <-.
  apply bind_Ok in Hrun as (transparent & w5 & Hnew & Hrun).
  apply Image_new_Ok in Hnew.
  assert (Ht : size_at transparent sz w5).
  { eexists. split; [eapply allocated_lookup; exact Hnew|].
    rewrite <- Hsize. reflexivity. }
  clear Hnew.
  apply bind_Ok in Hrun as (u1 & w6 & Hp1 & Hrun).
  apply paste_Ok in Hp1 as (d1 & bs1 & Hd1 & ->).
  apply (size_at_store _ _ bs1 _ _ _ Hd1) in Ht.
  apply bind_Ok in Hrun as (u2 & w7 & Hp2 & Hrun).
  apply paste_Ok in Hp2 as (d2 & bs2 & Hd2 & ->).
  apply (size_at_store _ _ bs2 _ _ _ Hd2) in Ht.
  apply convert_Ok in Hrun as (t & bs & Ht' & _ & Halloc).
  destruct Ht as (t0 & Ht0 & Hsize0). rewrite Ht' in Ht0. injection Ht0 as <-.
  eexists. split; [eapply allocated_lookup; exact Halloc|].
  split; [reflexivity|]. exact Hsize0.
Qed.

(** What a call of [process_image] that returns a path has done. *)
Lemma process_image_Some self filename scale position transparency w path w' :
  process_image self filename scale position transparency w
  = (Ok (Some path), w') ->
  exists src result,
    files w !! os_path_join (input_dir self) filename = Some (Picture src) /\
    1 <= new_width (width src) scale /\
    path = os_path_join (output_dir self) filename /\
    mode result = "RGB" /\ size result = size src /\
    files w' = <[path := Picture result]> (files w) /\
    dirs w' = dirs w /\ write_errors w' = write_errors w /\
    fonts w' = fonts w /\
    log w'
    = (log w
      ++ [(INFO,
           String.append "Processing "
             (String.append filename
                (String.append ": "
                   (String.append (repr_size (size src))
                      (String.append ", " (mode src))))));
          (INFO, String.append "Successfully processed: " filename)])%list.
Proof.
  intros Hrun. unfold process_image in Hrun.
  apply try_except_Ok in Hrun as [Hrun|(e & w1 & _ & _ & Hrun)].
  2:{ apply bind_Ok in Hrun as (? & ? & _ & Hrun).
      apply ret_Ok in Hrun as [[=] _]. }
  apply bind_Ok in Hrun as (img0 & w1 & Hopen & Hrun).
  pose proof (store_only_run _ _ _ _ (store_only_Image_open _) Hopen) as S1.
  apply Image_open_Ok in Hopen as (src & Hfile & Hsrc).
  apply bind_Ok in Hrun as (im & w1' & [Him ->]%deref_Ok & Hrun).
  rewrite (allocated_lookup _ _ _ _ Hsrc) in Him. injection Him as <-.
  apply bind_Ok in Hrun as (u & w2 & ->%logging_Ok & Hrun).
  apply bind_Ok in Hrun as (img & w3 & Hnorm & Hrun).
  pose proof (store_only_run _ _ _ _
                (store_only_if _ _ _ (store_only_convert _ _) (store_only_ret _))
                Hnorm) as S2.
  apply normalised_to_rgb with (src := src) in Hnorm
      as (base & Hbase & _ & Hsize & _ & Hsub);
    [|apply (allocated_lookup _ _ _ _ Hsrc)].
  apply bind_Ok in Hrun as (scaled & w4 & Hresize & Hrun).
  pose proof (store_only_run _ _ _ _ (store_only_resize_watermark _ _ _) Hresize)
    as S3.
  apply resize_watermark_Ok in Hresize
    as (base' & wm & resized & Hbase' & _ & _ & Halloc & _ & Ew & _ & Ha & _).
  rewrite Hbase in Hbase'. injection Hbase' as <-. rewrite Ew in Ha.
  apply bind_Ok in Hrun as (base' & w4' & [_ ->]%deref_Ok & Hrun).
  apply bind_Ok in Hrun as (wm' & w4' & [_ ->]%deref_Ok & Hrun).
  cbv beta zeta in Hrun.
  apply bind_Ok in Hrun as (result_at & w5 & Hadd & Hrun).
  pose proof (store_only_run _ _ _ _ (store_only_add_watermark _ _ _ _) Hadd)
    as S4.
  assert (Hat : size_at img (size src) w4).
  { exists base. split; [|exact Hsize].
    eapply allocated_other; eassumption. }
  destruct (add_watermark_size _ _ _ _ _ _ _ _ Hadd Hat)
    as (result & Hres & Hrgb & Hrsize).
  cbv beta zeta in Hrun.
  apply bind_Ok in Hrun as (u' & w6 & Hsave & Hrun).
  apply save_Ok in Hsave as (saved & Hsaved & ->).
  rewrite Hres in Hsaved. injection Hsaved as <-.
  apply bind_Ok in Hrun as (u'' & w7 & ->%logging_Ok & Hrun).
  apply ret_Ok in Hrun as [[= ->] ->].
  exists src, result.
  split; [exact Hfile|].
  split; [replace (width src) with (width base)
            by (unfold size in Hsize; congruence); exact Ha|].
  split; [reflexivity|]. split; [exact Hrgb|]. split; [exact Hrsize|].
  assert (Henv : files w5 = files w /\ dirs w5 = dirs w /\
                 write_errors w5 = write_errors w /\ fonts w5 = fonts w /\
                 log w5 = (log w ++ [(INFO,
                   String.append "Processing "
                     (String.append filename
                        (String.append ": "
                           (String.append (repr_size (size src))
                              (String.append ", " (mode src))))))])%list).
  { rewrite S3, S2 in S4. unfold surroundings in S1, S4.
    cbn [files write_errors fonts dirs log set_log] in S4.
    injection S1 as E1 E2 E3 E4 E5. injection S4 as -> -> -> -> ->.
    rewrite E1, E2, E3, E4, E5. auto. }
  destruct Henv as (Hf & Hd & Hwe & Hfo & Hlog).
  cbn [files dirs write_errors fonts log set_files set_log].
  rewrite Hf, Hd, Hwe, Hfo, Hlog, <- app_assoc. auto 10.
Qed.

(** X3.  Whenever [add_watermark] returns, the composite is a new RGB
    image of exactly the size the base image had: the watermark, however
    large, wherever it is pasted (offsets may be negative or beyond the
    edge) and whatever the transparency, never changes the canvas.  This
    holds also when base and watermark are the same object. *)
Theorem add_watermark_keeps_size image watermark position transparency
    w r w' im :
  add_watermark image watermark position transparency w = (Ok r, w') ->
  heap w !! image = Some im ->
  exists result,
    heap w' !! r = Some result /\
    mode result = "RGB" /\
    width result = width im /\ height result = height im.
Proof.
  intros Hrun Him.
  destruct (add_watermark_size _ _ _ _ _ _ _ (size im) Hrun)
    as (result & Hres & Hmode & Hsize); [exists im; auto|].
  exists result. split; [exact Hres|]. split; [exact Hmode|].
  unfold size in Hsize. split; congruence.
Qed.

(** X4.  When [process_image] returns a path, the file written there is
    an RGB picture with the width and height of the picture read from
    [os.path.join(input_dir, filename)]. *)
Theorem process_image_keeps_size self filename scale position transparency
    w path w' :
  process_image self filename scale position transparency w
  = (Ok (Some path), w') ->
  exists src result,
    files w !! os_path_join (input_dir self) filename = Some (Picture src) /\
    files w' !! path = Some (Picture result) /\
    mode result = "RGB" /\
    width result = width src /\ height result = height src.
Proof.
  intros Hrun.
  apply process_image_Some in Hrun
    as (src & result & Hfile & _ & _ & Hmode & Hsize & Hfiles & _).
  exists src, result. split; [exact Hfile|].
  split; [rewrite Hfiles; apply lookup_insert_eq|].
  split; [exact Hmode|]. unfold size in Hsize. split; congruence.
Qed.

End Claims.

Import Toy Demo.

(** The logo pasted at (3, 2), overhanging the 4 x 3 photo on two sides. *)
Lemma add_watermark_keeps_size_witness :
  exists result,
    heap (add_watermark 2%positive 1%positive (3, 2) 128 studio).2 !! 6%positive
    = Some result
    /\ size photo = (4, 3) /\ size result = (4, 3).
Proof.
  assert (Hrun : add_watermark 2%positive 1%positive (3, 2) 128 studio
                 = (Ok 6%positive,
                    (add_watermark 2%positive 1%positive (3, 2) 128 studio).2))
    by (vm_compute; reflexivity).
  assert (Him : heap studio !! 2%positive = Some photo) by reflexivity.
  destruct (add_watermark_keeps_size _ _ _ _ _ _ _ _ Hrun Him)
    as (result & Hres & _ & Hw & Hh).
  exists result. split; [exact Hres|]. split; [reflexivity|].
  unfold size. cbn in Hw, Hh. congruence.
Defined.

Lemma process_image_keeps_size_witness :
  exists result,
    files (process_image self "a.png" half "center" 128 disk).2 !! "out/a.png"
    = Some (Picture result)
    /\ size grey = (4, 3) /\ size result = (4, 3).
Proof.
  assert (Hrun : process_image self "a.png" half "center" 128 disk
                 = (Ok (Some "out/a.png"),
                    (process_image self "a.png" half "center" 128 disk).2))
    by (vm_compute; reflexivity).
  destruct (process_image_keeps_size _ _ _ _ _ _ _ _ Hrun)
    as (src & result & Hsrc & Hres & _ & Hw & Hh).
  exists result. split; [exact Hres|]. split; [reflexivity|].
  vm_compute in Hsrc. injection Hsrc as <-. unfold size. cbn in Hw, Hh.
  congruence.
Defined.

End Dimensions.

(* ===================================================================== *)
(** * Writes: when a call saves nothing *)
(* ===================================================================== *)

Module Writes.
Import Py PIL Watermarker Logic Run Processing Resizing Surroundings.
Import Dimensions Directory.
Local Open Scope py_scope.

(** What the program finds around itself: the files, the paths that cannot
    be written, the fonts and the directory listings. *)
Definition environment (w : world)
  : gmap string file * gmap string exn * gset string
    * gmap string (list string) :=
  (files w, write_errors w, fonts w, dirs w).

Section Claims.
Context `{Kernels}.

(** The environment is an invariant of everything that only touches the
    store, and of logging. *)
Lemma store_only_hoare {A} (m : M A) e0 :
  store_only m ->
  hoare (fun w => environment w = e0) m
        (fun _ w => environment w = e0) (fun _ w => environment w = e0).
Proof.
  intros Hm w Hw. specialize (Hm w).
  destruct (m w) as [[a|e] w1]; cbn [snd] in Hm;
    unfold surroundings in Hm; injection Hm as E1 E2 E3 E4 _;
    unfold environment in *; rewrite E1, E2, E3, E4; exact Hw.
Qed.

Lemma logging_hoare lv msg e0 :
  hoare (fun w => environment w = e0) (logging lv msg)
        (fun _ w => environment w = e0) (fun _ w => environment w = e0).
Proof. intros w Hw. exact Hw. Qed.

(** A [save] that fails has written nothing. *)
Lemma save_hoare l path e0 :
  hoare (fun w => environment w = e0) (save l path)
        (fun _ _ => True) (fun _ w => environment w = e0).
Proof.
  intros w Hw. unfold save, bind, deref.
  destruct (heap w !! l); [|exact Hw].
  destruct (write_errors w !! path); [exact Hw|exact I].
Qed.

(** A call of [process_image] that returns [None] has left the
    environment as it was. *)
Lemma process_image_None self filename scale position transparency w w' :
  process_image self filename scale position transparency w = (Ok None, w') ->
  environment w' = environment w.
Proof.
  intros Hrun.
  assert (Htriple :
    hoare (fun w0 => environment w0 = environment w)
      (process_image self filename scale position transparency)
      (fun r w0 => r = None -> environment w0 = environment w)
      (fun _ _ => True)).
  { unfold process_image. cbv zeta.
    apply hoare_try_except
      with (E' := fun _ w0 => environment w0 = environment w).
    - eapply hoare_bind; [apply store_only_hoare, store_only_Image_open|].
      intros img. cbv beta.
      eapply hoare_bind; [apply store_only_hoare, store_only_deref|].
      intros im. cbv beta.
      eapply hoare_bind; [apply logging_hoare|]. intros ?. cbv beta.
      eapply hoare_bind.
      { apply store_only_hoare, store_only_if;
          [apply store_only_convert|apply store_only_ret]. }
      intros img'. cbv beta.
      eapply hoare_bind;
        [apply store_only_hoare, store_only_resize_watermark|].
      intros scaled. cbv beta.
      eapply hoare_bind; [apply store_only_hoare, store_only_deref|].
      intros base. cbv beta.
      eapply hoare_bind; [apply store_only_hoare, store_only_deref|].
      intros wm. cbv beta.
      eapply hoare_bind;
        [apply store_only_hoare, store_only_add_watermark|].
      intros result. cbv beta.
      eapply hoare_bind; [apply save_hoare|]. intros ?. cbv beta.
      intros w0 _. cbn. discriminate.
    - intros e _ w0 Hw0. cbn. intros _. exact Hw0.
    - intros e w0 Hc. rewrite caught_by_Exception in Hc. discriminate. }
  specialize (Htriple w eq_refl). rewrite Hrun in Htriple. auto.
Qed.

(** X6.  [process_image] gives up on an image too narrow for the scale:
    when [int(width * scale)] is below 1 (scale 0.1 and an image less
    than 10 pixels wide, or a scale of 0 or below), the call returns
    [None] and writes no file. *)
Theorem process_image_skips_narrow self filename scale position transparency
    w src :
  files w !! os_path_join (input_dir self) filename = Some (Picture src) ->
  new_width (width src) scale < 1 ->
  exists w',
    process_image self filename scale position transparency w = (Ok None, w')
    /\ files w' = files w.
Proof.
  intros Hfile Hnarrow.
  destruct (process_image_result self filename scale position transparency w)
    as (r & w' & Hrun & _).
  exists w'. destruct r as [path|].
  - exfalso. apply process_image_Some in Hrun
      as (src' & result & Hfile' & Ha & _).
    rewrite Hfile in Hfile'. injection Hfile' as <-. lia.
  - split; [exact Hrun|]. apply process_image_None in Hrun.
    unfold environment in Hrun. injection Hrun as -> _ _ _. reflexivity.
Qed.

End Claims.

Import Toy Demo.

(** The 4-pixel-wide photo at scale 0.1. *)
Lemma process_image_skips_narrow_witness :
  new_width (width photo) tenth = 0
  /\ (process_image self "d.bmp" tenth "center" 128 disk).1 = Ok None
  /\ files (process_image self "d.bmp" tenth "center" 128 disk).2 = files disk.
Proof.
  assert (Hfile : files disk !! os_path_join (input_dir self) "d.bmp"
                  = Some (Picture photo)) by reflexivity.
  assert (Hnarrow : new_width (width photo) tenth < 1)
    by (vm_compute; reflexivity).
  destruct (process_image_skips_narrow self "d.bmp" tenth "center" 128 disk
              photo Hfile Hnarrow) as (w' & Hrun & Hfiles).
  split; [vm_compute; reflexivity|]. rewrite Hrun. cbn [fst snd].
  split; [reflexivity|exact Hfiles].
Defined.

End Writes.

(* ===================================================================== *)
(** * Cleaning the paths: [clean_path] *)
(* ===================================================================== *)

Module Paths.
Import Py.

(** [c.isspace()] for a character below 256: the ASCII white space, the
    separators 28 to 31, and the Latin-1 characters 133 and 160. *)
Definition isspace (c : ascii) : bool :=
  let n := nat_of_ascii c in
  ((9 <=? n) && (n <=? 13) || (28 <=? n) && (n <=? 32)
   || (n =? 133) || (n =? 160))%nat.

(** [s.lstrip()], [s.rstrip()] and [s.strip()] *)
Fixpoint lstrip (s : string) : string :=
  match s with
  | EmptyString => EmptyString
  | String c r => if isspace c then lstrip r else s
  end.

Fixpoint rstrip (s : string) : string :=
  match s with
  | EmptyString => EmptyString
  | String c r =>
      match rstrip r with
      | EmptyString => if isspace c then EmptyString else String c EmptyString
      | r' => String c r'
      end
  end.

Definition strip (s : string) : string := rstrip (lstrip s).

(** [s.replace(old, new)] for a one-character [old]. *)
Fixpoint replace (old : ascii) (new : string) (s : string) : string :=
  match s with
  | EmptyString => EmptyString
  | String c r =>
      if Ascii.eqb c old then String.append new (replace old new r)
      else String c (replace old new r)
  end.

Definition LF : ascii := "010"%char.
Definition CR : ascii := "013"%char.

(** The argument is a [str], or [None], on which the attribute lookup
    fails. *)
Definition clean_path (path : option string) : outcome string :=
  match path with
  | Some path => Ok (replace CR "" (replace LF "" (strip path)))
  | None =>
      Raise (Exn AttributeError "'NoneType' object has no attribute 'strip'")
  end.

(** The first and the last character of a string. *)
Definition first_char (s : string) : option ascii :=
  match s with
  | EmptyString => None
  | String c _ => Some c
  end.

Fixpoint last_char (s : string) : option ascii :=
  match s with
  | EmptyString => None
  | String c EmptyString => Some c
  | String _ r => last_char r
  end.

Definition contains (c : ascii) (s : string) : bool :=
  existsb_str (Ascii.eqb c) s.

(** A string with no white space at either end and no line break
    anywhere. *)
Definition tidy (s : string) : Prop :=
  (forall c, first_char s = Some c -> isspace c = false)
  /\ (forall c, last_char s = Some c -> isspace c = false)
  /\ contains LF s = false /\ contains CR s = false.

Lemma last_char_cons c r :
  r <> EmptyString -> last_char (String c r) = last_char r.
Proof. destruct r; [congruence|reflexivity]. Qed.

Lemma last_char_nonempty s c : last_char s = Some c -> s <> EmptyString.
Proof. destruct s; [discriminate|discriminate]. Qed.

Lemma lstrip_first s c : first_char (lstrip s) = Some c -> isspace c = false.
Proof.
  induction s as [|d r IH]; cbn; [discriminate|].
  destruct (isspace d) eqn:Hd; [exact IH|]. cbn. intros [= <-]. exact Hd.
Qed.

Lemma rstrip_first s c :
  first_char (rstrip s) = Some c -> first_char s = Some c.
Proof.
  destruct s as [|d r]; cbn; [discriminate|].
  destruct (rstrip r); [destruct (isspace d); [discriminate|]|]; cbn; auto.
Qed.

Lemma rstrip_last s c : last_char (rstrip s) = Some c -> isspace c = false.
Proof.
  induction s as [|d r IH]; cbn [rstrip]; [discriminate|].
  destruct (rstrip r) as [|e r'] eqn:Hr.
  - destruct (isspace d) eqn:Hd; [discriminate|].
    cbn. intros [= <-]. exact Hd.
  - rewrite last_char_cons by discriminate. exact IH.
Qed.

Lemma replace_contains old s : contains old (replace old "" s) = false.
Proof.
  unfold contains. induction s as [|d r IH]; cbn; [reflexivity|].
  destruct (Ascii.eqb_spec d old) as [->|Hne]; cbn; [exact IH|].
  rewrite IH, orb_false_r. apply Ascii.eqb_neq. congruence.
Qed.

Lemma replace_keeps_absent a old s :
  contains a s = false -> contains a (replace old "" s) = false.
Proof.
  unfold contains. induction s as [|d r IH]; cbn; [reflexivity|].
  intros [Hd Hr]%orb_false_elim.
  destruct (Ascii.eqb d old); cbn; [auto|]. rewrite Hd. auto.
Qed.

Lemma replace_first old s c :
  first_char (replace old "" s) = Some c ->
  isspace old = true ->
  (forall d, first_char s = Some d -> isspace d = false) ->
  first_char s = Some c.
Proof.
  destruct s as [|d r]; cbn; [discriminate|].
  intros Hc Hold Hfirst. specialize (Hfirst d eq_refl).
  destruct (Ascii.eqb_spec d old) as [->|_]; [congruence|exact Hc].
Qed.

Lemma replace_last old s c :
  last_char s = Some c -> c <> old ->
  last_char (replace old "" s) = Some c.
Proof.
  intros Hc Hne. induction s as [|d r IH]; [discriminate|].
  destruct r as [|e r'].
  - cbn in Hc. injection Hc as ->. cbn.
    destruct (Ascii.eqb_spec c old); [congruence|reflexivity].
  - rewrite last_char_cons in Hc by discriminate. specialize (IH Hc).
    cbn [replace]. destruct (Ascii.eqb d old); [exact IH|].
    rewrite last_char_cons; [exact IH|]. eapply last_char_nonempty, IH.
Qed.

Lemma replace_last_inv old s c :
  last_char (replace old "" s) = Some c ->
  isspace old = true ->
  (forall d, last_char s = Some d -> isspace d = false) ->
  last_char s = Some c.
Proof.
  intros Hc Hold Hlast.
  destruct (last_char s) as [d|] eqn:Hd.
  - specialize (Hlast d eq_refl).
    rewrite (replace_last old s d Hd) in Hc; [exact Hc|congruence].
  - destruct s as [|e r]; [discriminate|].
    exfalso. clear -Hd. induction r as [|f r IH] in e, Hd |- *;
      [discriminate|]. rewrite last_char_cons in Hd by discriminate. eauto.
Qed.

Lemma lstrip_fixed s :
  (forall c, first_char s = Some c -> isspace c = false) -> lstrip s = s.
Proof.
  destruct s as [|d r]; [reflexivity|]. intros Hfirst. cbn.
  rewrite (Hfirst d eq_refl). reflexivity.
Qed.

Lemma rstrip_fixed s :
  (forall c, last_char s = Some c -> isspace c = false) -> rstrip s = s.
Proof.
  induction s as [|d r IH]; [reflexivity|]. intros Hlast. cbn [rstrip].
  destruct r as [|e r'].
  - cbn. rewrite (Hlast d eq_refl). reflexivity.
  - rewrite IH.
    + reflexivity.
    + intros c Hc. apply Hlast. rewrite last_char_cons by discriminate.
      exact Hc.
Qed.

Lemma replace_fixed old s : contains old s = false -> replace old "" s = s.
Proof.
  unfold contains. induction s as [|d r IH]; [reflexivity|]. cbn.
  intros [Hd Hr]%orb_false_elim. rewrite Ascii.eqb_sym, Hd, IH; auto.
Qed.

Lemma isspace_LF : isspace LF = true.
Proof. reflexivity. Qed.

Lemma isspace_CR : isspace CR = true.
Proof. reflexivity. Qed.

Lemma cleaned_tidy s : tidy (replace CR "" (replace LF "" (strip s))).
Proof.
  assert (Hfirst : forall c, first_char (strip s) = Some c -> isspace c = false).
  { intros c Hc. apply (lstrip_first s), rstrip_first, Hc. }
  assert (Hlast : forall c, last_char (strip s) = Some c -> isspace c = false).
  { intros c Hc. apply (rstrip_last (lstrip s)), Hc. }
  assert (Hfirst1 : forall c, first_char (replace LF "" (strip s)) = Some c ->
                              isspace c = false).
  { intros c Hc. apply Hfirst. apply (replace_first LF); auto using isspace_LF. }
  assert (Hlast1 : forall c, last_char (replace LF "" (strip s)) = Some c ->
                             isspace c = false).
  { intros c Hc. apply Hlast.
    apply (replace_last_inv LF); auto using isspace_LF. }
  repeat split.
  - intros c Hc. apply Hfirst1.
    apply (replace_first CR); auto using isspace_CR.
  - intros c Hc. apply Hlast1.
    apply (replace_last_inv CR); auto using isspace_CR.
  - apply replace_keeps_absent, replace_contains.
  - apply replace_contains.
Qed.

Lemma tidy_fixed s : tidy s -> replace CR "" (replace LF "" (strip s)) = s.
Proof.
  intros (Hfirst & Hlast & HLF & HCR). unfold strip.
  rewrite (lstrip_fixed s Hfirst), (rstrip_fixed s Hlast).
  rewrite (replace_fixed LF s HLF). apply replace_fixed, HCR.
Qed.

(** X8.  For every string, [clean_path] returns a string with no line
    feed and no carriage return anywhere and no white space at either
    end; [clean_path] does nothing to such a string, and only to such a
    string, so cleaning twice is cleaning once.  White space inside the
    path, other than line breaks, is kept. *)
Theorem clean_path_tidy s :
  exists t,
    clean_path (Some s) = Ok t /\ tidy t
    /\ clean_path (Some t) = Ok t
    /\ (clean_path (Some s) = Ok s <-> tidy s).
Proof.
  exists (replace CR "" (replace LF "" (strip s))).
  split; [reflexivity|]. split; [apply cleaned_tidy|].
  split; [cbn; f_equal; apply tidy_fixed, cleaned_tidy|].
  split.
  - cbn. intros [= Hs]. rewrite <- Hs at 1. apply cleaned_tidy.
  - intros Hs. cbn. f_equal. apply tidy_fixed, Hs.
Qed.

(** Some paths, as a shell or a text file may hand them over. *)
Example clean_path_examples :
  clean_path (Some "  photos/2024 ") = Ok "photos/2024"
  /\ clean_path (Some (String LF "my pictures" ++ String CR (String LF "")))
     = Ok "my pictures"
  /\ clean_path (Some (String.append "a" (String LF "b"))) = Ok "ab"
  /\ clean_path (Some "   ") = Ok "".
Proof. repeat split. Qed.

End Paths.

(* ===================================================================== *)
(** * Setting up: [__init__], [_create_output_dir], [setup_logging], [main] *)
(* ===================================================================== *)

Module Setup.
Import Py PIL Watermarker Logic Run Paths Directory.
Local Open Scope py_scope.

(** What the constructor asks of the operating system and of [logging].
    These calls are left open, as the pixel kernels are: they may change
    the world in any way and may raise. *)
Class System : Type := {
  (** [os.makedirs(path, exist_ok=True)] *)
  os_makedirs : string -> M unit;
  (** [datetime.now().strftime(format)] *)
  datetime_now_strftime : string -> M string;
  (** [logging.basicConfig(level=logging.INFO, format=...,
      handlers=[logging.FileHandler(log_file), logging.StreamHandler()])],
      from [log_file] *)
  logging_basicConfig : string -> M unit
}.

(** The [Namespace] that [parser.parse_args()] returns: [--input-dir] is
    required, [--output-dir] and [--logo-path] are [None] when they are
    not given. *)
Record Namespace : Type := {
  args_input_dir : string;
  args_output_dir : option string;
  args_logo_path : option string;
  args_watermark_text : string;
  args_scale : float;
  args_position : string;
  args_transparency : Z
}.

Section Methods.
Context `{Kernels} `{System}.

Definition _create_output_dir (self_input_dir output_dir : string) : M string :=
  let output_dir :=
    if negb (truthy (Some output_dir))
    then os_path_join self_input_dir "watermarked"
    else output_dir in
  os_makedirs output_dir ;;
  ret output_dir.

Definition setup_logging (self_output_dir : string) : M unit :=
  stamp <- datetime_now_strftime "%Y%m%d_%H%M%S" ;;
  let log_file :=
    os_path_join self_output_dir
      (String.append "watermark_log_" (String.append stamp ".log")) in
  logging_basicConfig log_file.

Definition __init__ (input_dir output_dir logo_path : option string)
    (watermark_text : string) : M ImageWatermarker :=
  self_input_dir <- lift (clean_path input_dir) ;;
  cleaned <- lift (clean_path output_dir) ;;
  self_output_dir <- _create_output_dir self_input_dir cleaned ;;
  self_logo_path <- (if truthy logo_path
                     then (p <- lift (clean_path logo_path) ;; ret (Some p))
                     else ret None) ;;
  setup_logging self_output_dir ;;
  self_watermark_img <- _load_watermark self_logo_path watermark_text ;;
  ret {| input_dir := self_input_dir;
         output_dir := self_output_dir;
         logo_path := self_logo_path;
         watermark_text := watermark_text;
         watermark_img := self_watermark_img |}.

(** [main], from the parsed arguments on. *)
Definition main (args : Namespace) : M unit :=
  watermarker <- __init__ (Some (args_input_dir args)) (args_output_dir args)
                   (args_logo_path args) (args_watermark_text args) ;;
  counts <- process_directory watermarker (args_scale args)
              (args_position args) (args_transparency args) ;;
  logging INFO
    (String.append "Processing complete. Successful: "
       (String.append (str_of_int (fst counts))
          (String.append ", Failed: " (str_of_int (snd counts))))).

(** The exception of [None.strip()]. *)
Definition no_strip : exn :=
  Exn AttributeError "'NoneType' object has no attribute 'strip'".

(** X9.  An output directory of [None] is fatal: the constructor cleans
    the path before it looks whether there is one, so it raises
    [AttributeError] without having created a directory, configured the
    log or loaded a watermark; and [main], which passes the [None] that
    [--output-dir] has when it is not given, raises with it before any
    image is processed.  The default [input_dir/watermarked] is never
    reached this way. *)
Theorem output_dir_None_is_fatal input_dir logo_path watermark_text w :
  __init__ input_dir None logo_path watermark_text w = (Raise no_strip, w)
  /\ forall args,
       args_output_dir args = None -> main args w = (Raise no_strip, w).
Proof.
  assert (Hinit : forall i, __init__ i None logo_path watermark_text w
                            = (Raise no_strip, w)).
  { intros [i|]; reflexivity. }
  split; [apply Hinit|].
  intros args Hnone. unfold main, bind at 1. rewrite Hnone.
  assert (Hmain : forall lp t, __init__ (Some (args_input_dir args)) None lp t w
                               = (Raise no_strip, w)) by reflexivity.
  rewrite Hmain. reflexivity.
Qed.

Lemma _load_watermark_live logo text w l w' :
  _load_watermark logo text w = (Ok l, w') -> is_Some (heap w' !! l).
Proof.
  unfold _load_watermark. intros Hrun.
  apply bind_Ok in Hrun as (opened & w1 & Hopen & Hrun).
  destruct opened as [watermark|].
  - apply ret_Ok in Hrun as [-> ->].
    apply try_except_Ok in Hopen as [Hopen|(e & w2 & _ & _ & Hopen)].
    + destruct (truthy logo); [|apply ret_Ok in Hopen as [[=] _]].
      apply bind_Ok in Hopen as (l & w2 & Hl & Hopen).
      apply Image_open_Ok in Hl as (im & _ & Halloc).
      apply bind_Ok in Hopen as (wm & w3 & [_ ->]%deref_Ok & Hopen).
      apply bind_Ok in Hopen as (u & w3 & ->%logging_Ok & Hopen).
      apply ret_Ok in Hopen as [[= ->] ->]. cbn [heap set_log].
      rewrite (allocated_lookup _ _ _ _ Halloc). eauto.
    + apply bind_Ok in Hopen as (u & w3 & _ & Hopen).
      apply ret_Ok in Hopen as [[=] _].
  - apply bind_Ok in Hrun as (canvas & w2 & Hnew & Hrun).
    apply Image_new_Ok in Hnew.
    apply bind_Ok in Hrun as (f & w3 & Hfont & Hrun).
    assert (w3 = w2) as ->.
    { unfold try_except, ImageFont_truetype in Hfont.
      destruct (bool_decide _).
      - injection Hfont as _ <-. reflexivity.
      - change (caught_by [OSError] (Exn OSError "cannot open resource"))
          with true in Hfont.
        injection Hfont as _ <-. reflexivity. }
    apply bind_Ok in Hrun as (u & w4 & Hdraw & Hrun).
    apply ret_Ok in Hrun as [-> ->].
    unfold draw_text in Hdraw.
    apply bind_Ok in Hdraw as (im & w5 & [_ ->]%deref_Ok & Hdraw).
    apply store_Ok in Hdraw as ->. cbn [heap set_heap].
    rewrite lookup_insert_eq. eauto.
Qed.

(** X10.  What a constructed watermarker holds.  Its [input_dir] is the
    cleaned argument.  Its [output_dir] is the cleaned argument, or, when
    that is empty, [os.path.join(input_dir, 'watermarked')]; it is never
    the empty string.  Its [logo_path] is [None] when the argument was
    [None] or empty and the cleaned argument otherwise.  Its watermark
    template is an image object of the store. *)
Theorem constructed input_dir output_dir logo_path text w self w' :
  __init__ input_dir output_dir logo_path text w = (Ok self, w') ->
  clean_path input_dir = Ok (Watermarker.input_dir self)
  /\ (exists cleaned,
        clean_path output_dir = Ok cleaned
        /\ Watermarker.output_dir self
           = if String.eqb cleaned ""
             then os_path_join (Watermarker.input_dir self) "watermarked"
             else cleaned)
  /\ Watermarker.output_dir self <> ""
  /\ (if truthy logo_path
      then exists p, clean_path logo_path = Ok p
                     /\ Watermarker.logo_path self = Some p
      else Watermarker.logo_path self = None)
  /\ Watermarker.watermark_text self = text
  /\ is_Some (heap w' !! watermark_img self).
Proof.
  intros Hrun. unfold __init__ in Hrun.
  apply bind_Ok in Hrun as (i & w1 & [Hi ->]%lift_Ok & Hrun).
  apply bind_Ok in Hrun as (o & w1 & [Ho ->]%lift_Ok & Hrun).
  apply bind_Ok in Hrun as (od & w1 & Hod & Hrun).
  unfold _create_output_dir in Hod. cbv zeta in Hod.
  apply bind_Ok in Hod as (u & w2 & _ & Hod).
  apply ret_Ok in Hod as [-> ->].
  apply bind_Ok in Hrun as (lp & w3 & Hlp & Hrun).
  apply bind_Ok in Hrun as (u' & w4 & _ & Hrun).
  apply bind_Ok in Hrun as (l & w5 & Hload & Hrun).
  apply ret_Ok in Hrun as [-> ->].
  cbn [Watermarker.input_dir Watermarker.output_dir Watermarker.logo_path
       Watermarker.watermark_text watermark_img].
  unfold truthy at 1 2. rewrite !negb_involutive.
  split; [exact Hi|]. split.
  { exists o. split; [exact Ho|]. reflexivity. }
  split.
  { destruct (String.eqb_spec o "") as [->|Hne].
    - apply os_path_join_nonempty. discriminate.
    - exact Hne. }
  split.
  { destruct (truthy logo_path).
    - apply bind_Ok in Hlp as (p & w6 & [Hp ->]%lift_Ok & Hlp).
      apply ret_Ok in Hlp as [-> ->]. eauto.
    - apply ret_Ok in Hlp as [-> ->]. reflexivity. }
  split; [reflexivity|]. eapply _load_watermark_live, Hload.
Qed.

End Methods.

(** A small system to run the constructor in: a directory is created
    where there is none, the clock stands still, and configuring the log
    changes nothing. *)
Definition mkdir (path : string) : M unit :=
  fun w =>
    (Ok tt,
     World (heap w) (files w) (write_errors w) (fonts w)
       (match dirs w !! path with
        | Some _ => dirs w
        | None => <[path := []]> (dirs w)
        end)
       (log w)).

#[export] Instance still : System := {
  os_makedirs := mkdir;
  datetime_now_strftime := fun _ => ret "20240101_120000";
  logging_basicConfig := fun _ => ret tt
}.

Import Toy Demo.

Definition no_output_dir : Namespace :=
  {| args_input_dir := "in"; args_output_dir := None;
     args_logo_path := None; args_watermark_text := "Watermark";
     args_scale := tenth; args_position := "top-right";
     args_transparency := 128 |}.

Lemma output_dir_None_is_fatal_witness :
  main no_output_dir disk = (Raise no_strip, disk).
Proof.
  apply (proj2 (output_dir_None_is_fatal None None "" disk) no_output_dir).
  reflexivity.
Defined.

(** An input directory with blanks around it and an empty output
    directory. *)
Lemma constructed_witness :
  exists self w',
    __init__ (Some " in ") (Some "") None "Watermark" disk = (Ok self, w')
    /\ input_dir self = "in" /\ output_dir self = "in/watermarked"
    /\ logo_path self = None.
Proof.
  assert (Hrun : exists self w',
            __init__ (Some " in ") (Some "") None "Watermark" disk
            = (Ok self, w')) by (vm_compute; eauto).
  destruct Hrun as (self & w' & Hrun). exists self, w'.
  split; [exact Hrun|].
  destruct (constructed _ _ _ _ _ _ _ Hrun)
    as (Hi & (o & Ho & Hod) & _ & Hlp & _).
  injection Hi as Hi. injection Ho as Ho. subst o.
  rewrite Hod, <- Hi. auto.
Defined.

End Setup.

(* ===================================================================== *)
(** * Margins: where [calculate_position] leaves the free space *)
(* ===================================================================== *)

Module Margins.
Import Py PIL Watermarker Placement.

(** The free space left of, right of, above and below a watermark placed
    at [xy]; negative where the watermark sticks out. *)
Definition left_margin (xy : Z * Z) : Z := fst xy.
Definition top_margin (xy : Z * Z) : Z := snd xy.
Definition right_margin (image watermark : image) (xy : Z * Z) : Z :=
  width image - (fst xy + width watermark).
Definition bottom_margin (image watermark : image) (xy : Z * Z) : Z :=
  height image - (snd xy + height watermark).

Lemma halves d : d `div` 2 <= d - d `div` 2 <= d `div` 2 + 1.
Proof.
  pose proof (Z.div_mod d 2 ltac:(lia)).
  pose proof (Z.mod_pos_bound d 2 ltac:(lia)). lia.
Qed.

(** X11.  The position "center" splits the free space evenly: the right
    margin is the left margin or one pixel more, the bottom margin the
    top margin or one pixel more, whatever the sizes, also for a
    watermark larger than the image, whose overhang is split the same
    way; the padding plays no part.  The corner positions mirror each
    other: top-left and bottom-right leave the same margins on opposite
    sides, and so do top-right and bottom-left. *)
Theorem center_splits_evenly image watermark padding :
  let c := calculate_position image watermark "center" padding in
  let tl := calculate_position image watermark "top-left" padding in
  let tr := calculate_position image watermark "top-right" padding in
  let bl := calculate_position image watermark "bottom-left" padding in
  let br := calculate_position image watermark "bottom-right" padding in
  (left_margin c <= right_margin image watermark c <= left_margin c + 1)
  /\ (top_margin c <= bottom_margin image watermark c <= top_margin c + 1)
  /\ c = calculate_position image watermark "center" 0
  /\ left_margin tl = right_margin image watermark br
  /\ top_margin tl = bottom_margin image watermark br
  /\ right_margin image watermark tr = left_margin bl
  /\ top_margin tr = bottom_margin image watermark bl.
Proof.
  cbv zeta. rewrite !calculate_position_unfold.
  unfold table_floor, table, left_margin, top_margin, right_margin,
    bottom_margin.
  cbn [String.eqb Ascii.eqb Bool.eqb fst snd].
  pose proof (halves (width image - width watermark)).
  pose proof (halves (height image - height watermark)).
  repeat split; lia.
Qed.

End Margins.

(* ===================================================================== *)
(** * Opening the logo: the other branch of [_load_watermark] *)
(* ===================================================================== *)

Module Logo.
Import Py PIL Watermarker Logic Run Loading.
Local Open Scope py_scope.

(** The record of the [logging.info] call after a successful open. *)
Definition loaded (im : image) : level * string :=
  (INFO,
   String.append "Watermark loaded: "
     (String.append (repr_size (size im)) (String.append ", " (mode im)))).

Section Claims.
Context `{Kernels}.

(** X12.  When the logo path is not empty and a picture can be opened
    there, [_load_watermark] returns a new object holding that picture as
    it was decoded, whatever its mode and size: it is not converted and
    not resized at this point.  One INFO record with its size and mode is
    logged; no warning is logged, no text canvas is made and no font is
    looked for. *)
Theorem _load_watermark_opens path text w im :
  path <> "" -> files w !! path = Some (Picture im) ->
  let l := fresh (dom (heap w)) in
  _load_watermark (Some path) text w
  = (Ok l,
     set_log (log w ++ [loaded im]) (set_heap (<[l := im]> (heap w)) w)).
Proof.
  intros Hpath Hfile l.
  assert (Ht : truthy (Some path) = true).
  { cbn. apply negb_true_iff, String.eqb_neq, Hpath. }
  unfold _load_watermark. rewrite Ht.
  change (default "" (Some path)) with path.
  unfold bind at 1. unfold try_except.
  unfold bind at 1. unfold Image_open. rewrite Hfile.
  unfold alloc. fold l.
  unfold bind at 1. unfold deref. cbn [heap set_heap].
  rewrite lookup_insert_eq. reflexivity.
Qed.

End Claims.

Import Toy Demo.

Lemma _load_watermark_opens_witness :
  _load_watermark (Some "in/a.png") "Watermark" disk
  = (Ok 2%positive,
     set_log [(INFO, "Watermark loaded: (4, 3), L")]
       (set_heap (<[2%positive := grey]> (heap disk)) disk)).
Proof.
  assert (Hpath : "in/a.png" <> "") by discriminate.
  assert (Hfile : files disk !! "in/a.png" = Some (Picture grey))
    by reflexivity.
  rewrite (_load_watermark_opens "in/a.png" "Watermark" disk grey Hpath Hfile).
  vm_compute. reflexivity.
Defined.

End Logo.

(* ===================================================================== *)
(** * Selection: which entries [process_directory] takes for images *)
(* ===================================================================== *)

Module Selection.
Import Py PIL Watermarker Paths Directory.

(** The extensions of [supported_formats], as a list. *)
Definition extensions : list string :=
  [".png"; ".jpg"; ".jpeg"; ".bmp"; ".webp"].

(** A character other than a dot occurs in the string. *)
Definition has_name (s : string) : bool :=
  existsb_str (fun c => negb (Ascii.eqb c extsep)) s.

(** ** Slices *)

Lemma append_nil b : String.append "" b = b.
Proof. reflexivity. Qed.

Lemma append_cons c a b :
  String.append (String c a) b = String c (String.append a b).
Proof. reflexivity. Qed.

Lemma substring_all s : substring 0 (String.length s) s = s.
Proof. induction s as [|c r IH]; cbn; [reflexivity|]. rewrite IH. reflexivity. Qed.

Lemma substring_none a s : substring a 0 s = "".
Proof.
  induction s as [|c r IH] in a |- *; destruct a; cbn; try reflexivity.
  apply IH.
Qed.

Lemma take_drop n s :
  String.append (substring 0 n s) (substring n (String.length s - n) s) = s.
Proof.
  induction s as [|c r IH] in n |- *.
  - destruct n; reflexivity.
  - destruct n as [|n]; simpl.
    + rewrite append_nil, substring_all. reflexivity.
    + rewrite append_cons, IH. reflexivity.
Qed.

Lemma substring_prefix a b :
  substring 0 (String.length a) (String.append a b) = a.
Proof.
  induction a as [|c r IH]; [apply substring_none|].
  rewrite append_cons. cbn. rewrite IH. reflexivity.
Qed.

Lemma substring_suffix a b :
  substring (String.length a)
    (String.length (String.append a b) - String.length a) (String.append a b)
  = b.
Proof.
  induction a as [|c r IH].
  - rewrite append_nil. cbn [String.length substring].
    rewrite Nat.sub_0_r. apply substring_all.
  - rewrite append_cons. cbn [String.length substring Nat.sub]. exact IH.
Qed.

Lemma existsb_substring p a n s :
  existsb_str p (substring a n s) = true -> (0 < n)%nat /\ s <> "".
Proof.
  intros Hex. split.
  - destruct n; [|lia]. rewrite substring_none in Hex. discriminate.
  - intros ->. destruct a, n; discriminate.
Qed.

(** ** [rfind] *)

Lemma rfind_from_lower c s : forall i best,
  -1 <= best -> 0 <= i -> -1 <= rfind_from c s i best.
Proof.
  induction s as [|d r IH]; intros i best Hb Hi; cbn; [exact Hb|].
  apply IH; [destruct (Ascii.eqb c d)|]; lia.
Qed.

Lemma rfind_from_absent c s : forall i best,
  contains c s = false -> rfind_from c s i best = best.
Proof.
  unfold contains. induction s as [|d r IH]; intros i best; cbn; [reflexivity|].
  intros [Hd Hr]%orb_false_elim. rewrite Hd. apply IH, Hr.
Qed.

Lemma rfind_from_app c a b : forall i best,
  rfind_from c (String.append a b) i best
  = rfind_from c b (i + Z.of_nat (String.length a)) (rfind_from c a i best).
Proof.
  induction a as [|d r IH]; intros i best.
  - rewrite append_nil. cbn. f_equal. lia.
  - rewrite append_cons. cbn [rfind_from]. rewrite IH.
    cbn [String.length]. f_equal. lia.
Qed.

Lemma contains_app c a b :
  contains c (String.append a b) = contains c a || contains c b.
Proof.
  unfold contains. induction a as [|d r IH]; [reflexivity|].
  rewrite append_cons. cbn. rewrite IH. apply orb_assoc.
Qed.

(** ** Lower case keeps dots and slashes *)

Lemma lower_ascii_dot c : Ascii.eqb extsep (lower_ascii c) = Ascii.eqb extsep c.
Proof. destruct c as [[] [] [] [] [] [] [] []]; reflexivity. Qed.

Lemma lower_ascii_sep c : Ascii.eqb sep (lower_ascii c) = Ascii.eqb sep c.
Proof. destruct c as [[] [] [] [] [] [] [] []]; reflexivity. Qed.

Lemma contains_lower_dot s : contains extsep (lower s) = contains extsep s.
Proof.
  unfold contains. induction s as [|c r IH]; [reflexivity|].
  cbn [lower existsb_str]. rewrite lower_ascii_dot, IH. reflexivity.
Qed.

Lemma contains_lower_sep s : contains sep (lower s) = contains sep s.
Proof.
  unfold contains. induction s as [|c r IH]; [reflexivity|].
  cbn [lower existsb_str]. rewrite lower_ascii_sep, IH. reflexivity.
Qed.

(** An extension of the list, in any letter case, is a dot followed by
    letters. *)
Lemma extension_shape ext :
  lower ext ∈ extensions ->
  exists e, ext = String extsep e /\ contains extsep e = false
            /\ contains sep e = false.
Proof.
  intros Hin. destruct ext as [|d e].
  { exfalso. unfold extensions in Hin. cbn in Hin.
    rewrite !elem_of_cons, elem_of_nil in Hin.
    intuition discriminate. }
  exists e. cbn [lower] in Hin.
  assert (Hd : Ascii.eqb extsep (lower_ascii d) = true
               /\ contains extsep (lower e) = false
               /\ contains sep (lower e) = false).
  { unfold extensions in Hin. rewrite !elem_of_cons, elem_of_nil in Hin.
    destruct Hin as [Hin|[Hin|[Hin|[Hin|[Hin|[]]]]]];
      injection Hin as -> ->; repeat split; reflexivity. }
  destruct Hd as (Hdot & He & Hs).
  rewrite lower_ascii_dot in Hdot. apply Ascii.eqb_eq in Hdot.
  rewrite contains_lower_dot in He. rewrite contains_lower_sep in Hs.
  subst d. auto.
Qed.

(** X13.  An entry is taken for an image only if its name is a non-empty
    stem followed by one of the extensions .png, .jpg, .jpeg, .bmp, .webp
    in any letter case: a name without extension, with another
    extension, or consisting of the extension alone (as [.png]) is
    skipped. *)
Theorem supported_has_extension name :
  supported name = true ->
  exists stem ext,
    name = String.append stem ext /\ stem <> ""
    /\ lower ext ∈ extensions.
Proof.
  intros Hs. apply supported_iff in Hs.
  unfold os_path_splitext in Hs. cbv zeta in Hs.
  destruct (_ && _) eqn:Hc.
  - cbn [snd] in Hs. apply andb_prop in Hc as [Hlt Hex].
    apply Z.ltb_lt in Hlt.
    apply existsb_substring in Hex as [Hn Hne].
    exists (take_str (rfind extsep name) name),
           (drop_str (rfind extsep name) name).
    split; [symmetry; apply take_drop|]. split; [|exact Hs].
    pose proof (rfind_from_lower sep name 0 (-1) ltac:(lia) ltac:(lia)) as Hsep.
    fold (rfind sep name) in Hsep.
    unfold take_str. destruct name as [|c r]; [congruence|].
    destruct (Z.to_nat (rfind extsep (String c r))) eqn:Hk; [lia|].
    discriminate.
  - exfalso. cbn in Hs. rewrite !elem_of_cons, elem_of_nil in Hs.
    intuition discriminate.
Qed.

(** X14.  Conversely every name made of a stem without slash, in which
    some character is not a dot, and of one of the five extensions in any
    letter case is taken for an image: [photo.PNG], [a.b.jpeg] and
    [.hidden.webp] are, whatever else the name contains. *)
Theorem extension_is_supported stem ext :
  contains sep stem = false -> has_name stem = true ->
  lower ext ∈ extensions ->
  supported (String.append stem ext) = true
  /\ os_path_splitext (String.append stem ext) = (stem, ext).
Proof.
  intros Hsep Hname Hext.
  destruct (extension_shape ext Hext) as (e & -> & Hdot & Hslash).
  assert (Hsplit : os_path_splitext (String.append stem (String extsep e))
                   = (stem, String extsep e)).
  { unfold os_path_splitext. cbv zeta.
    assert (Hs : rfind sep (String.append stem (String extsep e)) = -1).
    { unfold rfind. apply rfind_from_absent.
      rewrite contains_app, Hsep. cbn. exact Hslash. }
    assert (Hd : rfind extsep (String.append stem (String extsep e))
                 = Z.of_nat (String.length stem)).
    { unfold rfind. rewrite rfind_from_app. cbn [rfind_from].
      rewrite Ascii.eqb_refl. rewrite rfind_from_absent by exact Hdot. lia. }
    rewrite Hs, Hd.
    replace (Z.to_nat (-1 + 1)) with 0%nat by lia.
    replace (Z.to_nat (Z.of_nat (String.length stem) - (-1 + 1)))
      with (String.length stem) by lia.
    rewrite substring_prefix. fold (has_name stem). rewrite Hname.
    replace (-1 <? Z.of_nat (String.length stem)) with true
      by (symmetry; apply Z.ltb_lt; lia).
    cbn [andb]. unfold take_str, drop_str. rewrite Nat2Z.id.
    rewrite substring_prefix, substring_suffix. reflexivity. }
  split; [|exact Hsplit].
  apply supported_iff. rewrite Hsplit. exact Hext.
Qed.

Lemma supported_has_extension_witness :
  supported "holiday.JPG" = true
  /\ exists stem ext,
       "holiday.JPG" = String.append stem ext /\ stem <> ""
       /\ lower ext ∈ extensions.
Proof.
  assert (Hs : supported "holiday.JPG" = true) by (vm_compute; reflexivity).
  split; [exact Hs|]. apply (supported_has_extension "holiday.JPG" Hs).
Defined.

Lemma extension_is_supported_witness :
  supported ".hidden.WebP" = true
  /\ os_path_splitext ".hidden.WebP" = (".hidden", ".WebP").
Proof.
  apply (extension_is_supported ".hidden" ".WebP").
  - reflexivity.
  - reflexivity.
  - unfold extensions. cbn. rewrite !elem_of_cons. auto 10.
Defined.

End Selection.

(* ===================================================================== *)
(** * Records: what the log tells about a run *)
(* ===================================================================== *)

Module Records.
Import Py PIL Watermarker Logic Run Processing Surroundings.
Import Compositing Dimensions Directory.
Local Open Scope py_scope.
Local Open Scope list_scope.

(** The three records [process_image] writes. *)
Definition processing (filename : string) (src : image) : level * string :=
  (INFO,
   String.append "Processing "
     (String.append filename
        (String.append ": "
           (String.append (repr_size (size src))
              (String.append ", " (mode src)))))).

Definition succeeded (filename : string) : level * string :=
  (INFO, String.append "Successfully processed: " filename).

Definition failure (filename : string) (e : exn) : level * string :=
  (ERROR, error_message filename e).

(** The records a call that returned [r] may have added. *)
Definition account (filename : string) (r : option string)
    (added : list (level * string)) : Prop :=
  match r with
  | Some _ => exists src, added = [processing filename src; succeeded filename]
  | None =>
      exists e, added = [failure filename e]
                \/ exists src, added = [processing filename src;
                                        failure filename e]
  end.

(** Counting the ERROR records, and the records of success. *)
Definition is_error (r : level * string) : bool :=
  match fst r with
  | ERROR => true
  | _ => false
  end.

Definition is_success (r : level * string) : bool :=
  match fst r with
  | INFO => String.prefix "Successfully processed: " (snd r)
  | _ => false
  end.

Definition count (p : level * string -> bool)
    (records : list (level * string)) : Z :=
  Z.of_nat (length (List.filter p records)).

Lemma count_app p a b : count p (a ++ b) = count p a + count p b.
Proof. unfold count. rewrite List.filter_app, length_app. lia. Qed.

Lemma prefix_append a b : String.prefix a (String.append a b) = true.
Proof.
  induction a as [|c r IH]; [destruct b; reflexivity|].
  change (String.append (String c r) b) with (String c (String.append r b)).
  cbn. destruct (ascii_dec c c); [exact IH|congruence].
Qed.

Lemma is_success_succeeded filename : is_success (succeeded filename) = true.
Proof. apply prefix_append. Qed.

Lemma is_success_processing filename src :
  is_success (processing filename src) = false.
Proof. reflexivity. Qed.

Section Claims.
Context `{Kernels}.

(** The log is part of the surroundings: what only touches the store
    keeps every property of it. *)
Lemma store_only_log {A} (m : M A) (P Q : list (level * string) -> Prop) :
  store_only m -> (forall l, P l -> Q l) ->
  hoare (fun w => P (log w)) m (fun _ w => P (log w)) (fun _ w => Q (log w)).
Proof.
  intros Hm HPQ w Hw. specialize (Hm w).
  destruct (m w) as [[a|e] w1]; cbn [snd] in Hm;
    unfold surroundings in Hm; injection Hm as _ _ _ _ ->; auto.
Qed.

Lemma save_log l path (P Q : list (level * string) -> Prop) :
  (forall l, P l -> Q l) ->
  hoare (fun w => P (log w)) (save l path)
        (fun _ w => P (log w)) (fun _ w => Q (log w)).
Proof.
  intros HPQ w Hw. unfold save, bind, deref.
  destruct (heap w !! l); [|auto].
  destruct (write_errors w !! path); cbn; auto.
Qed.

(** The records of a call that returned [None]. *)
Lemma process_image_None_log self filename scale position transparency w w' :
  process_image self filename scale position transparency w = (Ok None, w') ->
  exists added, log w' = log w ++ added /\ account filename None added.
Proof.
  intros Hrun.
  pose (started := fun l : list (level * string) =>
          exists src, l = log w ++ [processing filename src]).
  pose (raised := fun l : list (level * string) => l = log w \/ started l).
  assert (Htriple :
    hoare (fun w0 => log w0 = log w)
      (process_image self filename scale position transparency)
      (fun r w0 => r = None ->
         exists added, log w0 = log w ++ added /\ account filename None added)
      (fun _ _ => True)).
  { unfold process_image. cbv zeta.
    apply hoare_try_except with (E' := fun _ w0 => raised (log w0)).
    - eapply hoare_bind.
      { apply (store_only_log _ (fun l => l = log w) raised);
          [apply store_only_Image_open|]. unfold raised. auto. }
      intros img. cbv beta.
      eapply hoare_bind.
      { apply (store_only_log _ (fun l => l = log w) raised);
          [apply store_only_deref|]. unfold raised. auto. }
      intros im. cbv beta.
      eapply hoare_bind with (R := fun _ w0 => started (log w0)).
      { intros w0 Hw0. cbn. exists im. rewrite Hw0. reflexivity. }
      intros ?. cbv beta.
      eapply hoare_bind.
      { apply (store_only_log _ started raised).
        - apply store_only_if; [apply store_only_convert|apply store_only_ret].
        - unfold raised. auto. }
      intros img'. cbv beta.
      eapply hoare_bind.
      { apply (store_only_log _ started raised);
          [apply store_only_resize_watermark|]. unfold raised. auto. }
      intros scaled. cbv beta.
      eapply hoare_bind.
      { apply (store_only_log _ started raised);
          [apply store_only_deref|]. unfold raised. auto. }
      intros base. cbv beta.
      eapply hoare_bind.
      { apply (store_only_log _ started raised);
          [apply store_only_deref|]. unfold raised. auto. }
      intros wm. cbv beta.
      eapply hoare_bind.
      { apply (store_only_log _ started raised);
          [apply store_only_add_watermark|]. unfold raised. auto. }
      intros result. cbv beta.
      eapply hoare_bind.
      { apply (save_log _ _ started raised). unfold raised. auto. }
      intros ?. cbv beta.
      intros w0 _. cbn. discriminate.
    - intros e _ w0 Hw0. cbn. intros _.
      destruct Hw0 as [Hw0|(src & Hw0)]; rewrite Hw0.
      + exists [failure filename e]. split; [reflexivity|].
        exists e. left. reflexivity.
      + exists [processing filename src; failure filename e].
        split; [rewrite <- app_assoc; reflexivity|].
        exists e. right. exists src. reflexivity.
    - intros e w0 Hc. rewrite caught_by_Exception in Hc. discriminate. }
  apply (hoare_run _ _ _ _ _ _ _ Htriple eq_refl Hrun eq_refl).
Qed.

(** The records of any call. *)
Lemma process_image_log self filename scale position transparency w r w' :
  process_image self filename scale position transparency w = (Ok r, w') ->
  exists added, log w' = log w ++ added /\ account filename r added.
Proof.
  intros Hrun. destruct r as [path|].
  - apply process_image_Some in Hrun
      as (src & result & _ & _ & _ & _ & _ & _ & _ & _ & _ & Hlog).
    eexists. split; [exact Hlog|]. exists src. reflexivity.
  - apply (process_image_None_log _ _ _ _ _ _ _ Hrun).
Qed.

(** The statements of [process_image] after the first record, from the
    conversion to [return output_path]. *)
Definition finish (self : ImageWatermarker) (filename : string)
    (scale : float) (position : string) (transparency : Z)
    (img : loc) (im : image) : M (option string) :=
  img <- (if negb (String.eqb (mode im) "RGB")
          then convert img "RGB" else ret img) ;;
  scaled_watermark <- resize_watermark (watermark_img self) img scale ;;
  base <- deref img ;;
  wm <- deref scaled_watermark ;;
  let watermark_position := calculate_position base wm position 10 in
  watermarked_img <-
    add_watermark img scaled_watermark watermark_position transparency ;;
  let output_path := os_path_join (output_dir self) filename in
  save watermarked_img output_path ;;
  logging INFO (String.append "Successfully processed: " filename) ;;
  ret (Some output_path).

(** They add the record of success when they run to their end, and no
    record when one of them raises. *)
Lemma finish_log self filename scale position transparency img im
    (before : list (level * string)) :
  hoare (fun w0 => log w0 = before)
    (finish self filename scale position transparency img im)
    (fun _ w0 => log w0 = before ++ [succeeded filename])
    (fun _ w0 => log w0 = before).
Proof.
  pose (same := fun l : list (level * string) => l = before).
  unfold finish.
  eapply hoare_bind.
  { apply (store_only_log _ same same); [|auto].
    apply store_only_if; [apply store_only_convert|apply store_only_ret]. }
  intros img'. cbv beta.
  eapply hoare_bind.
  { apply (store_only_log _ same same);
      [apply store_only_resize_watermark|auto]. }
  intros scaled. cbv beta.
  eapply hoare_bind.
  { apply (store_only_log _ same same); [apply store_only_deref|auto]. }
  intros base. cbv beta.
  eapply hoare_bind.
  { apply (store_only_log _ same same); [apply store_only_deref|auto]. }
  intros wm. cbv beta zeta.
  eapply hoare_bind.
  { apply (store_only_log _ same same);
      [apply store_only_add_watermark|auto]. }
  intros result. cbv beta zeta.
  eapply hoare_bind.
  { apply (save_log _ _ same same). auto. }
  intros ?. cbv beta.
  intros w0 Hw0. unfold same in Hw0. cbn. rewrite Hw0. reflexivity.
Qed.

(** X15.  Every call of [process_image] only appends to the log, and
    what it appends tells the outcome.  When a picture is at
    [os.path.join(input_dir, filename)], the first record is INFO
    "Processing <filename>: <size>, <mode>" with the size and mode of
    that picture; it is followed by INFO "Successfully processed:
    <filename>" when the call returns a path, and by the ERROR record
    "Error processing <filename>: <message>" with the message of the
    exception raised between [try:] and [except] when the call returns
    [None].  When no picture can be opened there, the call returns
    [None] and the ERROR record of the exception of the opening is the
    only one. *)
Theorem process_image_logs self filename scale position transparency w :
  exists r w' added,
    process_image self filename scale position transparency w = (Ok r, w')
    /\ log w' = log w ++ added
    /\ match attempt self filename scale position transparency w,
             files w !! os_path_join (input_dir self) filename with
       | (Ok _, _), Some (Picture src) =>
           r = Some (os_path_join (output_dir self) filename)
           /\ added = [processing filename src; succeeded filename]
       | (Ok _, _), _ => False
       | (Raise e, _), Some (Picture src) =>
           r = None /\ added = [processing filename src; failure filename e]
       | (Raise e, _), _ =>
           r = None /\ added = [failure filename e]
           /\ Image_open (os_path_join (input_dir self) filename) w
              = (Raise e, w)
       end.
Proof.
  change (process_image self filename scale position transparency w)
    with (try_except (attempt self filename scale position transparency)
            [Exception]
            (fun e => bind (logging ERROR (error_message filename e))
                           (fun _ => ret None)) w).
  unfold try_except.
  destruct (files w !! os_path_join (input_dir self) filename)
    as [[src|e0]|] eqn:Hfile.
  - (* a picture: the first record, then the rest *)
    set (l := fresh (dom (heap w))).
    set (w1 := set_log (log w ++ [processing filename src])
                 (set_heap (<[l := src]> (heap w)) w)).
    assert (Hattempt :
      attempt self filename scale position transparency w
      = finish self filename scale position transparency l src w1).
    { unfold attempt. cbv zeta. unfold bind at 1. unfold Image_open.
      rewrite Hfile. unfold alloc. fold l.
      unfold bind at 1. unfold deref. cbn [heap set_heap].
      rewrite lookup_insert_eq. unfold bind at 1. reflexivity. }
    rewrite Hattempt.
    pose proof (finish_log self filename scale position transparency l src
                  (log w ++ [processing filename src]) w1 eq_refl) as Hlog.
    destruct (finish self filename scale position transparency l src w1)
      as [[r|e] w2] eqn:Hrun.
    + exists r, w2, [processing filename src; succeeded filename].
      split; [reflexivity|]. split; [rewrite Hlog, <- app_assoc; reflexivity|].
      split; [|reflexivity].
      apply (attempt_Ok _ _ _ _ _ _ _ _ Hattempt).
    + rewrite caught_by_Exception.
      eexists None, _, [processing filename src; failure filename e].
      split; [reflexivity|]. split; [|auto].
      cbn [log set_log]. rewrite Hlog, <- app_assoc. reflexivity.
  - assert (Hopen : Image_open (os_path_join (input_dir self) filename) w
                    = (Raise e0, w))
      by (unfold Image_open; rewrite Hfile; reflexivity).
    assert (Hattempt : attempt self filename scale position transparency w
                       = (Raise e0, w)).
    { unfold attempt. cbv zeta. unfold bind at 1. rewrite Hopen. reflexivity. }
    rewrite Hattempt, caught_by_Exception.
    eexists None, _, [failure filename e0].
    split; [reflexivity|]. split; [reflexivity|]. auto.
  - assert (Hopen : Image_open (os_path_join (input_dir self) filename) w
                    = (Raise (missing w (os_path_join (input_dir self) filename)),
                       w))
      by (unfold Image_open; rewrite Hfile; reflexivity).
    assert (Hattempt : attempt self filename scale position transparency w
                       = (Raise (missing w (os_path_join (input_dir self)
                                              filename)), w)).
    { unfold attempt. cbv zeta. unfold bind at 1. rewrite Hopen. reflexivity. }
    rewrite Hattempt, caught_by_Exception.
    eexists None, _, [failure filename _].
    split; [reflexivity|]. split; [reflexivity|]. auto.
Qed.

Lemma account_counts filename r added :
  account filename r added ->
  count is_error added = (if is_path r then 0 else 1)
  /\ count is_success added = (if is_path r then 1 else 0).
Proof.
  destruct r as [path|]; cbn [account is_path].
  - intros (src & ->). unfold count. cbn [List.filter].
    rewrite is_success_processing, is_success_succeeded. split; reflexivity.
  - intros (e & [-> | (src & ->)]); unfold count; cbn [List.filter];
      rewrite ?is_success_processing; split; reflexivity.
Qed.

Lemma process_entries_log self scale position transparency entries :
  forall successful failed w s f w',
    process_entries self scale position transparency entries successful failed w
    = (Ok (s, f), w') ->
    exists added,
      log w' = log w ++ added
      /\ s = successful + count is_success added
      /\ f = failed + count is_error added.
Proof.
  induction entries as [|filename rest IH];
    intros successful failed w s f w' Hrun.
  - cbn in Hrun. injection Hrun as <- <- <-. exists [].
    rewrite app_nil_r. unfold count. cbn. split; [reflexivity|]. lia.
  - cbn [process_entries] in Hrun.
    destruct (supported filename) eqn:Hs; [|eauto].
    destruct (truthy_result self filename scale position transparency w Hs)
      as (r & w1 & Hone & Htruthy).
    unfold bind in Hrun. rewrite Hone, Htruthy in Hrun.
    destruct (process_image_log _ _ _ _ _ _ _ _ Hone) as (one & Hlog1 & Hacc).
    destruct (account_counts _ _ _ Hacc) as [Herr Hsuc].
    destruct (is_path r);
      apply IH in Hrun as (more & Hlog & -> & ->);
      exists (one ++ more);
      rewrite Hlog, Hlog1, <- app_assoc, !count_app, Herr, Hsuc;
      (split; [reflexivity|lia]).
Qed.

(** X16.  The two numbers [process_directory] returns can be read off
    the log: the run only appends records, the number of failures is the
    number of ERROR records it appended and the number of successes the
    number of "Successfully processed" records. *)
Theorem process_directory_accounts self scale position transparency w s f w' :
  process_directory self scale position transparency w = (Ok (s, f), w') ->
  exists added,
    log w' = log w ++ added
    /\ s = count is_success added /\ f = count is_error added.
Proof.
  unfold process_directory. intros Hrun.
  apply bind_Ok in Hrun as (entries & w1 & Hlist & Hrun).
  assert (w1 = w) as ->.
  { unfold os_listdir in Hlist. destruct (dirs w !! _); [|discriminate].
    injection Hlist as _ <-. reflexivity. }
  apply process_entries_log in Hrun as (added & Hlog & Hs & Hf).
  exists added. split; [exact Hlog|]. lia.
Qed.

End Claims.

Import Toy Demo.

Lemma process_directory_accounts_witness :
  exists added,
    log (process_directory self half "center" 128 disk).2 = added
    /\ 1 = count is_success added /\ 2 = count is_error added.
Proof.
  assert (Hrun : process_directory self half "center" 128 disk
                 = (Ok (1, 2),
                    (process_directory self half "center" 128 disk).2))
    by (vm_compute; reflexivity).
  destruct (process_directory_accounts _ _ _ _ _ _ _ _ Hrun)
    as (added & Hlog & Hs & Hf).
  exists added. split; [rewrite Hlog; reflexivity|]. split; assumption.
Defined.

End Records.

(* ===================================================================== *)
(** * The program's own files in the input directory *)
(* ===================================================================== *)

Module Own.
Import Py PIL Watermarker Paths Directory Selection Setup.
Local Open Scope py_scope.




Section Claims.
Context `{Kernels} `{System}.


End Claims.

Import Toy Demo.


End Own.
